(** * StorageMergeTree: part lifecycle, mutation registry and block numbers

    A shallow embedding of the parts of [src/Storages/StorageMergeTree.cpp]
    that decide how mutations are selected, recorded, killed and reclaimed,
    how block numbers are allocated and waited for, and how MOVE PARTITION
    and merge selection are gated.

    Conventions.
    - Fixed-width integers are [Z] with the wrap-around written out
      ([to_UInt64], [to_Int64]).
    - [std::map<version, entry>] is an association list in iteration order
      (ascending keys); iterators are positions, [end()] is the length.
    - Unordered containers keyed by part name are stdpp [gmap]/[gset].
    - A function that may throw returns [Result]; calls into collaborators
      that live outside this translation unit are either oracles (section
      variables) or recorded in the [effects] log of the storage. *)

From stdpp Require Import base decidable option list strings pretty gmap sorting.
From Stdlib Require Import ZArith Lia.

Local Open Scope Z_scope.

(** ** Error codes and results *)

Module ErrorCodes.
Inductive t : Set :=
| NOT_IMPLEMENTED | LOGICAL_ERROR | NOT_ENOUGH_SPACE | BAD_ARGUMENTS
| INCORRECT_DATA | CANNOT_ASSIGN_OPTIMIZE | TIMEOUT_EXCEEDED | UNKNOWN_POLICY
| NO_SUCH_DATA_PART | ABORTED | SUPPORT_IS_DISABLED | TABLE_IS_READ_ONLY
| TOO_MANY_PARTS | PART_IS_LOCKED.

#[global] Instance eq_dec : EqDecision t.
Proof. solve_decision. Defined.
End ErrorCodes.

(** The outcome of a call that can throw [Exception(ErrorCodes::...)]. *)
Inductive Result (A : Type) : Type :=
| Return (a : A)
| Throw (code : ErrorCodes.t).
Arguments Return {A} a.
Arguments Throw {A} code.

Definition bindR {A B} (r : Result A) (k : A -> Result B) : Result B :=
  match r with
  | Return a => k a
  | Throw c => Throw c
  end.

Notation "x <-! r ; k" := (bindR r (fun x => k))
  (at level 100, r at next level, right associativity).

(** An exception caught by [catch (...)], as seen through
    [getCurrentExceptionMessage] and [ErrorCodes::getName]. *)
Record CaughtException := {
  exception_message : string;
  exception_code_name : string;
}.

Inductive Expected (A : Type) : Type :=
| Value (a : A)
| Raised (e : CaughtException).
Arguments Value {A} a.
Arguments Raised {A} e.

(** ** Machine integers *)

Definition to_UInt64 (z : Z) : Z := z mod 2 ^ 64.
Definition to_Int64 (z : Z) : Z := (z + 2 ^ 63) mod 2 ^ 64 - 2 ^ 63.
Definition Int64_max : Z := 2 ^ 63 - 1.

(** ** Part identity *)

Module MergeTreePartInfo.
Record t := mk {
  partition_id : string;
  min_block : Z;
  max_block : Z;
  level : Z;
  mutation : Z;
}.

#[global] Instance eq_dec : EqDecision t.
Proof. solve_decision. Defined.

(** [MergeTreePartInfo()] *)
Definition default : t := mk "" 0 0 0 0.

(** Modelled from the spec: [MergeTreePartInfo::getDataVersion] is declared
    outside these sources; the data model gives
    data-version = max(max-block, mutation). *)
Definition getDataVersion (i : t) : Z := Z.max (max_block i) (mutation i).

(** Modelled from the spec: [MergeTreePartInfo::contains] is declared
    outside these sources; P covers Q iff the partition ids match,
    P.min-block <= Q.min-block, P.max-block >= Q.max-block and
    P.mutation >= Q.mutation. *)
Definition contains (p q : t) : bool :=
  bool_decide (partition_id p = partition_id q)
  && (min_block p <=? min_block q)
  && (max_block q <=? max_block p)
  && (mutation q <=? mutation p).

(** Modelled from the spec: [operator<] of [MergeTreePartInfo] is declared
    outside these sources; the ordering is lexicographic by
    (partition-id, min-block, max-block, level, mutation). *)
Definition less (p q : t) : bool :=
  match String.compare (partition_id p) (partition_id q) with
  | Lt => true
  | Gt => false
  | Eq =>
      if min_block p <? min_block q then true
      else if min_block q <? min_block p then false
      else if max_block p <? max_block q then true
      else if max_block q <? max_block p then false
      else if level p <? level q then true
      else if level q <? level p then false
      else mutation p <? mutation q
  end.
End MergeTreePartInfo.

Inductive MergeTreeDataPartState : Set :=
| Temporary | PreCommitted | Active | Outdated | Deleting | DeleteOnDestroy.

#[global] Instance MergeTreeDataPartState_eq_dec : EqDecision MergeTreeDataPartState.
Proof. solve_decision. Defined.

(** ** Transactions *)

Record TransactionID := mkTID {
  start_csn : Z;
  local_tid : Z;
  host_id : Z;
}.

#[global] Instance TransactionID_eq_dec : EqDecision TransactionID.
Proof. solve_decision. Defined.

(** Modelled from the spec: [Tx::PrehistoricTID] is the sentinel origin
    transaction of entries created outside any transaction; its declaration
    is not part of these sources. *)
Definition PrehistoricTID : TransactionID := mkTID 1 1 0.

(** Modelled from the spec: [TransactionID::isPrehistoric] is declared outside
    these sources; a tid is prehistoric when it is that sentinel. *)
Definition isPrehistoric (tid : TransactionID) : bool :=
  bool_decide (tid = PrehistoricTID).

(** A part as the functions below see it. [removal_tid_lock] is the hash of
    the transaction locking the part for removal, 0 when unlocked. *)
Record DataPart := mkPart {
  name : string;
  info : MergeTreePartInfo.t;
  state : MergeTreeDataPartState;
  bytes_on_disk : Z;
  removal_tid_lock : Z;
}.

(** ** Mutation commands and entries *)

Module MutationCommand.
Inductive Type_ : Set :=
| DELETE | UPDATE | MATERIALIZE_TTL
| DROP_COLUMN | DROP_INDEX | DROP_PROJECTION | DROP_STATISTICS
| RENAME_COLUMN.

#[global] Instance Type_eq_dec : EqDecision Type_.
Proof. solve_decision. Defined.

(** [ast_size] is [command.ast->size()]. *)
Record t := mk {
  type : Type_;
  ast_size : Z;
}.

#[global] Instance eq_dec : EqDecision t.
Proof. solve_decision. Defined.

(** The five command kinds singled out at lines 1400-1404 of
    [selectPartsToMutate]: they are not sent to the interpreter for size
    validation. *)
Definition skipsSizeValidation (c : t) : bool :=
  match type c with
  | DROP_COLUMN | DROP_INDEX | DROP_PROJECTION | DROP_STATISTICS
  | RENAME_COLUMN => true
  | _ => false
  end.

(** Modelled from the spec: [isBarrierCommand] is declared outside these
    sources; a barrier command is DROP-COLUMN/INDEX/PROJECTION/STATISTICS
    or RENAME-COLUMN. *)
Definition isBarrierCommand (c : t) : bool :=
  match type c with
  | DROP_COLUMN | DROP_INDEX | DROP_PROJECTION | DROP_STATISTICS
  | RENAME_COLUMN => true
  | _ => false
  end.
End MutationCommand.

Definition MutationCommands := list MutationCommand.t.

(** Modelled from the spec: [MutationCommands::containBarrierCommand] is
    declared outside these sources; the batch holds a barrier command. *)
Definition containBarrierCommand (cs : MutationCommands) : bool :=
  existsb MutationCommand.isBarrierCommand cs.

Record MergeTreeMutationEntry := mkEntry {
  commands : MutationCommands;
  tid : TransactionID;
  csn : Z;
  block_number : Z;
  file_name : string;
  create_time : Z;
  is_done : bool;
  latest_failed_part : string;
  latest_failed_part_info : MergeTreePartInfo.t;
  latest_fail_time : Z;
  latest_fail_reason : string;
  latest_fail_error_code_name : string;
}.

(** The three assignments of the [catch] block in [selectPartsToMutate]. *)
Definition set_size_validation_failure (now : Z) (e : CaughtException)
    (entry : MergeTreeMutationEntry) : MergeTreeMutationEntry :=
  {| commands := commands entry; tid := tid entry; csn := csn entry;
     block_number := block_number entry; file_name := file_name entry;
     create_time := create_time entry; is_done := is_done entry;
     latest_failed_part := latest_failed_part entry;
     latest_failed_part_info := latest_failed_part_info entry;
     latest_fail_time := now;
     latest_fail_reason := exception_message e;
     latest_fail_error_code_name := exception_code_name e |}.

(** The five assignments of the success branch of
    [updateMutationEntriesErrors]. *)
Definition clear_latest_fail (entry : MergeTreeMutationEntry)
    : MergeTreeMutationEntry :=
  {| commands := commands entry; tid := tid entry; csn := csn entry;
     block_number := block_number entry; file_name := file_name entry;
     create_time := create_time entry; is_done := is_done entry;
     latest_failed_part := "";
     latest_failed_part_info := MergeTreePartInfo.default;
     latest_fail_time := 0;
     latest_fail_reason := "";
     latest_fail_error_code_name := "" |}.

(** The five assignments of the failure branch of
    [updateMutationEntriesErrors]. *)
Definition set_latest_fail (failed_part : DataPart) (now : Z)
    (exception_message error_code_name : string)
    (entry : MergeTreeMutationEntry) : MergeTreeMutationEntry :=
  {| commands := commands entry; tid := tid entry; csn := csn entry;
     block_number := block_number entry; file_name := file_name entry;
     create_time := create_time entry; is_done := is_done entry;
     latest_failed_part := name failed_part;
     latest_failed_part_info := info failed_part;
     latest_fail_time := now;
     latest_fail_reason := exception_message;
     latest_fail_error_code_name := error_code_name |}.

Definition set_is_done (entry : MergeTreeMutationEntry)
    : MergeTreeMutationEntry :=
  {| commands := commands entry; tid := tid entry; csn := csn entry;
     block_number := block_number entry; file_name := file_name entry;
     create_time := create_time entry; is_done := true;
     latest_failed_part := latest_failed_part entry;
     latest_failed_part_info := latest_failed_part_info entry;
     latest_fail_time := latest_fail_time entry;
     latest_fail_reason := latest_fail_reason entry;
     latest_fail_error_code_name := latest_fail_error_code_name entry |}.

(** ** [current_mutations_by_version]: an ordered map

    The list is the map in iteration order. [sorted_keys] is the invariant
    [std::map] maintains: strictly ascending keys. *)

Definition MutationsMap := list (Z * MergeTreeMutationEntry).

Definition keys (m : MutationsMap) : list Z := m.*1.

Fixpoint sorted_keys (m : MutationsMap) : Prop :=
  match m with
  | [] => True
  | (k, _) :: m' => Forall (fun kv => k < kv.1) m' /\ sorted_keys m'
  end.

(** Position of the first key greater than [k] ([end()] when none). *)
Fixpoint upper_bound (k : Z) (m : MutationsMap) : nat :=
  match m with
  | [] => 0%nat
  | (k', _) :: m' => if k <? k' then 0%nat else S (upper_bound k m')
  end.

(** [find]: the position of key [k]. *)
Fixpoint find_version (k : Z) (m : MutationsMap) : option nat :=
  match m with
  | [] => None
  | (k', _) :: m' =>
      if k' =? k then Some 0%nat else S <$> find_version k m'
  end.

(** [try_emplace]: insert at the sorted position unless the key exists. *)
Fixpoint try_emplace (k : Z) (e : MergeTreeMutationEntry) (m : MutationsMap)
    : MutationsMap * bool :=
  match m with
  | [] => ([(k, e)], true)
  | (k', e') :: m' =>
      if k <? k' then ((k, e) :: m, true)
      else if k =? k' then (m, false)
      else let '(m'', inserted) := try_emplace k e m' in
           ((k', e') :: m'', inserted)
  end.

(** [rbegin()->first] of a non-empty map. *)
Definition last_key (m : MutationsMap) : option Z := fst <$> last m.

(** [it->second] at position [i] replaced by [f (it->second)]. *)
Definition update_at (i : nat) (f : MergeTreeMutationEntry -> MergeTreeMutationEntry)
    (m : MutationsMap) : MutationsMap :=
  alter (fun kv => (kv.1, f kv.2)) i m.

(** ** Failure and backoff controller *)

Module PartMutationBackoffPolicy.
Record PartMutationInfo := mkInfo {
  fail_count : Z;
  next_allowed_time : Z;
}.

#[global] Instance PartMutationInfo_eq_dec : EqDecision PartMutationInfo.
Proof. solve_decision. Defined.

Section Policy.
(** The base delay of the exponential backoff. *)
Variable base : Z.

(** Modelled from the spec: [PartMutationBackoffPolicy] is declared
    outside these sources. It is a per-part failure map
    part-name -> (fail-count, next-allowed-time); on a mutation failure
    next-allowed-time = now + min(base * 2^fail-count,
    max_postpone_time_for_failed_mutations_ms). *)
Definition addPartMutationFailure (now : Z) (part_name : string)
    (max_postpone_time_ms : Z) (failed : gmap string PartMutationInfo)
    : gmap string PartMutationInfo :=
  let n := match failed !! part_name with
           | Some i => fail_count i
           | None => 0
           end in
  <[part_name := mkInfo (n + 1)
                   (now + Z.min (base * 2 ^ n) max_postpone_time_ms)]> failed.
End Policy.

(** Modelled from the spec: on success the entries for that part are
    cleared. *)
Definition removePartFromFailed (part_name : string)
    (failed : gmap string PartMutationInfo) : gmap string PartMutationInfo :=
  delete part_name failed.

(** Modelled from the spec: [resetMutationFailures] forgets every recorded
    failure. *)
Definition resetMutationFailures (failed : gmap string PartMutationInfo)
    : gmap string PartMutationInfo := ∅.

(** Modelled from the spec: the selector honors next-allowed-time. *)
Definition partCanBeMutated (now : Z) (part_name : string)
    (failed : gmap string PartMutationInfo) : bool :=
  match failed !! part_name with
  | Some i => next_allowed_time i <=? now
  | None => true
  end.
End PartMutationBackoffPolicy.

Abbreviation PartMutationInfo := PartMutationBackoffPolicy.PartMutationInfo.

(** ** Committing blocks *)

Module CommittingBlock.
Inductive Op : Set := NewPart | Mutation | Update.

#[global] Instance Op_eq_dec : EqDecision Op.
Proof. solve_decision. Defined.

Record t := mk {
  op : Op;
  number : Z;
}.

#[global] Instance eq_dec : EqDecision t.
Proof. solve_decision. Defined.
End CommittingBlock.

(** Modelled from the spec: [CommittingBlocksSet] is declared outside these
    sources; committing blocks are stored in a sorted set. The list is the
    set in iteration order, ascending in [number]. *)
Definition CommittingBlocksSet := list CommittingBlock.t.

Fixpoint sorted_blocks (s : CommittingBlocksSet) : Prop :=
  match s with
  | [] => True
  | b :: s' =>
      Forall (fun b' => CommittingBlock.number b < CommittingBlock.number b') s'
      /\ sorted_blocks s'
  end.

(** [committing_blocks.insert(block)] *)
Fixpoint insert_block (b : CommittingBlock.t) (s : CommittingBlocksSet)
    : CommittingBlocksSet :=
  match s with
  | [] => [b]
  | b' :: s' =>
      if CommittingBlock.number b <? CommittingBlock.number b' then b :: s
      else if CommittingBlock.number b =? CommittingBlock.number b' then s
      else b' :: insert_block b s'
  end.

(** [committing_blocks.erase(block)] *)
Fixpoint erase_block (b : CommittingBlock.t) (s : CommittingBlocksSet)
    : CommittingBlocksSet :=
  match s with
  | [] => []
  | b' :: s' =>
      if CommittingBlock.number b =? CommittingBlock.number b' then s'
      else b' :: erase_block b s'
  end.

(** ** Calls into collaborators, in program order (newest first) *)

Inductive Effect : Type :=
| IncrementMutationsCounters (cs : MutationCommands)
| DecrementMutationsCounters (cs : MutationCommands)
| RollbackTransaction (t : TransactionID)
| CancelPartMutations (mutation_version : Z)
| RemoveFile (file : string)
| WriteCSN (file : string) (c : Z)
| NotifyMutationWait
| NotifyCommittingBlocks
| TriggerBackgroundOperations
| ClearOldPartsFromFilesystem.

(** ** The storage object *)

Record StorageMergeTree := mkStorage {
  is_static_storage : bool;
  data_parts_by_info : list DataPart;
  currently_merging_mutating_parts : gset string;
  current_mutations_by_version : MutationsMap;
  mutation_backoff_policy : gmap string PartMutationInfo;
  increment : Z;
  committing_blocks : CommittingBlocksSet;
  effects : list Effect;
}.

Definition with_mutations (m : MutationsMap) (s : StorageMergeTree) :=
  mkStorage (is_static_storage s) (data_parts_by_info s)
    (currently_merging_mutating_parts s) m (mutation_backoff_policy s)
    (increment s) (committing_blocks s) (effects s).

Definition with_backoff (b : gmap string PartMutationInfo) (s : StorageMergeTree) :=
  mkStorage (is_static_storage s) (data_parts_by_info s)
    (currently_merging_mutating_parts s) (current_mutations_by_version s) b
    (increment s) (committing_blocks s) (effects s).

Definition with_busy (t : gset string) (s : StorageMergeTree) :=
  mkStorage (is_static_storage s) (data_parts_by_info s) t
    (current_mutations_by_version s) (mutation_backoff_policy s)
    (increment s) (committing_blocks s) (effects s).

Definition with_parts (ps : list DataPart) (s : StorageMergeTree) :=
  mkStorage (is_static_storage s) ps (currently_merging_mutating_parts s)
    (current_mutations_by_version s) (mutation_backoff_policy s)
    (increment s) (committing_blocks s) (effects s).

Definition with_increment (v : Z) (s : StorageMergeTree) :=
  mkStorage (is_static_storage s) (data_parts_by_info s)
    (currently_merging_mutating_parts s) (current_mutations_by_version s)
    (mutation_backoff_policy s) v (committing_blocks s) (effects s).

Definition with_committing (c : CommittingBlocksSet) (s : StorageMergeTree) :=
  mkStorage (is_static_storage s) (data_parts_by_info s)
    (currently_merging_mutating_parts s) (current_mutations_by_version s)
    (mutation_backoff_policy s) (increment s) c (effects s).

Definition emit (e : Effect) (s : StorageMergeTree) :=
  mkStorage (is_static_storage s) (data_parts_by_info s)
    (currently_merging_mutating_parts s) (current_mutations_by_version s)
    (mutation_backoff_policy s) (increment s) (committing_blocks s)
    (e :: effects s).

(** Modelled from the spec: [MergeTreeData::getDataPartsVectorForInternalUsage]
    is declared outside these sources; it enumerates the Active parts in
    part-info order. *)
Definition getDataPartsVectorForInternalUsage (s : StorageMergeTree)
    : list DataPart :=
  List.filter (fun p => bool_decide (state p = Active)) (data_parts_by_info s).

(** Modelled from the spec: [MergeTreeData::getMaxBlockNumber] is declared
    outside these sources; it is the maximum block number of the loaded
    parts, 0 for an empty table. *)
Definition getMaxBlockNumber (s : StorageMergeTree) : Z :=
  foldr (fun p acc => Z.max (MergeTreePartInfo.max_block (info p)) acc) 0
    (data_parts_by_info s).

(** Modelled from the spec: [MergeTreeData::getMinPartDataVersion] is declared
    outside these sources; it is min(data-version over all parts), nothing
    for an empty table. *)
Definition getMinPartDataVersion (s : StorageMergeTree) : option Z :=
  foldr (fun p acc =>
           let v := MergeTreePartInfo.getDataVersion (info p) in
           Some (match acc with Some a => Z.min v a | None => v end))
    None (data_parts_by_info s).

(** ** Block-number allocator *)

(** Modelled from the spec: [SimpleIncrement] is declared outside these
    sources; [get] returns the next integer of the counter. The counter is
    an unsigned 64-bit atomic. *)
Definition increment_get (s : StorageMergeTree) : Z * StorageMergeTree :=
  let v := to_UInt64 (increment s + 1) in
  (v, with_increment v s).

Definition increment_set (v : Z) (s : StorageMergeTree) : StorageMergeTree :=
  with_increment (to_UInt64 v) s.

Definition allocateBlockNumber (op : CommittingBlock.Op) (s : StorageMergeTree)
    : CommittingBlock.t * StorageMergeTree :=
  let '(v, s1) := increment_get s in
  let block := CommittingBlock.mk op (to_Int64 v) in
  (block, with_committing (insert_block block (committing_blocks s1)) s1).

Definition removeCommittingBlock (block : CommittingBlock.t)
    (s : StorageMergeTree) : StorageMergeTree :=
  emit NotifyCommittingBlocks
    (with_committing (erase_block block (committing_blocks s)) s).

(** The lambda [all_committed] of [waitForCommittingInsertsAndMutations]:
    the [for] loop over the set, with its [break] and its [return false]. *)
Fixpoint all_committed (max_block_number : Z) (blocks : CommittingBlocksSet)
    : bool :=
  match blocks with
  | [] => true
  | block :: rest =>
      if max_block_number <=? CommittingBlock.number block then true
      else if negb (bool_decide (CommittingBlock.op block = CommittingBlock.Update))
           then false
           else all_committed max_block_number rest
  end.

(** [std::condition_variable::wait_for(lock, timeout, pred)]: the predicate
    is evaluated on entry and after every wake-up; the call returns [true]
    as soon as it holds and returns [pred()] when the timeout expires.
    [snapshots] are the states of the guarded data seen at entry and at each
    wake-up before the deadline, [at_timeout] the state seen when the
    deadline passes. *)
Fixpoint wait_for {S : Type} (pred : S -> bool) (snapshots : list S)
    (at_timeout : S) : bool :=
  match snapshots with
  | [] => pred at_timeout
  | s :: later => if pred s then true else wait_for pred later at_timeout
  end.

Definition waitForCommittingInsertsAndMutations (max_block_number : Z)
    (snapshots : list CommittingBlocksSet) (at_timeout : CommittingBlocksSet)
    : Result unit :=
  let res := wait_for (all_committed max_block_number) snapshots at_timeout in
  if negb res then Throw ErrorCodes.TIMEOUT_EXCEEDED else Return tt.

(** ** Mutation selection *)

(** [container.empty()] *)
Definition is_empty {A} (l : list A) : bool :=
  match l with [] => true | _ => false end.

(** What [selectPartsToMutate] hands to the mutate task. The name, format
    and uuid of the future part are derived by helpers outside these sources
    and carry no information beyond [part_info]. *)
Record FutureMergedMutatedPart := mkFuturePart {
  parts : list DataPart;
  part_info : MergeTreePartInfo.t;
}.

Record MergeMutateSelectedEntry := mkSelected {
  future_part : FutureMergedMutatedPart;
  selected_commands : MutationCommands;
  txn : option TransactionID;
}.

(** The values of the locals [commands], [current_ast_elements] and
    [last_mutation_to_apply] when the squash loop is left, and the entry
    whose size validation threw, if any. [last_mutation_to_apply] is an
    iterator: a position, [mutations_end_it] being the size of the map. *)
Record SquashResult := mkSquash {
  sq_commands : MutationCommands;
  sq_current_ast_elements : Z;
  sq_last_mutation_to_apply : nat;
  sq_failed : option (nat * CaughtException);
}.

(** [new_part_info = part->info; new_part_info.mutation = v] *)
Definition with_mutation (v : Z) (i : MergeTreePartInfo.t) : MergeTreePartInfo.t :=
  MergeTreePartInfo.mk (MergeTreePartInfo.partition_id i)
    (MergeTreePartInfo.min_block i) (MergeTreePartInfo.max_block i)
    (MergeTreePartInfo.level i) v.

Section MutationSelection.
(** [MutationsInterpreter(...).evaluateCommandsSize()], which may throw. *)
Variable evaluateCommandsSize : MutationCommands -> Expected Z.
(** [part->version.isVisible(csn, tid)] *)
Variable isVisible : DataPart -> Z -> TransactionID -> bool.
(** [TransactionLog::instance().tryGetRunningTransaction(tid.getHash())] *)
Variable tryGetRunningTransaction : TransactionID -> bool.
(** [tryReserveSpace(estimateNeededDiskSpace({part}), storage of part)] *)
Variable tryReserveSpace : DataPart -> bool.
(** [time(nullptr)] *)
Variable now : Z.
(** [CompactionStatistics::getMaxSourcePartSizeForMutation] *)
Variable max_source_part_size : Z.
(** [Setting::max_expanded_ast_elements] *)
Variable max_ast_elements : Z.

(** [tryGetTransactionForMutation] (lines 132-146). *)
Definition tryGetTransactionForMutation (mutation : MergeTreeMutationEntry)
    : option TransactionID :=
  if isPrehistoric (tid mutation) then None
  else if tryGetRunningTransaction (tid mutation) then Some (tid mutation)
  else None.

(** Lines 1396-1436: the value of [commands_size] for one entry, or the
    exception thrown by the size validation. *)
Definition commands_size_of (entry : MergeTreeMutationEntry) : Expected Z :=
  let commands_size :=
    foldl (fun acc command =>
             if MutationCommand.skipsSizeValidation command
             then to_UInt64 (acc + MutationCommand.ast_size command)
             else acc) 0 (commands entry) in
  let commands_for_size_validation :=
    List.filter (fun command => negb (MutationCommand.skipsSizeValidation command))
      (commands entry) in
  if negb (is_empty commands_for_size_validation) then
    match evaluateCommandsSize commands_for_size_validation with
    | Value n => Value (to_UInt64 (commands_size + n))
    | Raised e => Raised e
    end
  else Value commands_size.

(** Lines 1390-1456: [for (auto it = mutations_begin_it; it != mutations_end_it; ++it)].
    [rest] is the map from [it] on. *)
Fixpoint squash (first_mutation_tid : TransactionID) (it : nat)
    (rest : MutationsMap) (cmds : MutationCommands)
    (current_ast_elements : Z) (last_mutation_to_apply : nat)
    : SquashResult :=
  match rest with
  | [] => mkSquash cmds current_ast_elements last_mutation_to_apply None
  | (_, entry) :: rest' =>
      if negb (bool_decide (first_mutation_tid = tid entry)) then
        mkSquash cmds current_ast_elements last_mutation_to_apply None
      else
        match commands_size_of entry with
        | Raised e =>
            mkSquash cmds current_ast_elements last_mutation_to_apply
              (Some (it, e))
        | Value commands_size =>
            if max_ast_elements <=? to_UInt64 (current_ast_elements + commands_size)
            then mkSquash cmds current_ast_elements last_mutation_to_apply None
            else if containBarrierCommand (commands entry) then
              if is_empty cmds
              then mkSquash (cmds ++ commands entry) current_ast_elements it None
              else mkSquash cmds current_ast_elements last_mutation_to_apply None
            else
              squash first_mutation_tid (S it) rest' (cmds ++ commands entry)
                (to_UInt64 (current_ast_elements + commands_size)) it
        end
  end.

(** The side effect of the [catch] block on the map. *)
Definition record_size_validation_failure (r : SquashResult)
    (m : MutationsMap) : MutationsMap :=
  match sq_failed r with
  | Some (it, e) => update_at it (set_size_validation_failure now e) m
  | None => m
  end.

(** [CurrentlyMergingPartsTagger] constructed with [is_mutation = true]
    (lines 501-558) for a future part with one source part. *)
Definition tag_for_mutation (part : DataPart) (s : StorageMergeTree)
    : Result StorageMergeTree :=
  if negb (tryReserveSpace part) then Throw ErrorCodes.NOT_ENOUGH_SPACE
  else if bool_decide (name part ∈ currently_merging_mutating_parts s)
  then Throw ErrorCodes.LOGICAL_ERROR
  else Return (with_busy ({[name part]} ∪ currently_merging_mutating_parts s) s).

(** Lines 1339-1472: the loop over the parts. The storage is returned as
    well, since entries marked by the [catch] block stay marked whatever
    the outcome. [upper_bound] takes the [Int64] data version of the part
    converted to the [UInt64] key type of the map. *)
Fixpoint select_in_parts (ps : list DataPart) (s : StorageMergeTree)
    : Result (option MergeMutateSelectedEntry) * StorageMergeTree :=
  match ps with
  | [] => (Return None, s)
  | part :: ps' =>
      let m := current_mutations_by_version s in
      let mutations_end_it := length m in
      if bool_decide (name part ∈ currently_merging_mutating_parts s)
      then select_in_parts ps' s
      else
        let mutations_begin_it :=
          upper_bound (to_UInt64 (MergeTreePartInfo.getDataVersion (info part))) m in
        match drop mutations_begin_it m with
        | [] => select_in_parts ps' s
        | (_, first_mutation) :: _ =>
            if max_source_part_size <? bytes_on_disk part
            then select_in_parts ps' s
            else
              let first_mutation_tid := tid first_mutation in
              if negb (PartMutationBackoffPolicy.partCanBeMutated now
                         (name part) (mutation_backoff_policy s))
              then select_in_parts ps' s
              else if negb (isPrehistoric first_mutation_tid)
                           && negb (isVisible part (start_csn first_mutation_tid)
                                      first_mutation_tid)
              then select_in_parts ps' s
              else if negb (isPrehistoric first_mutation_tid)
                           && negb (bool_decide
                                      (is_Some (tryGetTransactionForMutation first_mutation)))
              then (Throw ErrorCodes.LOGICAL_ERROR, s)
              else
                let r := squash first_mutation_tid mutations_begin_it
                           (drop mutations_begin_it m) [] 0 mutations_end_it in
                let s1 := with_mutations (record_size_validation_failure r m) s in
                if negb (is_empty (sq_commands r)) then
                  match fst <$> m !! sq_last_mutation_to_apply r with
                  | None =>
                      (* excluded by the assert of line 1458 *)
                      (Throw ErrorCodes.LOGICAL_ERROR, s1)
                  | Some version =>
                      (* the key is assigned to the Int64 field [mutation] *)
                      let new_part_info :=
                        with_mutation (to_Int64 version) (info part) in
                      match tag_for_mutation part s1 with
                      | Throw c => (Throw c, s1)
                      | Return s2 =>
                          (Return (Some (mkSelected
                                           (mkFuturePart [part] new_part_info)
                                           (sq_commands r)
                                           (tryGetTransactionForMutation first_mutation))),
                           s2)
                      end
                  end
                else select_in_parts ps' s1
        end
  end.

Definition selectPartsToMutate (s : StorageMergeTree)
    : Result (option MergeMutateSelectedEntry) * StorageMergeTree :=
  if is_empty (current_mutations_by_version s) then (Return None, s)
  else if max_source_part_size =? 0 then (Return None, s)
  else select_in_parts (getDataPartsVectorForInternalUsage s) s.
End MutationSelection.

(** ** Recording the outcome of a mutation *)

(** What can go wrong below the level of [Exception]: [parts.at(0)] on an
    empty vector, and an iterator incremented past [end()]. *)
Inductive Fault : Set := OutOfRange | PastTheEnd.

Inductive Outcome (A : Type) : Type :=
| Completed (a : A)
| Faulted (f : Fault).
Arguments Completed {A} a.
Arguments Faulted {A} f.

Section UpdateMutationEntriesErrors.
(** The base delay of the backoff policy. *)
Variable backoff_base : Z.
(** [time(nullptr)] *)
Variable now : Z.
(** [MergeTreeSetting::max_postpone_time_for_failed_mutations_ms] *)
Variable max_postpone_time_for_failed_mutations_ms : Z.

(** Lines 629-655: the body of the loop for the entry at [it->first = version]. *)
Definition update_entry (result_part : FutureMergedMutatedPart)
    (failed_part : DataPart) (is_successful : bool)
    (exception_message error_code_name : string)
    (version : Z) (entry : MergeTreeMutationEntry)
    (backoff : gmap string PartMutationInfo)
    : MergeTreeMutationEntry * gmap string PartMutationInfo :=
  if is_successful then
    if negb (bool_decide (latest_failed_part entry = ""))
       && MergeTreePartInfo.contains (part_info result_part)
            (latest_failed_part_info entry)
    then
      (clear_latest_fail entry,
       if to_UInt64 (MergeTreePartInfo.mutation (part_info result_part)) =? version
       then PartMutationBackoffPolicy.removePartFromFailed (name failed_part) backoff
       else backoff)
    else (entry, backoff)
  else
    (set_latest_fail failed_part now exception_message error_code_name entry,
     if to_UInt64 (MergeTreePartInfo.mutation (part_info result_part)) =? version
     then PartMutationBackoffPolicy.addPartMutationFailure backoff_base now
            (name failed_part) max_postpone_time_for_failed_mutations_ms backoff
     else backoff).

(** Line 627: [for (auto it = mutations_begin_it; it != mutations_end_it; ++it)].
    [rest] is the map from [it] on; the result is [rest] after the loop. *)
Fixpoint update_entries (result_part : FutureMergedMutatedPart)
    (failed_part : DataPart) (is_successful : bool)
    (exception_message error_code_name : string)
    (it mutations_end_it : nat) (rest : MutationsMap)
    (backoff : gmap string PartMutationInfo)
    : option (MutationsMap * gmap string PartMutationInfo) :=
  if bool_decide (it = mutations_end_it) then Some (rest, backoff)
  else
    match rest with
    | [] => None
    | (version, entry) :: rest' =>
        let '(entry', backoff') :=
          update_entry result_part failed_part is_successful
            exception_message error_code_name version entry backoff in
        match update_entries result_part failed_part is_successful
                exception_message error_code_name (S it) mutations_end_it
                rest' backoff' with
        | Some (rest'', backoff'') => Some ((version, entry') :: rest'', backoff'')
        | None => None
        end
    end.

Definition updateMutationEntriesErrors (result_part : FutureMergedMutatedPart)
    (is_successful : bool) (exception_message error_code_name : string)
    (s : StorageMergeTree) : Outcome StorageMergeTree :=
  match parts result_part with
  | [] => Faulted OutOfRange
  | failed_part :: _ =>
      let sources_data_version := MergeTreePartInfo.getDataVersion (info failed_part) in
      let result_data_version := MergeTreePartInfo.getDataVersion (part_info result_part) in
      if negb (sources_data_version =? result_data_version) then
        let m := current_mutations_by_version s in
        let mutations_begin_it := upper_bound sources_data_version m in
        let mutations_end_it := upper_bound result_data_version m in
        match update_entries result_part failed_part is_successful
                exception_message error_code_name
                mutations_begin_it mutations_end_it
                (drop mutations_begin_it m) (mutation_backoff_policy s) with
        | None => Faulted PastTheEnd
        | Some (rest, backoff) =>
            Completed
              (emit NotifyMutationWait
                 (with_backoff backoff
                    (with_mutations (take mutations_begin_it m ++ rest) s)))
        end
      else Completed (emit NotifyMutationWait s)
  end.
End UpdateMutationEntriesErrors.

(** ** Mutation file names *)

Fixpoint strip_prefix (p s : string) : option string :=
  match p with
  | EmptyString => Some s
  | String a p' =>
      match s with
      | String b s' => if Ascii.eqb a b then strip_prefix p' s' else None
      | EmptyString => None
      end
  end.

Definition digit_of (c : Ascii.ascii) : option Z :=
  let n := Z.of_N (Ascii.N_of_ascii c) in
  if (48 <=? n) && (n <=? 57) then Some (n - 48) else None.

(** Reads the longest run of decimal digits; [None] when it is empty. *)
Fixpoint read_digits (s : string) (acc : option Z) : option Z * string :=
  match s with
  | EmptyString => (acc, s)
  | String c s' =>
      match digit_of c with
      | Some d => read_digits s' (Some (10 * default 0 acc + d))
      | None => (acc, s)
      end
  end.

(** Modelled from the spec: [MergeTreeMutationEntry::tryParseFileName] is
    declared outside these sources; an entry is persisted as one file named
    [mutation_<version>.txt], the version being a 64-bit signed integer. The
    result is 0 when the name is not of that form. *)
Definition tryParseFileName (file_name_ : string) : Z :=
  match strip_prefix "mutation_" file_name_ with
  | None => 0
  | Some rest =>
      match read_digits rest None with
      | (Some v, suffix) =>
          if bool_decide (suffix = ".txt") && (v <=? Int64_max) then v else 0
      | (None, _) => 0
      end
  end.

(** ** Killing a mutation *)

(** The two codes [killMutation] returns. *)
Inductive CancellationCode : Set := NotFound | CancelSent.

Section KillMutation.
(** [TransactionLog::instance().tryGetRunningTransaction(tid.getHash())] *)
Variable tryGetRunningTransaction : TransactionID -> bool.

(** Lines 986-999: the block guarded by
    [currently_processing_in_background_mutex]. *)
Definition take_mutation_to_kill (mutation_version : Z) (s : StorageMergeTree)
    : option MergeTreeMutationEntry * StorageMergeTree :=
  let m := current_mutations_by_version s in
  match find_version mutation_version m with
  | Some it =>
      match m !! it with
      | Some (_, entry) =>
          let s1 := if negb (is_done entry)
                    then emit (DecrementMutationsCounters (commands entry)) s
                    else s in
          (Some entry, with_mutations (delete it m) s1)
      | None => (None, s)
      end
  | None => (None, s)
  end.

Definition killMutation (mutation_id : string) (s : StorageMergeTree)
    : Result CancellationCode * StorageMergeTree :=
  if is_static_storage s then (Throw ErrorCodes.TABLE_IS_READ_ONLY, s)
  else
    let mutation_version := to_UInt64 (tryParseFileName mutation_id) in
    if mutation_version =? 0 then (Return NotFound, s)
    else
      let '(to_kill, s1) := take_mutation_to_kill mutation_version s in
      let s2 := with_backoff
                  (PartMutationBackoffPolicy.resetMutationFailures
                     (mutation_backoff_policy s1)) s1 in
      match to_kill with
      | None => (Return NotFound, s2)
      | Some entry =>
          let s3 := match tryGetTransactionForMutation tryGetRunningTransaction entry with
                    | Some txn => emit (RollbackTransaction txn) s2
                    | None => s2
                    end in
          let s4 := emit (CancelPartMutations (block_number entry)) s3 in
          let s5 := emit (RemoveFile (file_name entry)) s4 in
          let s6 := emit NotifyMutationWait s5 in
          let s7 := emit TriggerBackgroundOperations s6 in
          (Return CancelSent, s7)
      end.
End KillMutation.

(** ** Status of one mutation *)

Module MergeTreeMutationStatus.
Record t := mk {
  is_done : bool;
  latest_failed_part : string;
  latest_fail_time : Z;
  latest_fail_reason : string;
  latest_fail_error_code_name : string;
}.

(** [MergeTreeMutationStatus result{.is_done = false}] *)
Definition not_done : t := mk false "" 0 "" "".
End MergeTreeMutationStatus.

Section MutationStatus.
Variable tryGetRunningTransaction : TransactionID -> bool.
(** [getVisibleDataPartsVector(txn)] *)
Variable getVisibleDataPartsVector : option TransactionID -> list DataPart.
(** [tid.getHash()] *)
Variable getHash : TransactionID -> Z.
(** [time(nullptr)] *)
Variable now : Z.

(** Lines 876-879: file names of the entries that failed with [reason]. *)
Definition same_failure (reason : string) (rest : MutationsMap) : list string :=
  file_name <$>
    List.filter (fun e => bool_decide (latest_fail_reason e = reason)) rest.*2.

(** Lines 858-900: the loop over the visible parts and what follows it. *)
Fixpoint status_over_parts (mutation_version : Z)
    (mutation_entry : MergeTreeMutationEntry) (txn : option TransactionID)
    (want_mutation_ids from_another_mutation : bool) (m : MutationsMap)
    (data_parts : list DataPart) : MergeTreeMutationStatus.t * list string :=
  match data_parts with
  | [] => (MergeTreeMutationStatus.mk true "" 0 "" "", [])
  | data_part :: data_parts' =>
      let data_version := MergeTreePartInfo.getDataVersion (info data_part) in
      if data_version <? mutation_version then
        if negb (bool_decide (latest_fail_reason mutation_entry = "")) then
          (MergeTreeMutationStatus.mk false
             (latest_failed_part mutation_entry)
             (latest_fail_time mutation_entry)
             (latest_fail_reason mutation_entry)
             (latest_fail_error_code_name mutation_entry),
           if want_mutation_ids
           then same_failure (latest_fail_reason mutation_entry)
                  (drop (upper_bound (to_UInt64 data_version) m) m)
           else [])
        else if bool_decide (is_Some txn) && negb from_another_mutation then
          let part_locked := removal_tid_lock data_part in
          if negb (part_locked =? 0)
             && negb (part_locked =? getHash (tid mutation_entry))
          then
            (MergeTreeMutationStatus.mk false (name data_part) now
               ("Serialization error: part " +:+ name data_part
                  +:+ " is locked by transaction " +:+ pretty part_locked)
               "PART_IS_LOCKED", [])
          else (MergeTreeMutationStatus.not_done, [])
        else (MergeTreeMutationStatus.not_done, [])
      else
        status_over_parts mutation_version mutation_entry txn
          want_mutation_ids from_another_mutation m data_parts'
  end.

(** [None] is the empty optional: the mutation is not in the map (killed).
    [mutation_version] and the data versions of the parts are [Int64]: they
    are compared as such, and converted to the [UInt64] key type of the map
    where [find] and [upper_bound] take them. *)
Definition getIncompleteMutationsStatusUnlocked (mutation_version : Z)
    (want_mutation_ids from_another_mutation : bool) (s : StorageMergeTree)
    : option (MergeTreeMutationStatus.t * list string) :=
  let m := current_mutations_by_version s in
  match find_version (to_UInt64 mutation_version) m with
  | None => None
  | Some current_mutation_it =>
      match m !! current_mutation_it with
      | None => None
      | Some (_, mutation_entry) =>
          let txn := tryGetTransactionForMutation tryGetRunningTransaction
                       mutation_entry in
          Some (status_over_parts mutation_version mutation_entry txn
                  want_mutation_ids from_another_mutation m
                  (getVisibleDataPartsVector txn))
      end
  end.
End MutationStatus.

(** ** Startup: loading mutations and initialising the allocator *)

(** One directory entry under the table's data path. [parsed] is what the
    constructor [MergeTreeMutationEntry(disk, path, name)] reads from it. *)
Record DirectoryEntry := mkFile {
  file : string;
  parsed : MergeTreeMutationEntry;
}.

Definition startsWith (s prefix : string) : bool :=
  bool_decide (is_Some (strip_prefix prefix s)).

(** [entry.writeCSN(csn)] on the in-memory entry. *)
Definition with_csn (c : Z) (entry : MergeTreeMutationEntry)
    : MergeTreeMutationEntry :=
  {| commands := commands entry; tid := tid entry; csn := c;
     block_number := block_number entry; file_name := file_name entry;
     create_time := create_time entry; is_done := is_done entry;
     latest_failed_part := latest_failed_part entry;
     latest_failed_part_info := latest_failed_part_info entry;
     latest_fail_time := latest_fail_time entry;
     latest_fail_reason := latest_fail_reason entry;
     latest_fail_error_code_name := latest_fail_error_code_name entry |}.

Section LoadMutations.
(** [TransactionLog::getCSN(tid)], 0 when the transaction is not committed. *)
Variable getCSN : TransactionID -> Z.
(** [TransactionLog::assertTIDIsNotOutdated(tid)] *)
Variable assertTIDIsNotOutdated : TransactionID -> Result unit.

(** Lines 1074-1078. *)
Definition emplace_loaded (block_number : Z) (entry : MergeTreeMutationEntry)
    (s : StorageMergeTree) : Result StorageMergeTree :=
  let '(m, inserted) := try_emplace block_number entry (current_mutations_by_version s) in
  if negb inserted then Throw ErrorCodes.LOGICAL_ERROR
  else Return (emit (IncrementMutationsCounters (commands entry))
                 (with_mutations m s)).

(** Lines 1049-1084: the loop over one disk's directory. *)
Fixpoint load_directory (entries : list DirectoryEntry) (s : StorageMergeTree)
    : Result StorageMergeTree :=
  match entries with
  | [] => Return s
  | it :: entries' =>
      if startsWith (file it) "mutation_" then
        let entry := parsed it in
        let block_number := to_UInt64 (block_number entry) in
        if negb (isPrehistoric (tid entry)) && (csn entry =? 0) then
          let c := getCSN (tid entry) in
          if negb (c =? 0) then
            s1 <-! emplace_loaded block_number (with_csn c entry)
                     (emit (WriteCSN (file it) c) s);
            load_directory entries' s1
          else
            _ <-! assertTIDIsNotOutdated (tid entry);
            load_directory entries' (emit (RemoveFile (file it)) s)
        else
          s1 <-! emplace_loaded block_number entry s;
          load_directory entries' s1
      else if startsWith (file it) "tmp_mutation_" then
        load_directory entries' (emit (RemoveFile (file it)) s)
      else load_directory entries' s
  end.

(** Line 1047: [for (const auto & disk : getDisks())]. *)
Fixpoint load_disks (disks : list (list DirectoryEntry)) (s : StorageMergeTree)
    : Result StorageMergeTree :=
  match disks with
  | [] => Return s
  | disk :: disks' => s1 <-! load_directory disk s; load_disks disks' s1
  end.

Definition loadMutations (disks : list (list DirectoryEntry))
    (s : StorageMergeTree) : Result StorageMergeTree :=
  s1 <-! load_disks disks s;
  match last_key (current_mutations_by_version s1) with
  | Some v => Return (with_increment (Z.max (increment s1) v) s1)
  | None => Return s1
  end.

(** The constructor, lines 170-183. [loaded_parts] is the index left by
    [loadDataParts]; [mode_below_attach] is
    [mode < LoadingStrictnessLevel::ATTACH]. *)
Definition construct (mode_below_attach static : bool)
    (loaded_parts : list DataPart) (disks : list (list DirectoryEntry))
    : Result StorageMergeTree :=
  let s0 := mkStorage static loaded_parts ∅ [] ∅ 0 [] [] in
  if mode_below_attach
     && negb (is_empty (getDataPartsVectorForInternalUsage s0))
     && negb static
  then Throw ErrorCodes.INCORRECT_DATA
  else loadMutations disks (increment_set (getMaxBlockNumber s0) s0).
End LoadMutations.

(** Successive allocations, oldest first. *)
Fixpoint allocate_all (ops : list CommittingBlock.Op) (s : StorageMergeTree)
    : list CommittingBlock.t * StorageMergeTree :=
  match ops with
  | [] => ([], s)
  | op :: ops' =>
      let '(b, s1) := allocateBlockNumber op s in
      let '(bs, s2) := allocate_all ops' s1 in
      (b :: bs, s2)
  end.

(** ** Reclaiming finished mutations *)

Section ClearOldMutations.
Variable getCSN : TransactionID -> Z.
(** [MergeTreeSetting::finished_mutations_to_keep] *)
Variable finished_mutations_to_keep_setting : Z.

(** Lines 1666-1683: marks the leading prehistoric entries before [end_it]
    as done and counts them. The result is the map from [it] on after the
    loop, the counter updates in program order, and [done_count]. [end_it]
    is a position of the map, so the loop meets it before running off the
    end; the case of an exhausted map is there for totality only. *)
Fixpoint mark_done (it end_it : nat) (rest : MutationsMap)
    : MutationsMap * list Effect * Z :=
  if bool_decide (it = end_it) then (rest, [], 0)
  else
    match rest with
    | [] => (rest, [], 0)
    | (version, entry) :: rest' =>
        if negb (isPrehistoric (tid entry)) then (rest, [], 0)
        else
          let '(rest'', effs, done_count) := mark_done (S it) end_it rest' in
          if negb (is_done entry)
          then ((version, set_is_done entry) :: rest'',
                effs ++ [DecrementMutationsCounters (commands entry)],
                done_count + 1)
          else ((version, entry) :: rest'', effs, done_count + 1)
    end.

(** Lines 1690-1700: erases [to_delete_count] entries from the front; the
    map is returned as the loop leaves it, also when it throws. *)
Fixpoint delete_front (to_delete_count : nat) (m : MutationsMap)
    : Result (list MergeTreeMutationEntry) * MutationsMap :=
  match to_delete_count with
  | O => (Return [], m)
  | S n =>
      match m with
      | [] => (Throw ErrorCodes.LOGICAL_ERROR, m)
      | (_, entry) :: m' =>
          if negb (isPrehistoric (tid entry)) && (getCSN (tid entry) =? 0)
          then (Throw ErrorCodes.LOGICAL_ERROR, m)
          else
            match delete_front n m' with
            | (Return deleted, m'') => (Return (entry :: deleted), m'')
            | (Throw c, m'') => (Throw c, m'')
            end
      end
  end.

Definition clearOldMutations (truncate : bool) (s : StorageMergeTree)
    : Result Z * StorageMergeTree :=
  if negb truncate && (finished_mutations_to_keep_setting =? 0) then (Return 0, s)
  else
    let finished_mutations_to_keep :=
      if truncate then 0 else finished_mutations_to_keep_setting in
    let m := current_mutations_by_version s in
    let end_it := match getMinPartDataVersion s with
                  | Some min_version => upper_bound min_version m
                  | None => length m
                  end in
    let '(m1, effs, done_count) := mark_done 0 end_it m in
    let s1 := mkStorage (is_static_storage s) (data_parts_by_info s)
                (currently_merging_mutating_parts s) m1
                (mutation_backoff_policy s) (increment s)
                (committing_blocks s) (effs ++ effects s) in
    if done_count <=? finished_mutations_to_keep then (Return 0, s1)
    else
      let to_delete_count := done_count - finished_mutations_to_keep in
      match delete_front (Z.to_nat to_delete_count) m1 with
      | (Throw c, m2) => (Throw c, with_mutations m2 s1)
      | (Return mutations_to_delete, m2) =>
          let s2 := with_mutations m2 s1 in
          (Return (Z.of_nat (length mutations_to_delete)),
           foldl (fun acc mutation => emit (RemoveFile (file_name mutation)) acc)
             s2 mutations_to_delete)
      end.
End ClearOldMutations.

(** ** Levels between two parts *)

(** [data_parts_by_info.find(info)] *)
Fixpoint find_part (i : MergeTreePartInfo.t) (ps : list DataPart) : option nat :=
  match ps with
  | [] => None
  | p :: ps' => if bool_decide (info p = i) then Some 0%nat
                else S <$> find_part i ps'
  end.

(** Lines 1491-1497: [for (auto it = begin++; it != end; ++it)]. The
    post-increment hands the old [begin] to [it]. [rest] is the index from
    [it] on. *)
Fixpoint max_level_loop (it end_ : nat) (rest : list DataPart) (level : Z)
    : Result Z :=
  if bool_decide (it = end_) then Return level
  else
    match rest with
    | [] => Throw ErrorCodes.LOGICAL_ERROR
    | p :: rest' =>
        max_level_loop (S it) end_ rest'
          (Z.max level (MergeTreePartInfo.level (info p)))
    end.

Definition getMaxLevelInBetween (left right : MergeTreePartInfo.t)
    (s : StorageMergeTree) : Result Z :=
  match find_part left (data_parts_by_info s) with
  | None => Throw ErrorCodes.LOGICAL_ERROR
  | Some begin =>
      match find_part right (data_parts_by_info s) with
      | None => Throw ErrorCodes.LOGICAL_ERROR
      | Some end_ =>
          max_level_loop begin end_ (drop begin (data_parts_by_info s)) 0
      end
  end.

(** ** Merge selection: the background-memory gate *)

Module SelectMergeFailure.
Inductive Reason : Set := CANNOT_SELECT | NOTHING_TO_MERGE.
End SelectMergeFailure.

(** What the selection does that an observer can see, in program order
    (newest first). *)
Inductive SelectionEvent : Type :=
| MemoryCheck (ok : bool)
| SleepFor (milliseconds : Z)
| SelectWithoutHint
| SelectWithinPartition
| WaitForBackground (timed_out : bool).

Record SelectionState := mkSelection {
  memory_checks : nat;
  waits : nat;
  events : list SelectionEvent;
}.

Section SelectPartsToMerge.
(** [canEnqueueBackgroundTask()] at its n-th call (from 0). *)
Variable canEnqueueBackgroundTask : nat -> bool.
(** [CompactionStatistics::getMaxSourcePartsSizeForMerge] *)
Variable max_source_parts_size : Z.
(** [merger_mutator.selectPartsToMerge(...)] *)
Variable merger_selectPartsToMerge : SelectMergeFailure.Reason + list DataPart.
(** [merger_mutator.selectAllPartsToMergeWithinPartition(...)] at the n-th
    turn of the loop. *)
Variable selectAllPartsToMergeWithinPartition
  : nat -> SelectMergeFailure.Reason + list DataPart.
(** [constructFuturePart(...)] *)
Variable constructFuturePart : list DataPart -> option FutureMergedMutatedPart.
(** [lock_acquire_timeout_for_background_operations.totalMilliseconds()] *)
Variable timeout_ms : Z.
(** [!currently_merging_mutating_parts.empty()] at the n-th wait. *)
Variable parts_are_busy : nat -> bool.
(** Whether the n-th [wait_for] on the background condition times out. *)
Variable wait_times_out : nat -> bool.

Definition is_background_memory_usage_ok (st : SelectionState)
    : bool * SelectionState :=
  let ok := canEnqueueBackgroundTask (memory_checks st) in
  (ok, mkSelection (S (memory_checks st)) (waits st)
         (MemoryCheck ok :: events st)).

Definition sleep_for (milliseconds : Z) (st : SelectionState) : SelectionState :=
  mkSelection (memory_checks st) (waits st) (SleepFor milliseconds :: events st).

Definition log_event (e : SelectionEvent) (st : SelectionState) : SelectionState :=
  mkSelection (memory_checks st) (waits st) (e :: events st).

Definition construct_future_part (choice : list DataPart)
    : SelectMergeFailure.Reason + FutureMergedMutatedPart :=
  match constructFuturePart choice with
  | Some future_part => inr future_part
  | None => inl SelectMergeFailure.CANNOT_SELECT
  end.

(** Lines 1141-1172. *)
Definition select_without_hint (st : SelectionState)
    : (SelectMergeFailure.Reason + FutureMergedMutatedPart) * SelectionState :=
  let '(ok, st1) := is_background_memory_usage_ok st in
  if negb ok then (inl SelectMergeFailure.CANNOT_SELECT, st1)
  else if max_source_parts_size =? 0
  then (inl SelectMergeFailure.CANNOT_SELECT, st1)
  else
    (match merger_selectPartsToMerge with
     | inl failure => inl failure
     | inr choice => construct_future_part choice
     end, log_event SelectWithoutHint st1).

(** Lines 1186-1194: [for (Int64 i = 0; i < attempts; ++i)]. *)
Fixpoint poll_memory (attempts : nat) (st : SelectionState)
    : bool * SelectionState :=
  match attempts with
  | O => (false, st)
  | S attempts' =>
      let '(ok, st1) := is_background_memory_usage_ok (sleep_for 1000 st) in
      if ok then (true, st1) else poll_memory attempts' st1
  end.

(** Lines 1181-1200: the memory gate of one turn of the loop. [false]
    means the selection fails with [CANNOT_SELECT]. *)
Definition memory_gate (st : SelectionState) : bool * SelectionState :=
  let '(ok, st1) := is_background_memory_usage_ok st in
  if negb ok then
    let attempts := Z.quot timeout_ms 1000 in
    poll_memory (Z.to_nat attempts) st1
  else (true, st1).

(** Lines 1174-1232: [while (true)], at most [turns] turns of it; [None]
    when the loop is still running after that many turns. *)
Fixpoint select_in_partition (turns : nat) (final : bool) (turn : nat)
    (st : SelectionState)
    : option (SelectMergeFailure.Reason + FutureMergedMutatedPart) * SelectionState :=
  match turns with
  | O => (None, st)
  | S turns' =>
      let '(ok, st1) := memory_gate st in
      if negb ok then (Some (inl SelectMergeFailure.CANNOT_SELECT), st1)
      else
        let st2 := log_event SelectWithinPartition st1 in
        match selectAllPartsToMergeWithinPartition turn with
        | inl failure =>
            if final && parts_are_busy (waits st2) then
              let timed_out := wait_times_out (waits st2) in
              let st3 := mkSelection (memory_checks st2) (S (waits st2))
                           (WaitForBackground timed_out :: events st2) in
              if timed_out
              then (Some (inl SelectMergeFailure.CANNOT_SELECT), st3)
              else select_in_partition turns' final (S turn) st3
            else (Some (inl failure), st2)
        | inr choice => (Some (construct_future_part choice), st2)
        end
  end.

(** Lines 1246-1249, up to the construction of the selected entry. *)
Definition selectPartsToMerge (turns : nat) (partition_id : string)
    (final : bool) (st : SelectionState)
    : option (SelectMergeFailure.Reason + FutureMergedMutatedPart) * SelectionState :=
  if bool_decide (partition_id = "") then
    let '(r, st1) := select_without_hint st in (Some r, st1)
  else select_in_partition turns final 0 st.
End SelectPartsToMerge.

(** ** MOVE PARTITION TO TABLE *)

(** Modelled from the spec: [getVisibleDataPartsVectorInPartition] is declared
    outside these sources; it enumerates the visible (Active) parts of one
    partition. *)
Definition getVisibleDataPartsVectorInPartition (partition_id : string)
    (s : StorageMergeTree) : list DataPart :=
  List.filter
    (fun p => bool_decide (state p = Active)
              && bool_decide (MergeTreePartInfo.partition_id (info p) = partition_id))
    (data_parts_by_info s).

Definition with_state (st : MergeTreeDataPartState) (p : DataPart) : DataPart :=
  mkPart (name p) (info p) st (bytes_on_disk p) (removal_tid_lock p).

Section MovePartitionToTable.
(** [dest_table_storage->delayInsertOrThrowIfNeeded(...)] *)
Variable delayInsertOrThrowIfNeeded : Result unit.
(** The two [lockForShare] calls and [stopMergesAndWait]. *)
Variable lock_and_stop_merges : Result unit.
(** [checkStructureAndGetMergeTreeData(...)] *)
Variable checkStructure : Result unit.
(** [getPartitionIDFromQuery(partition, local_context)] *)
Variable getPartitionIDFromQuery : Result string.
(** [dest_table_storage->canReplacePartition(src_part)] *)
Variable canReplacePartition : DataPart -> bool.
(** [part->getNewName(part->info)] *)
Variable getNewName : MergeTreePartInfo.t -> string.
(** [Setting::max_parts_to_move] *)
Variable max_parts_to_move : Z.

(** Lines 2523-2553: the clones, left in temporary directories.
    [cloneAndLoadDataPart] is taken to succeed. The block range of a clone
    comes from [insert_increment] and only names its temporary directory;
    [fillNewPartName] replaces it before the part is installed, so it is
    left at 0 here. *)
Fixpoint clone_parts (partition_id : string) (src_parts : list DataPart)
    : Result (list DataPart) :=
  match src_parts with
  | [] => Return []
  | src_part :: rest =>
      if negb (canReplacePartition src_part) then Throw ErrorCodes.LOGICAL_ERROR
      else
        let dst_part_info :=
          MergeTreePartInfo.mk partition_id 0 0
            (MergeTreePartInfo.level (info src_part)) 0 in
        dst_parts <-! clone_parts partition_id rest;
        Return (mkPart (name src_part) dst_part_info Temporary
                  (bytes_on_disk src_part) 0 :: dst_parts)
  end.

(** [data_parts_by_info.insert(part)]: the index is kept in part-info
    order, the new part goes before the first part with a greater info. *)
Fixpoint insert_by_info (part : DataPart) (ps : list DataPart) : list DataPart :=
  match ps with
  | [] => [part]
  | p :: ps' =>
      if MergeTreePartInfo.less (info part) (info p) then part :: p :: ps'
      else p :: insert_by_info part ps'
  end.

(** Lines 2569-2573: [fillNewPartName] and
    [renameTempPartAndReplaceUnlocked] for each clone; the latter is taken
    to succeed, the block of the new part being a fresh one. *)
Fixpoint install_parts (dst_parts : list DataPart) (dest : StorageMergeTree)
    : list CommittingBlock.t * StorageMergeTree :=
  match dst_parts with
  | [] => ([], dest)
  | part :: rest =>
      let '(block, dest1) := allocateBlockNumber CommittingBlock.NewPart dest in
      let new_info :=
        MergeTreePartInfo.mk (MergeTreePartInfo.partition_id (info part))
          (CommittingBlock.number block) (CommittingBlock.number block)
          (MergeTreePartInfo.level (info part))
          (MergeTreePartInfo.mutation (info part)) in
      let installed := mkPart (getNewName new_info) new_info Active
                         (bytes_on_disk part) 0 in
      let dest2 := with_parts (insert_by_info installed (data_parts_by_info dest1))
                     dest1 in
      let '(blocks, dest3) := install_parts rest dest2 in
      (block :: blocks, dest3)
  end.

(** Modelled from the spec: [removePartsFromWorkingSet] is declared outside
    these sources; the source parts are removed from the working set, that
    is, demoted from Active to Outdated. *)
Definition removePartsFromWorkingSet (src_parts : list DataPart)
    (s : StorageMergeTree) : StorageMergeTree :=
  with_parts
    ((fun p => if bool_decide (name p ∈ (name <$> src_parts))
               then with_state Outdated p else p) <$> data_parts_by_info s) s.

Definition movePartitionToTable (dest_is_merge_tree policies_compatible : bool)
    (src dest : StorageMergeTree)
    : Result unit * (StorageMergeTree * StorageMergeTree) :=
  if negb dest_is_merge_tree then (Throw ErrorCodes.NOT_IMPLEMENTED, (src, dest))
  else if negb policies_compatible then (Throw ErrorCodes.UNKNOWN_POLICY, (src, dest))
  else
    match delayInsertOrThrowIfNeeded, lock_and_stop_merges, checkStructure,
          getPartitionIDFromQuery with
    | Throw c, _, _, _ => (Throw c, (src, dest))
    | _, Throw c, _, _ => (Throw c, (src, dest))
    | _, _, Throw c, _ => (Throw c, (src, dest))
    | _, _, _, Throw c => (Throw c, (src, dest))
    | Return _, Return _, Return _, Return partition_id =>
        let src_parts := getVisibleDataPartsVectorInPartition partition_id src in
        if max_parts_to_move <? Z.of_nat (length src_parts)
        then (Throw ErrorCodes.TOO_MANY_PARTS, (src, dest))
        else
          match clone_parts partition_id src_parts with
          | Throw c => (Throw c, (src, dest))
          | Return dst_parts =>
              if is_empty dst_parts then (Return tt, (src, dest))
              else
                let '(block_holders, dest1) := install_parts dst_parts dest in
                let src1 := removePartsFromWorkingSet src_parts src in
                let dest2 := foldl (fun d b => removeCommittingBlock b d)
                               dest1 block_holders in
                (Return tt, (emit ClearOldPartsFromFilesystem src1, dest2))
          end
    end.
End MovePartitionToTable.

(** ** Vocabulary of the statements *)

(** The commands of a run of entries, concatenated in order. *)
Definition batch_commands (batch : MutationsMap) : MutationCommands :=
  concat ((fun kv => commands kv.2) <$> batch).

(** The entries of the map with a version above [data_version], in the order
    of the map. *)
Definition pending (data_version : Z) (m : MutationsMap) : MutationsMap :=
  List.filter (fun kv => data_version <? kv.1) m.

(** What identifies the mutations of a map: versions, commands and origin
    transactions. The failure fields are left out. *)
Definition shape (m : MutationsMap) : list (Z * MutationCommands * TransactionID) :=
  (fun kv => (kv.1, commands kv.2, tid kv.2)) <$> m.

(** The mutations of [shape] with a version above [data_version], in the
    order of the map. *)
Definition pending_after (data_version : Z)
    (ms : list (Z * MutationCommands * TransactionID))
    : list (Z * MutationCommands * TransactionID) :=
  List.filter (fun t => data_version <? t.1.1) ms.

(** The commands of a run of mutations, concatenated in order. *)
Definition squashed_commands (batch : list (Z * MutationCommands * TransactionID))
    : MutationCommands :=
  concat ((fun t => t.1.2) <$> batch).

Section Batch.
Variable evaluateCommandsSize : MutationCommands -> Expected Z.
Variable max_ast_elements : Z.

(** The measure of the bound: the size of the commands of one mutation, in
    AST elements. A barrier command counts with the size of its own AST; the
    other commands are sized together by the interpreter, which may refuse
    them. Sizes are 64-bit unsigned counts. It is written down apart from
    the loop of lines 1396-1436, which is shown below to compute it. *)
Definition mutation_size (cs : MutationCommands) : option Z :=
  let barriers := List.filter MutationCommand.isBarrierCommand cs in
  let others :=
    List.filter (fun c => negb (MutationCommand.isBarrierCommand c)) cs in
  let ast := foldr (fun c acc => MutationCommand.ast_size c + acc) 0 barriers in
  match others with
  | [] => Some (to_UInt64 ast)
  | _ :: _ =>
      match evaluateCommandsSize others with
      | Value n => Some (to_UInt64 (ast + n))
      | Raised _ => None
      end
  end.

(** Follows the spec's words: the accumulated command size of a run of
    mutations. *)
Definition accumulated_size (batch : list (Z * MutationCommands * TransactionID))
    : Z :=
  to_UInt64 (foldr (fun t acc => default 0 (mutation_size t.1.2) + acc) 0 batch).

(** Follows the spec's words: a run of mutations that may be squashed into
    one batch for the origin transaction [first]. Its mutations come from
    [first] and have a size; the accumulated size stays below
    [max_expanded_ast_elements] all along; a mutation holding a barrier
    command ends the run, and is taken only when no command has been
    accumulated before it. *)
Definition squashable (first : TransactionID)
    (batch : list (Z * MutationCommands * TransactionID)) : Prop :=
  Forall (fun t => t.2 = first /\ is_Some (mutation_size t.1.2)) batch
  /\ (forall n, (0 < n <= length batch)%nat ->
        accumulated_size (take n batch) < max_ast_elements)
  /\ (forall j t, batch !! j = Some t ->
        containBarrierCommand t.1.2 = true ->
        S j = length batch /\ squashed_commands (take j batch) = []).

(** Follows the spec's words: the batch of a part whose mutations still to
    apply are [todo], in ascending version order. It is the longest run at
    the head of [todo] that may be squashed for the origin transaction of
    the first of them. *)
Definition is_batch (todo batch : list (Z * MutationCommands * TransactionID))
    : Prop :=
  exists n first,
    (snd <$> head todo) = Some first
    /\ batch = take n todo
    /\ squashable first batch
    /\ (forall n', (n < n' <= length todo)%nat ->
          ~ squashable first (take n' todo)).
End Batch.

Section Selection.
Variable evaluateCommandsSize : MutationCommands -> Expected Z.
Variable isVisible : DataPart -> Z -> TransactionID -> bool.
Variable tryGetRunningTransaction : TransactionID -> bool.
Variable tryReserveSpace : DataPart -> bool.
Variable now : Z.
Variable max_source_part_size : Z.
Variable max_ast_elements : Z.

(** The mutations a part has still to apply: those with a version above its
    data version, taken as the unsigned key it is looked up with. *)
Definition todo (s : StorageMergeTree) (part : DataPart)
    : list (Z * MutationCommands * TransactionID) :=
  pending_after (to_UInt64 (MergeTreePartInfo.getDataVersion (info part)))
    (shape (current_mutations_by_version s)).

(** Follows the spec's words: a part the selector looks at. It is not busy,
    has a mutation to apply, is not larger than the selector allows, is past
    its backoff window and is visible to the origin transaction of its
    first mutation. *)
Definition eligible (s : StorageMergeTree) (part : DataPart) : Prop :=
  (name part ∉ currently_merging_mutating_parts s)
  /\ bytes_on_disk part <= max_source_part_size
  /\ PartMutationBackoffPolicy.partCanBeMutated now (name part)
       (mutation_backoff_policy s) = true
  /\ exists t, head (todo s part) = Some t
       /\ (isPrehistoric t.2 = true
           \/ isVisible part (start_csn t.2) t.2 = true).

(** The origin transaction of the first mutation of the part can be used:
    there is none, or it is still running. *)
Definition origin_usable (s : StorageMergeTree) (part : DataPart) : Prop :=
  forall t, head (todo s part) = Some t ->
    isPrehistoric t.2 = true \/ tryGetRunningTransaction t.2 = true.

(** A part the selector passes over: it fails a guard, or its batch holds
    no command. *)
Definition passed_over (s : StorageMergeTree) (part : DataPart) : Prop :=
  ~ eligible s part
  \/ (origin_usable s part
      /\ exists batch,
           is_batch evaluateCommandsSize max_ast_elements (todo s part) batch
           /\ squashed_commands batch = []).

(** Follows the spec's words: the outcome [r] of selecting a part to mutate
    out of [ps] in state [s]. The parts are looked at in order, and the
    first one that is not passed over decides: it is selected with its
    batch, the future part carrying the version of the last mutation of the
    batch (the key, read as the [Int64] the field holds), unless the origin
    transaction of its first mutation is gone or no disk space can be
    reserved for it. *)
Definition selection (ps : list DataPart) (s : StorageMergeTree)
    (r : Result (option MergeMutateSelectedEntry) * StorageMergeTree) : Prop :=
  shape (current_mutations_by_version r.2)
  = shape (current_mutations_by_version s)
  /\ match r.1 with
     | Return None => forall part, part ∈ ps -> passed_over s part
     | Return (Some sel) =>
         exists i part batch last_mutation,
           ps !! i = Some part
           /\ (forall j p, (j < i)%nat -> ps !! j = Some p -> passed_over s p)
           /\ eligible s part
           /\ origin_usable s part
           /\ is_batch evaluateCommandsSize max_ast_elements (todo s part) batch
           /\ squashed_commands batch <> []
           /\ tryReserveSpace part = true
           /\ last batch = Some last_mutation
           /\ sel = mkSelected
                      (mkFuturePart [part]
                         (with_mutation (to_Int64 last_mutation.1.1)
                            (info part)))
                      (squashed_commands batch)
                      (if isPrehistoric last_mutation.2 then None
                       else Some last_mutation.2)
     | Throw c =>
         exists i part,
           ps !! i = Some part
           /\ (forall j p, (j < i)%nat -> ps !! j = Some p -> passed_over s p)
           /\ eligible s part
           /\ ((c = ErrorCodes.LOGICAL_ERROR /\ ~ origin_usable s part)
               \/ (c = ErrorCodes.NOT_ENOUGH_SPACE
                   /\ origin_usable s part
                   /\ tryReserveSpace part = false
                   /\ exists batch,
                        is_batch evaluateCommandsSize max_ast_elements
                          (todo s part) batch
                        /\ squashed_commands batch <> []))
     end.
End Selection.

(** The committing blocks a lightweight update with block number
    [max_block_number] has to wait for: those with a smaller number and an
    operation other than [Update]. *)
Definition blocking (max_block_number : Z) (blocks : CommittingBlocksSet)
    : CommittingBlocksSet :=
  List.filter
    (fun b => (CommittingBlock.number b <? max_block_number)
              && negb (bool_decide (CommittingBlock.op b = CommittingBlock.Update)))
    blocks.

(** Whether [version] lies in the interval
    (source data-version, result data-version]. *)
Definition in_versions (source_version result_version version : Z) : bool :=
  (source_version <? version) && (version <=? result_version).
Arguments in_versions : simpl never.

(** What [updateMutationEntriesErrors] makes of one entry of that interval. *)
Definition recorded (result_part : FutureMergedMutatedPart)
    (failed_part : DataPart) (is_successful : bool) (now : Z)
    (exception_message error_code_name : string)
    (entry : MergeTreeMutationEntry) : MergeTreeMutationEntry :=
  if is_successful then
    if negb (bool_decide (latest_failed_part entry = ""))
       && MergeTreePartInfo.contains (part_info result_part)
            (latest_failed_part_info entry)
    then clear_latest_fail entry
    else entry
  else set_latest_fail failed_part now exception_message error_code_name entry.

(** The number of leading entries of the map that [clearOldMutations] counts
    as finished: prehistoric entries with a version not above the minimum
    data-version of the parts (any version when there is no part). *)
Fixpoint finished_prefix (min_version : option Z) (m : MutationsMap) : nat :=
  match m with
  | [] => O
  | (version, entry) :: m' =>
      if match min_version with Some v => version <=? v | None => true end
         && isPrehistoric (tid entry)
      then S (finished_prefix min_version m')
      else O
  end.

(** The map with its [n] leading entries marked as done. *)
Definition mark_finished (n : nat) (m : MutationsMap) : MutationsMap :=
  ((fun kv => (kv.1, if is_done kv.2 then kv.2 else set_is_done kv.2))
     <$> take n m) ++ drop n m.

(** The maximum level of a run of parts, 0 for an empty run. *)
Definition max_level (ps : list DataPart) : Z :=
  foldr (fun p acc => Z.max (MergeTreePartInfo.level (info p)) acc) 0 ps.

(** What an observer sees of [n] unsuccessful polls of the memory gate
    (newest first): each poll sleeps one second, then checks once. *)
Definition failed_polls (n : nat) : list SelectionEvent :=
  concat (replicate n [MemoryCheck false; SleepFor 1000]).

(** ** A small table used in the examples

    One part [all_1_1_0] inserted at block 1, then three mutations issued
    outside any transaction: two UPDATEs (versions 2 and 3) and a DROP COLUMN
    (version 4). *)

Definition example_part : DataPart :=
  mkPart "all_1_1_0" (MergeTreePartInfo.mk "all" 1 1 0 0) Active 100 0.

Definition example_entry (version : Z) (file_name_ : string)
    (cs : MutationCommands) : MergeTreeMutationEntry :=
  mkEntry cs PrehistoricTID 0 version file_name_ 0 false ""
    MergeTreePartInfo.default 0 "" "".

Definition example_update : MutationCommand.t :=
  MutationCommand.mk MutationCommand.UPDATE 7.

Definition example_drop_column : MutationCommand.t :=
  MutationCommand.mk MutationCommand.DROP_COLUMN 3.

Definition example_mutations : MutationsMap :=
  [(2, example_entry 2 "mutation_2.txt" [example_update]);
   (3, example_entry 3 "mutation_3.txt" [example_update]);
   (4, example_entry 4 "mutation_4.txt" [example_drop_column])].

Definition example_storage : StorageMergeTree :=
  mkStorage false [example_part] ∅ example_mutations ∅ 4 [] [].

(** The interpreter's size of a batch: the AST sizes added up. *)
Definition example_evaluateCommandsSize (cs : MutationCommands) : Expected Z :=
  Value (foldr (fun c acc => MutationCommand.ast_size c + acc) 0 cs).

(** The part after both UPDATEs have been applied to it. *)
Definition example_mutated_info : MergeTreePartInfo.t :=
  MergeTreePartInfo.mk "all" 1 1 0 3.

Definition example_future_part : FutureMergedMutatedPart :=
  mkFuturePart [example_part] example_mutated_info.

(** The table's data directory on its only disk. *)
Definition example_disk : list DirectoryEntry :=
  [mkFile "mutation_3.txt" (example_entry 3 "mutation_3.txt" [example_update]);
   mkFile "tmp_mutation_5.txt" (example_entry 5 "tmp_mutation_5.txt" []);
   mkFile "mutation_2.txt" (example_entry 2 "mutation_2.txt" [example_update])].

(** A table whose only part has been mutated up to version 5, with the
    finished mutation 5 still registered. *)
Definition example_finished : StorageMergeTree :=
  mkStorage false
    [mkPart "all_1_1_0_5" (MergeTreePartInfo.mk "all" 1 1 0 5) Active 100 0]
    ∅ [(5, example_entry 5 "mutation_5.txt" [example_update])] ∅ 5 [] [].

(** A table with one recorded mutation failure of its part. *)
Definition example_backed_off : StorageMergeTree :=
  with_backoff {["all_1_1_0" := PartMutationBackoffPolicy.mkInfo 1 1000]}
    example_storage.

(** The storage after the constructor has loaded [example_disk]. *)
Definition example_loaded : StorageMergeTree :=
  mkStorage false [example_part] ∅
    [(2, example_entry 2 "mutation_2.txt" [example_update]);
     (3, example_entry 3 "mutation_3.txt" [example_update])]
    ∅ 3 []
    [IncrementMutationsCounters [example_update];
     RemoveFile "tmp_mutation_5.txt";
     IncrementMutationsCounters [example_update]].

(** The selection of the example: no transactions, enough disk space, the
    clock at 0, parts of up to 1000 bytes, 500000 AST elements. *)
Definition example_select (s : StorageMergeTree) :=
  selectPartsToMutate example_evaluateCommandsSize (fun _ _ _ => true)
    (fun _ => false) (fun _ => true) 0 1000 500000 s.

(** The same selection with room for [limit] AST elements. *)
Definition example_select_within (limit : Z) (s : StorageMergeTree) :=
  selectPartsToMutate example_evaluateCommandsSize (fun _ _ _ => true)
    (fun _ => false) (fun _ => true) 0 1000 limit s.

(** The committing sets a lightweight update with block 11 sees while the
    insert with block 10 commits. *)
Definition example_snapshots : list CommittingBlocksSet :=
  [[CommittingBlock.mk CommittingBlock.NewPart 10;
    CommittingBlock.mk CommittingBlock.Update 11];
   [CommittingBlock.mk CommittingBlock.Update 11]].

(** Two neighbouring parts, the right one of level 5. *)
Definition example_left : DataPart :=
  mkPart "all_1_1_0" (MergeTreePartInfo.mk "all" 1 1 0 0) Active 100 0.
Definition example_right : DataPart :=
  mkPart "all_2_6_5" (MergeTreePartInfo.mk "all" 2 6 5 0) Active 100 0.
Definition example_two_parts : StorageMergeTree :=
  mkStorage false [example_left; example_right] ∅ [] ∅ 6 [] [].

(** A transaction, the log in which it alone is running, and the example
    table with an UPDATE (version 3) issued by that transaction after an
    UPDATE issued outside any transaction. *)
Definition example_tid : TransactionID := mkTID 7 1 1.

Definition example_running (tid_ : TransactionID) : bool :=
  bool_decide (tid_ = example_tid).

Definition example_transactional : StorageMergeTree :=
  mkStorage false [example_part] ∅
    [(2, example_entry 2 "mutation_2.txt" [example_update]);
     (3, mkEntry [example_update] example_tid 0 3 "mutation_3.txt" 0 false ""
           MergeTreePartInfo.default 0 "" "")]
    ∅ 3 [] [].

(** The same table after the UPDATE of the transaction has failed on the
    part, and the parts a reader sees: the part is visible to the running
    transaction only. *)
Definition example_failed : StorageMergeTree :=
  mkStorage false [example_part] ∅
    [(2, example_entry 2 "mutation_2.txt" [example_update]);
     (3, mkEntry [example_update] example_tid 0 3 "mutation_3.txt" 0 false
           "all_1_1_0" (MergeTreePartInfo.mk "all" 1 1 0 0) 50 "Cannot parse"
           "CANNOT_PARSE_TEXT")]
    ∅ 3 [] [].

Definition example_visible (txn_ : option TransactionID) : list DataPart :=
  match txn_ with
  | Some _ => [example_part]
  | None => []
  end.

(** * Further operations of the storage *)

(** ** Mutation versions around a data version *)

(** Lines 1631-1638. *)
Definition getCurrentMutationVersion (data_version : Z) (s : StorageMergeTree)
    : Z :=
  let m := current_mutations_by_version s in
  let it := upper_bound data_version m in
  if bool_decide (it = 0%nat) then 0
  else match m !! pred it with
       | Some (version, _) => version
       | None => 0
       end.

(** Lines 1640-1646. *)
Definition getNextMutationVersion (data_version : Z) (s : StorageMergeTree)
    : Z :=
  let m := current_mutations_by_version s in
  let it := upper_bound data_version m in
  if bool_decide (it = length m) then 0
  else match m !! it with
       | Some (version, _) => version
       | None => 0
       end.

(** ** Starting a mutation *)

(** What [startMutation] touches of the query's transaction: its id and the
    mutations it has registered (newest first). *)
Record MergeTreeTransaction := mkTransaction {
  txn_tid : TransactionID;
  txn_mutations : list string;
}.

Definition addMutation (mutation_id : string) (txn : MergeTreeTransaction)
    : MergeTreeTransaction :=
  mkTransaction (txn_tid txn) (mutation_id :: txn_mutations txn).

Section StartMutation.
(** The entry as the constructor [MergeTreeMutationEntry(commands, disk,
    path, tmp_number, tid, settings)] followed by [commit(version)] leaves
    it; both are declared outside these sources. *)
Variable committed_entry
  : MutationCommands -> TransactionID -> Z -> MergeTreeMutationEntry.

(** Lines 574-610. Modelled from the spec: [PlainCommittingBlockHolder] is
    declared outside these sources; a committing block lives from its
    allocation until it is released, and the holder, a local of the
    function, releases it when the function is left, by return or by
    exception. *)
Definition startMutation (commands_ : MutationCommands)
    (txn : option MergeTreeTransaction) (s : StorageMergeTree)
    : Result Z * option MergeTreeTransaction * StorageMergeTree :=
  let current_tid :=
    match txn with Some t => txn_tid t | None => PrehistoricTID end in
  let '(block, s1) := allocateBlockNumber CommittingBlock.Mutation s in
  let version := CommittingBlock.number block in
  let entry := committed_entry commands_ current_tid version in
  let mutation_id := file_name entry in
  let txn1 := addMutation mutation_id <$> txn in
  let '(m, inserted) :=
    try_emplace version entry (current_mutations_by_version s1) in
  if negb inserted
  then (Throw ErrorCodes.LOGICAL_ERROR, txn1, removeCommittingBlock block s1)
  else
    let s2 := emit (IncrementMutationsCounters (commands entry))
                (with_mutations m s1) in
    let s3 := emit TriggerBackgroundOperations s2 in
    (Return version, txn1, removeCommittingBlock block s3).
End StartMutation.

(** The state [startMutation] and the allocator keep up: the map has
    ascending versions, none above the counter; the committing set has
    ascending numbers, none above the counter; the counter is a valid block
    number with one more to give. *)
Definition allocator_covers (s : StorageMergeTree) : Prop :=
  sorted_keys (current_mutations_by_version s)
  /\ Forall (fun kv => kv.1 <= increment s) (current_mutations_by_version s)
  /\ sorted_blocks (committing_blocks s)
  /\ Forall (fun b => CommittingBlock.number b <= increment s)
       (committing_blocks s)
  /\ 0 <= increment s.

(** ** Naming a new part *)

Definition with_info (name_ : string) (i : MergeTreePartInfo.t) (p : DataPart)
    : DataPart :=
  mkPart name_ i (state p) (bytes_on_disk p) (removal_tid_lock p).

Section FillNewPartName.
(** [part->getNewName(info)] *)
Variable getNewName : MergeTreePartInfo.t -> string.
(** [merging_params.mode != MergeTreeData::MergingParams::Ordinary] *)
Variable keep_non_zero_level : bool.

(** Lines 2859-2868. The block is returned in place of its holder. *)
Definition fillNewPartName (part : DataPart) (s : StorageMergeTree)
    : DataPart * CommittingBlock.t * StorageMergeTree :=
  let '(block, s1) := allocateBlockNumber CommittingBlock.NewPart s in
  let i := info part in
  let i1 := MergeTreePartInfo.mk (MergeTreePartInfo.partition_id i)
              (CommittingBlock.number block) (CommittingBlock.number block)
              (MergeTreePartInfo.level i) (MergeTreePartInfo.mutation i) in
  (with_info (getNewName i1) i1 part, block, s1).

(** Lines 2870-2883. *)
Definition fillNewPartNameAndResetLevel (part : DataPart) (s : StorageMergeTree)
    : DataPart * CommittingBlock.t * StorageMergeTree :=
  let '(block, s1) := allocateBlockNumber CommittingBlock.NewPart s in
  let i := info part in
  let level_ :=
    if keep_non_zero_level && (0 <? MergeTreePartInfo.level i) then 1 else 0 in
  let i1 := MergeTreePartInfo.mk (MergeTreePartInfo.partition_id i)
              (CommittingBlock.number block) (CommittingBlock.number block)
              level_ 0 in
  (with_info (getNewName i1) i1 part, block, s1).
End FillNewPartName.

(** ** Marking parts busy *)

Module CurrentlyMergingPartsTagger.
(** The constructor with [is_mutation = false] (lines 501-558);
    [reserved_space] tells whether one of the two reservations succeeded.
    [updatePath] sets the path of the future part on the reserved disk,
    which the future parts here do not carry. *)
Definition construct (future_part : FutureMergedMutatedPart)
    (reserved_space : bool) (s : StorageMergeTree) : Result StorageMergeTree :=
  if negb reserved_space then Throw ErrorCodes.NOT_ENOUGH_SPACE
  else if existsb
            (fun part => bool_decide (name part ∈ currently_merging_mutating_parts s))
            (parts future_part)
  then Throw ErrorCodes.LOGICAL_ERROR
  else Return (with_busy (list_to_set (name <$> parts future_part)
                            ∪ currently_merging_mutating_parts s) s).

(** The loop of the destructor (lines 564-569) on the busy set; [None] is
    [std::terminate]. *)
Fixpoint untag (parts_ : list DataPart) (busy : gset string)
    : option (gset string) :=
  match parts_ with
  | [] => Some busy
  | part :: rest =>
      if negb (bool_decide (name part ∈ busy)) then None
      else untag rest (busy ∖ {[name part]})
  end.

(** The destructor (lines 560-572). The waiters of
    [currently_processing_in_background_condition] it wakes up re-read the
    busy set. *)
Definition destroy (future_part : FutureMergedMutatedPart)
    (s : StorageMergeTree) : option StorageMergeTree :=
  busy ← untag (parts future_part) (currently_merging_mutating_parts s);
  Some (with_busy busy s).
End CurrentlyMergingPartsTagger.

(** ** Waiting for running merges *)

(** Lines 1842-1849. *)
Definition countOccurrences (haystack : gset string) (needle : list DataPart)
    : nat :=
  foldl (fun total n => (total + if bool_decide (name n ∈ haystack) then 1 else 0)%nat)
    0%nat needle.

(** Modelled from the spec: [getDataPartsVectorInPartitionForInternalUsage]
    is declared outside these sources; it enumerates the parts of one
    partition that are in the given state, in part-info order. *)
Definition getDataPartsVectorInPartitionForInternalUsage
    (st : MergeTreeDataPartState) (partition_id : string)
    (s : StorageMergeTree) : list DataPart :=
  List.filter
    (fun p => bool_decide (state p = st)
              && bool_decide (MergeTreePartInfo.partition_id (info p) = partition_id))
    (data_parts_by_info s).

(** What a thread blocked in
    [currently_processing_in_background_condition.wait_for(lock, timeout)]
    sees when the call returns: the timeout, or the busy set as the other
    threads left it. *)
Inductive WakeUp : Type :=
| Notified (busy : gset string)
| TimedOut.

(** The loops of lines 1884-1894 and 1909-1918: [while (cond) if (timeout
    == wait_for(...)) throw]. The result carries the busy set last seen;
    [None] means that the thread is still blocked after the given
    wake-ups. *)
Fixpoint wait_while (cond : gset string -> bool) (busy : gset string)
    (wakeups : list WakeUp) : option (Result unit * gset string) :=
  if negb (cond busy) then Some (Return tt, busy)
  else
    match wakeups with
    | [] => None
    | TimedOut :: _ => Some (Throw ErrorCodes.TIMEOUT_EXCEEDED, busy)
    | Notified busy' :: later => wait_while cond busy' later
    end.

(** Lines 1862-1897. The merge blocker returned on success is not part of
    the state modelled here. *)
Definition stopMergesAndWaitForPartition (partition_id : string)
    (wakeups : list WakeUp) (s : StorageMergeTree)
    : option (Result unit * gset string) :=
  let parts_to_wait :=
    getDataPartsVectorInPartitionForInternalUsage Active partition_id s in
  wait_while (fun busy => negb (countOccurrences busy parts_to_wait =? 0)%nat)
    (currently_merging_mutating_parts s) wakeups.

(** Lines 1899-1921. *)
Definition stopMergesAndWait (wakeups : list WakeUp) (s : StorageMergeTree)
    : option (Result unit * gset string) :=
  wait_while (fun busy => negb (bool_decide (busy = ∅)))
    (currently_merging_mutating_parts s) wakeups.

(** ** Outdating one part *)

(** Modelled from the spec: [getPartIfExistsUnlocked] is declared outside
    these sources; it finds the part of that name if it is in one of the
    given states. *)
Definition getPartIfExistsUnlocked (part_name : string)
    (valid_states : list MergeTreeDataPartState) (s : StorageMergeTree)
    : option DataPart :=
  List.find
    (fun p => bool_decide (name p = part_name)
              && bool_decide (state p ∈ valid_states))
    (data_parts_by_info s).

(** Lines 1923-1954. [stopped] is the outcome of [stopMergesAndWait()] in
    the forced branch; a null pointer is [None]. The pointer returned
    designates the part as [removePartsFromWorkingSet] left it. *)
Definition outdatePart (stopped : Result unit) (part_name : string)
    (force : bool) (s : StorageMergeTree)
    : Result (option DataPart) * StorageMergeTree :=
  if force then
    match stopped with
    | Throw code => (Throw code, s)
    | Return _ =>
        match getPartIfExistsUnlocked part_name [Active] s with
        | None => (Throw ErrorCodes.NO_SUCH_DATA_PART, s)
        | Some part =>
            (Return (Some (with_state Outdated part)),
             removePartsFromWorkingSet [part] s)
        end
    end
  else
    match getPartIfExistsUnlocked part_name [Active] s with
    | None => (Return None, s)
    | Some part =>
        if bool_decide (name part ∈ currently_merging_mutating_parts s)
        then (Return None, s)
        else (Return (Some (with_state Outdated part)),
              removePartsFromWorkingSet [part] s)
    end.

(** Lines 1956-1972. [deduplication_log] is the list of part infos dropped
    from the log (newest first), if the table has a log. *)
Definition dropPartNoWaitNoThrow (part_name : string)
    (deduplication_log : option (list MergeTreePartInfo.t))
    (s : StorageMergeTree)
    : option (list MergeTreePartInfo.t) * StorageMergeTree :=
  match outdatePart (Return tt) part_name false s with
  | (Return (Some part), s1) =>
      ((fun log => info part :: log) <$> deduplication_log,
       emit ClearOldPartsFromFilesystem s1)
  | (_, s1) => (deduplication_log, s1)
  end.

(** ** Status of all mutations *)

Record PartVersionWithName := mkPartVersion {
  pv_version : Z;
  pv_name : string;
}.

(** Lines 827-830. *)
Definition comparator (f s : PartVersionWithName) : bool :=
  pv_version f <? pv_version s.

(** [std::lower_bound(first, last, needle, comparator)] on a range that is
    partitioned with respect to [needle]: the position of the first element
    that does not compare less. *)
Fixpoint lower_bound (range : list PartVersionWithName)
    (needle : PartVersionWithName) : nat :=
  match range with
  | [] => 0%nat
  | e :: range' =>
      if comparator e needle then S (lower_bound range' needle) else 0%nat
  end.

(** [MergeTreeMutationStatus] with all the fields [getMutationsStatus]
    fills. *)
Module MutationStatusRow.
Record t := mk {
  id : string;
  command : string;
  create_time : Z;
  block_numbers : list (string * Z);
  parts_to_do_names : list string;
  is_done : bool;
  latest_failed_part : string;
  latest_fail_time : Z;
  latest_fail_reason : string;
  latest_fail_error_code_name : string;
}.
End MutationStatusRow.

Section MutationsStatus.
(** [std::sort(first, last, comparator)]: what it returns is ordered by
    [comparator] and a rearrangement of its argument; the order among
    equal versions is not specified. *)
Variable std_sort : list PartVersionWithName -> list PartVersionWithName.
(** [command.ast->formatWithSecretsOneLine()] *)
Variable formatWithSecretsOneLine : MutationCommand.t -> string.

(** Lines 906-911 and 932-937. *)
Definition part_versions_with_names (s : StorageMergeTree)
    : list PartVersionWithName :=
  std_sort
    ((fun part => mkPartVersion (MergeTreePartInfo.getDataVersion (info part))
                    (name part))
       <$> getDataPartsVectorForInternalUsage s).

(** Lines 903-926. The result is a [std::map]; [emplace] keeps the first
    value of a key. *)
Definition getUnfinishedMutationCommands (s : StorageMergeTree)
    : gmap string MutationCommands :=
  let versions := part_versions_with_names s in
  foldl
    (fun result kv =>
       let needle := mkPartVersion (to_Int64 kv.1) "" in
       let parts_to_do := lower_bound versions needle in
       if (0 <? parts_to_do)%nat then
         match result !! file_name kv.2 with
         | Some _ => result
         | None => <[file_name kv.2 := commands kv.2]> result
         end
       else result)
    ∅ (current_mutations_by_version s).

(** Lines 928-975. *)
Definition getMutationsStatus (s : StorageMergeTree)
    : list MutationStatusRow.t :=
  let versions := part_versions_with_names s in
  concat
    ((fun kv : Z * MergeTreeMutationEntry =>
        let mutation_version := to_Int64 kv.1 in
        let entry := kv.2 in
        let needle := mkPartVersion mutation_version "" in
        let parts_to_do := lower_bound versions needle in
        let parts_to_do_names := pv_name <$> take parts_to_do versions in
        (fun command =>
           MutationStatusRow.mk (file_name entry)
             (formatWithSecretsOneLine command) (create_time entry)
             [("", block_number entry)] parts_to_do_names
             (is_empty parts_to_do_names)
             (latest_failed_part entry) (latest_fail_time entry)
             (latest_fail_reason entry) (latest_fail_error_code_name entry))
          <$> commands entry)
       <$> current_mutations_by_version s).
End MutationsStatus.

(** The Active parts a mutation of that version still has to process. *)
Definition lagging (version : Z) (s : StorageMergeTree) : list DataPart :=
  List.filter
    (fun p => MergeTreePartInfo.getDataVersion (info p) <? to_Int64 version)
    (getDataPartsVectorForInternalUsage s).

(** ** Waiting for one mutation *)

Section WaitForMutation.
Variable tryGetRunningTransaction : TransactionID -> bool.
Variable getVisibleDataPartsVector : option TransactionID -> list DataPart.
Variable getHash : TransactionID -> Z.
Variable now : Z.

(** The lambda [check] of [waitForMutation] (lines 679-685). *)
Definition check (shutdown_called : bool) (version : Z)
    (wait_for_another_mutation : bool) (s : StorageMergeTree) : bool :=
  if shutdown_called then true
  else
    match getIncompleteMutationsStatusUnlocked tryGetRunningTransaction
            getVisibleDataPartsVector getHash now version false
            wait_for_another_mutation s with
    | None => true
    | Some (mutation_status, _) =>
        MergeTreeMutationStatus.is_done mutation_status
        || negb (bool_decide
                   (MergeTreeMutationStatus.latest_fail_reason mutation_status = ""))
    end.
End WaitForMutation.

(** ** What [loadMutations] makes of a directory entry *)

Section LoadedFiles.
Variable getCSN : TransactionID -> Z.

(** The entry was written by a transaction that has no CSN, neither in the
    file nor in the transaction log. *)
Definition uncommitted (entry : MergeTreeMutationEntry) : bool :=
  negb (isPrehistoric (tid entry)) && (csn entry =? 0)
  && (getCSN (tid entry) =? 0).

(** The files that end up in the map. *)
Definition is_loaded (it : DirectoryEntry) : bool :=
  startsWith (file it) "mutation_" && negb (uncommitted (parsed it)).

(** The files that are removed from the disk. *)
Definition is_removed (it : DirectoryEntry) : bool :=
  if startsWith (file it) "mutation_" then uncommitted (parsed it)
  else startsWith (file it) "tmp_mutation_".
End LoadedFiles.

(** The files removed according to a log of calls. *)
Definition removed_files (log : list Effect) : list string :=
  omap (fun e => match e with RemoveFile f => Some f | _ => None end) log.

(** The waits on the background condition in a log of selection events. *)
Definition background_waits (log : list SelectionEvent) : list bool :=
  omap (fun e => match e with WaitForBackground t => Some t | _ => None end) log.

(** The file names of the mutations with a version above [data_version],
    taken as the unsigned key it is looked up with, whose recorded failure
    reason is [reason]. *)
Definition failed_alike (data_version : Z) (reason : string) (m : MutationsMap)
    : list string :=
  (fun kv => file_name kv.2)
    <$> List.filter (fun kv => (to_UInt64 data_version <? kv.1)
                               && bool_decide (latest_fail_reason kv.2 = reason)) m.

(** The first of [data_parts] that has not reached [version]. *)
Definition first_lagging (version : Z) (data_parts : list DataPart)
    : option DataPart :=
  List.find (fun p => MergeTreePartInfo.getDataVersion (info p) <? version)
    data_parts.

Section Reported.
Variable tryGetRunningTransaction : TransactionID -> bool.
Variable getVisibleDataPartsVector : option TransactionID -> list DataPart.
Variable getHash : TransactionID -> Z.
Variable now : Z.

(** What a status query for the [Int64] [version] reports in state [s].
    Nothing, when no mutation is registered under the key the version
    converts to. Otherwise the parts looked at are those visible to the
    origin transaction of the mutation, if it was issued by one that is
    still running. The mutation is done when none of them lags behind
    [version]; otherwise the report is made on the first part that does:
    the failure recorded in the entry, with the file names of the mutations
    above that part that failed alike when ids are asked for, or else a
    serialization error when the part is locked by another transaction, or
    else nothing but "not done". *)
Definition reported (version : Z) (want_mutation_ids from_another_mutation : bool)
    (s : StorageMergeTree)
    (result : option (MergeTreeMutationStatus.t * list string)) : Prop :=
  match result with
  | None => to_UInt64 version ∉ keys (current_mutations_by_version s)
  | Some (st, ids) =>
      exists entry,
        (to_UInt64 version, entry) ∈ current_mutations_by_version s
        /\ let txn := if negb (isPrehistoric (tid entry))
                         && tryGetRunningTransaction (tid entry)
                      then Some (tid entry) else None in
           match first_lagging version (getVisibleDataPartsVector txn) with
           | None => st = MergeTreeMutationStatus.mk true "" 0 "" "" /\ ids = []
           | Some part =>
               MergeTreeMutationStatus.is_done st = false
               /\ (latest_fail_reason entry <> "" ->
                   st = MergeTreeMutationStatus.mk false
                          (latest_failed_part entry) (latest_fail_time entry)
                          (latest_fail_reason entry)
                          (latest_fail_error_code_name entry)
                   /\ ids = (if want_mutation_ids
                             then failed_alike
                                    (MergeTreePartInfo.getDataVersion (info part))
                                    (latest_fail_reason entry)
                                    (current_mutations_by_version s)
                             else [])
                   /\ (want_mutation_ids = true ->
                       to_UInt64 (MergeTreePartInfo.getDataVersion (info part))
                       < to_UInt64 version ->
                       file_name entry ∈ ids))
               /\ (latest_fail_reason entry = "" ->
                   ids = []
                   /\ st = if bool_decide (is_Some txn)
                              && negb from_another_mutation
                              && negb (removal_tid_lock part =? 0)
                              && negb (removal_tid_lock part
                                       =? getHash (tid entry))
                           then MergeTreeMutationStatus.mk false (name part) now
                                  ("Serialization error: part " +:+ name part
                                     +:+ " is locked by transaction "
                                     +:+ pretty (removal_tid_lock part))
                                  "PART_IS_LOCKED"
                           else MergeTreeMutationStatus.not_done)
           end
  end.
End Reported.

Section SelectedGuarded.
Variable tryReserveSpace : DataPart -> bool.
Variable now : Z.
Variable max_source_part_size : Z.

(** What a selection out of [ps], made in state [s0] with outcome [r],
    leaves of the busy set, and the guards the selected part has passed. *)
Definition selected_guarded (ps : list DataPart) (s0 : StorageMergeTree)
    (r : Result (option MergeMutateSelectedEntry) * StorageMergeTree) : Prop :=
  mutation_backoff_policy r.2 = mutation_backoff_policy s0
  /\ data_parts_by_info r.2 = data_parts_by_info s0
  /\ match r.1 with
     | Return (Some sel) =>
         exists part,
           parts (future_part sel) = [part]
           /\ (part ∈ ps)
           /\ (name part ∉ currently_merging_mutating_parts s0)
           /\ currently_merging_mutating_parts r.2
              = {[name part]} ∪ currently_merging_mutating_parts s0
           /\ bytes_on_disk part <= max_source_part_size
           /\ PartMutationBackoffPolicy.partCanBeMutated now (name part)
                (mutation_backoff_policy s0) = true
           /\ tryReserveSpace part = true
     | _ => currently_merging_mutating_parts r.2
            = currently_merging_mutating_parts s0
     end.
End SelectedGuarded.

(** * Granted roles ([src/Access/GrantedRoles.cpp])

    The two members [roles] and [roles_with_admin_option] are ordered sets of
    UUIDs: the code hands them to [set_intersection] and [set_difference],
    which take ranges in ascending order, and otherwise uses their set
    interface ([insert], [erase], [count], [find]). A set is a [gset]; where
    the code walks one, it does so in ascending order ([in_order]). A UUID is
    its 128-bit value. *)

Abbreviation UUID := N.

(** The elements of an ordered set in iteration order. *)
Definition in_order (s : gset UUID) : list UUID := merge_sort N.le (elements s).

Module GrantedRoles.
Record t := mk {
  roles : gset UUID;
  roles_with_admin_option : gset UUID;
}.

(** [GrantedRoles::Element]: a run of ids with or without admin option. *)
Record Element := mkElement {
  ids : list UUID;
  admin_option : bool;
}.

Definition grant (role_ : UUID) (g : t) : t :=
  mk ({[role_]} ∪ roles g) (roles_with_admin_option g).

Definition grant_vector (roles_ : list UUID) (g : t) : t :=
  mk (list_to_set roles_ ∪ roles g) (roles_with_admin_option g).

Definition grantWithAdminOption (role_ : UUID) (g : t) : t :=
  mk ({[role_]} ∪ roles g) ({[role_]} ∪ roles_with_admin_option g).

Definition grantWithAdminOption_vector (roles_ : list UUID) (g : t) : t :=
  mk (list_to_set roles_ ∪ roles g) (list_to_set roles_ ∪ roles_with_admin_option g).

Definition revoke (role_ : UUID) (g : t) : t :=
  mk (roles g ∖ {[role_]}) (roles_with_admin_option g ∖ {[role_]}).

(** [for (const UUID & role : roles_) revoke(role);] *)
Definition revoke_vector (roles_ : list UUID) (g : t) : t :=
  foldl (fun acc role => revoke role acc) g roles_.

Definition revokeAdminOption (role_ : UUID) (g : t) : t :=
  mk (roles g) (roles_with_admin_option g ∖ {[role_]}).

Definition revokeAdminOption_vector (roles_ : list UUID) (g : t) : t :=
  foldl (fun acc role => revokeAdminOption role acc) g roles_.

Definition isGranted (role_ : UUID) (g : t) : bool :=
  bool_decide (role_ ∈ roles g).

Definition isGrantedWithAdminOption (role_ : UUID) (g : t) : bool :=
  bool_decide (role_ ∈ roles_with_admin_option g).

(** [findGranted(const std::vector<UUID> &)] *)
Definition findGranted_vector (ids_ : list UUID) (g : t) : list UUID :=
  List.filter (fun id => isGranted id g) ids_.

(** [findGranted(const boost::container::flat_set<UUID> &)]:
    [set_intersection] of two ascending ranges without repetitions. *)
Definition findGranted_flat_set (ids_ : gset UUID) (g : t) : list UUID :=
  in_order (ids_ ∩ roles g).

(** [findGranted(const RolesOrUsersSet &)]; [matches] is [ids.match]. *)
Definition findGranted_matching (matches : UUID -> bool) (g : t) : list UUID :=
  List.filter matches (in_order (roles g)).

Definition findGrantedWithAdminOption_vector (ids_ : list UUID) (g : t)
    : list UUID :=
  List.filter (fun id => isGrantedWithAdminOption id g) ids_.

Definition findGrantedWithAdminOption_flat_set (ids_ : gset UUID) (g : t)
    : list UUID :=
  in_order (ids_ ∩ roles_with_admin_option g).

Definition findGrantedWithAdminOption_matching (matches : UUID -> bool) (g : t)
    : list UUID :=
  List.filter matches (in_order (roles_with_admin_option g)).

Definition getElements (g : t) : list Element :=
  let element := mkElement (in_order (roles g ∖ roles_with_admin_option g)) false in
  (if negb (is_empty (ids element)) then [element] else [])
  ++ (if negb (bool_decide (roles_with_admin_option g = ∅))
      then [mkElement (in_order (roles_with_admin_option g)) true]
      else []).

Definition makeUnion (other : t) (g : t) : t :=
  mk (roles g ∪ roles other)
     (roles_with_admin_option g ∪ roles_with_admin_option other).

(** [remove_erase_if] drops the ids the other side does not have. *)
Definition makeIntersection (other : t) (g : t) : t :=
  mk (filter (fun id => id ∈ roles other) (roles g))
     (filter (fun id => id ∈ roles_with_admin_option other)
        (roles_with_admin_option g)).

Definition findDependencies (g : t) : list UUID := in_order (roles g).

Definition hasDependencies (ids_ : gset UUID) (g : t) : bool :=
  existsb (fun role_id => bool_decide (role_id ∈ ids_)) (in_order (roles g)).

(** Lines 193-207 and 214-228: the ids that are keys of the map are erased,
    their images are collected in [new_ids]. *)
Definition erase_replaced (old_to_new_ids : gmap UUID UUID) (s : gset UUID)
    : list UUID * gset UUID :=
  (omap (fun id => old_to_new_ids !! id) (in_order s),
   filter (fun id => old_to_new_ids !! id = None) s).

Definition replaceDependencies (old_to_new_ids : gmap UUID UUID) (g : t) : t :=
  let '(new_ids, roles1) := erase_replaced old_to_new_ids (roles g) in
  if negb (is_empty new_ids) then
    let '(new_admin_ids, admin1) :=
      erase_replaced old_to_new_ids (roles_with_admin_option g) in
    mk (roles1 ∪ list_to_set new_ids) (admin1 ∪ list_to_set new_admin_ids)
  else mk roles1 (roles_with_admin_option g).

Definition copyDependenciesFrom (src : t) (ids_ : gset UUID) (g : t) : t :=
  let copied := List.filter (fun role_id => bool_decide (role_id ∈ ids_))
                  (in_order (roles src)) in
  let found := negb (is_empty copied) in
  mk (roles g ∪ list_to_set copied)
     (if found
      then roles_with_admin_option g
           ∪ list_to_set
               (List.filter (fun role_id => bool_decide (role_id ∈ ids_))
                  (in_order (roles_with_admin_option src)))
      else roles_with_admin_option g).

Definition removeDependencies (ids_ : gset UUID) (g : t) : t :=
  let found := existsb (fun role_id => bool_decide (role_id ∈ ids_))
                 (in_order (roles g)) in
  mk (filter (fun id => id ∉ ids_) (roles g))
     (if found
      then filter (fun id => id ∉ ids_) (roles_with_admin_option g)
      else roles_with_admin_option g).

(** Every role granted with admin option is granted. *)
Definition admin_is_granted (g : t) : Prop :=
  roles_with_admin_option g ⊆ roles g.
End GrantedRoles.

(** Roles 1 and 2 granted, role 2 with admin option. *)
Definition example_granted : GrantedRoles.t :=
  GrantedRoles.mk {[1%N; 2%N]} {[2%N]}.

(** ** Further examples *)

(** The example table while an insert holds block 5. *)
Definition example_inserting : StorageMergeTree :=
  mkStorage false [example_part] ∅ example_mutations ∅ 5
    [CommittingBlock.mk CommittingBlock.NewPart 5] [].

(** An entry as [startMutation] commits it. *)
Definition example_committed_entry (cs : MutationCommands)
    (current_tid : TransactionID) (version : Z) : MergeTreeMutationEntry :=
  mkEntry cs current_tid 0 version ("mutation_" +:+ pretty version +:+ ".txt")
    0 false "" MergeTreePartInfo.default 0 "" "".

(** A sort by data version. *)
Definition version_le (a b : PartVersionWithName) : Prop :=
  pv_version a <= pv_version b.

#[global] Instance version_le_dec : RelDecision version_le.
Proof. intros a b. unfold version_le. apply _. Defined.

Definition example_std_sort
    : list PartVersionWithName -> list PartVersionWithName :=
  merge_sort version_le.

Definition example_format (c : MutationCommand.t) : string :=
  match MutationCommand.type c with
  | MutationCommand.UPDATE => "UPDATE"
  | MutationCommand.DROP_COLUMN => "DROP COLUMN"
  | _ => "ALTER"
  end.

(** The example table before its mutations are loaded. *)
Definition example_unloaded : StorageMergeTree :=
  mkStorage false [example_part] ∅ [] ∅ 1 [] [].

(** A merge of the two neighbouring parts. *)
Definition example_merge : FutureMergedMutatedPart :=
  mkFuturePart [example_left; example_right]
    (MergeTreePartInfo.mk "all" 1 6 6 0).

(** * Properties *)

#[local] Set Warnings "-clear-no-such-hyp".

(** ** The ordered map *)

Lemma to_UInt64_add_l a b : to_UInt64 (to_UInt64 a + b) = to_UInt64 (a + b).
Proof. unfold to_UInt64. apply Zplus_mod_idemp_l. Qed.

Lemma to_UInt64_small z : 0 <= z < 2 ^ 64 -> to_UInt64 z = z.
Proof. intros H. unfold to_UInt64. apply Z.mod_small, H. Qed.

Lemma to_UInt64_range z : 0 <= to_UInt64 z < 2 ^ 64.
Proof. unfold to_UInt64. apply Z.mod_pos_bound. lia. Qed.

Lemma to_Int64_small z : - 2 ^ 63 <= z < 2 ^ 63 -> to_Int64 z = z.
Proof. intros H. unfold to_Int64. rewrite Z.mod_small; lia. Qed.

Lemma upper_bound_le k m : (upper_bound k m <= length m)%nat.
Proof.
  induction m as [|[k' e] m IH]; simpl; [lia|].
  destruct (k <? k'); simpl; lia.
Qed.

Lemma sorted_keys_tail kv m : sorted_keys (kv :: m) -> sorted_keys m.
Proof. destruct kv. simpl. tauto. Qed.

Lemma sorted_keys_drop n m : sorted_keys m -> sorted_keys (drop n m).
Proof.
  revert m. induction n as [|n IH]; intros m Hs; [by rewrite drop_0|].
  destruct m as [|kv m]; [done|]. simpl. eauto using sorted_keys_tail.
Qed.

(** On a sorted map the entries from [upper_bound k] on are exactly the
    entries with a key above [k], in the order of the map. *)
Lemma drop_upper_bound k m :
  sorted_keys m ->
  drop (upper_bound k m) m = List.filter (fun kv => k <? kv.1) m.
Proof.
  induction m as [|[k' e] m IH]; intros Hs; [done|].
  destruct Hs as [Hall Hs]. simpl.
  destruct (k <? k') eqn:Hk.
  - simpl. f_equal. symmetry.
    apply forallb_filter_id, forallb_forall. intros [k'' e''] Hin.
    rewrite Forall_forall in Hall. apply list_elem_of_In, Hall in Hin.
    simpl in *. apply Z.ltb_lt. apply Z.ltb_lt in Hk. lia.
  - simpl. auto.
Qed.

Lemma sorted_keys_keys m m' : keys m = keys m' -> sorted_keys m -> sorted_keys m'.
Proof.
  revert m'. induction m as [|[k1 e1] m IH]; intros [|[k2 e2] m'] H Hs;
    try done.
  injection H as -> H. destruct Hs as [Hall Hs]. split; [|by eapply IH].
  rewrite Forall_forall in Hall. apply Forall_forall. intros [k e] Hin.
  assert (k ∈ keys m) as Hk.
  { rewrite H. unfold keys. apply list_elem_of_fmap. by exists (k, e). }
  unfold keys in Hk. apply list_elem_of_fmap in Hk as [[k' e'] [-> Hin']].
  by apply Hall in Hin'.
Qed.

Lemma find_version_lookup k m it :
  find_version k m = Some it -> exists e, m !! it = Some (k, e).
Proof.
  revert it. induction m as [|[k' e'] m IH]; intros it H; [done|].
  simpl in H. destruct (k' =? k) eqn:Hk.
  - apply Z.eqb_eq in Hk. simplify_eq. by exists e'.
  - destruct (find_version k m) as [j|] eqn:Hf; simplify_eq/=. eauto.
Qed.

Lemma find_version_None k m :
  find_version k m = None <-> k ∉ keys m.
Proof.
  induction m as [|[k' e'] m IH]; simpl.
  - split; [intros _; apply not_elem_of_nil | done].
  - destruct (k' =? k) eqn:Hk.
    + apply Z.eqb_eq in Hk. subst. split; [done|]. intros H. exfalso.
      apply H. constructor.
    + apply Z.eqb_neq in Hk. rewrite not_elem_of_cons.
      destruct (find_version k m); simpl.
      * split; [done|]. intros [_ H]. by apply IH in H.
      * split; [|done]. intros _. split; [congruence|]. by apply IH.
Qed.

(** ** Mutation selection *)

Lemma shape_keys m m' : shape m = shape m' -> keys m = keys m'.
Proof.
  unfold shape, keys. revert m'.
  induction m as [|[k e] m IH]; intros [|[k' e'] m'] H; simplify_eq/=;
    [done|]. f_equal. by apply IH.
Qed.

Lemma shape_update_at i f m :
  (forall e, commands (f e) = commands e /\ tid (f e) = tid e) ->
  shape (update_at i f m) = shape m.
Proof.
  intros Hf. unfold shape, update_at. revert i.
  induction m as [|[k e] m IH]; intros [|i]; simpl; try done.
  - by destruct (Hf e) as [-> ->].
  - f_equal. apply IH.
Qed.

Section MutationSelectionProperties.
Variable evaluateCommandsSize : MutationCommands -> Expected Z.
Variable isVisible : DataPart -> Z -> TransactionID -> bool.
Variable tryGetRunningTransaction : TransactionID -> bool.
Variable tryReserveSpace : DataPart -> bool.
Variable now : Z.
Variable max_source_part_size : Z.
Variable max_ast_elements : Z.

Local Abbreviation size_of := (mutation_size evaluateCommandsSize).
Local Abbreviation accumulated := (accumulated_size evaluateCommandsSize).
Local Abbreviation may_squash :=
  (squashable evaluateCommandsSize max_ast_elements).
Local Abbreviation squash_from :=
  (squash evaluateCommandsSize max_ast_elements).
Local Abbreviation select_parts :=
  (select_in_parts evaluateCommandsSize isVisible tryGetRunningTransaction
     tryReserveSpace now max_source_part_size max_ast_elements).
Local Abbreviation selected :=
  (selection evaluateCommandsSize isVisible tryGetRunningTransaction
     tryReserveSpace now max_source_part_size max_ast_elements).
Local Abbreviation passed :=
  (passed_over evaluateCommandsSize isVisible tryGetRunningTransaction now
     max_source_part_size max_ast_elements).
Local Abbreviation looked_at :=
  (eligible isVisible now max_source_part_size).

(** The loop of lines 1396-1405 adds up the AST sizes of the barrier
    commands. *)
Lemma barrier_ast_sum cs : forall a,
  to_UInt64 a = a ->
  foldl (fun acc command =>
           if MutationCommand.skipsSizeValidation command
           then to_UInt64 (acc + MutationCommand.ast_size command)
           else acc) a cs
  = to_UInt64
      (a + foldr (fun c acc => MutationCommand.ast_size c + acc) 0
             (List.filter MutationCommand.isBarrierCommand cs)).
Proof.
  induction cs as [|c cs IH]; intros a Ha; simpl.
  - by rewrite Z.add_0_r.
  - change (MutationCommand.skipsSizeValidation c)
      with (MutationCommand.isBarrierCommand c).
    destruct (MutationCommand.isBarrierCommand c); simpl.
    + rewrite IH.
      * rewrite to_UInt64_add_l. f_equal. lia.
      * unfold to_UInt64. by rewrite Z.mod_mod.
    + by apply IH.
Qed.

(** The size the code computes for an entry is the size of its commands. *)
Lemma commands_size_of_size entry :
  size_of (commands entry)
  = match commands_size_of evaluateCommandsSize entry with
    | Value n => Some n
    | Raised _ => None
    end.
Proof.
  unfold mutation_size, commands_size_of.
  rewrite barrier_ast_sum by done. rewrite Z.add_0_l.
  change (fun command => negb (MutationCommand.skipsSizeValidation command))
    with (fun c => negb (MutationCommand.isBarrierCommand c)).
  destruct (List.filter (fun c => negb (MutationCommand.isBarrierCommand c))
              (commands entry)) as [|c l]; simpl; [done|].
  destruct (evaluateCommandsSize (c :: l)); [|done].
  by rewrite to_UInt64_add_l.
Qed.

Lemma squashed_commands_app a b :
  squashed_commands (a ++ b) = squashed_commands a ++ squashed_commands b.
Proof. unfold squashed_commands. by rewrite fmap_app, concat_app. Qed.

Lemma accumulated_size_snoc taken t n :
  size_of t.1.2 = Some n ->
  accumulated (taken ++ [t]) = to_UInt64 (accumulated taken + n).
Proof.
  intros Hn. unfold accumulated_size. rewrite to_UInt64_add_l. f_equal.
  induction taken as [|t' taken IH]; simpl.
  - rewrite Hn. simpl. lia.
  - rewrite IH. lia.
Qed.

Lemma squashable_take first l k :
  may_squash first l -> may_squash first (take k l).
Proof.
  intros (Hall & Hsize & Hbar). split; [by apply Forall_take|]. split.
  - intros n Hn. rewrite length_take in Hn. rewrite take_take.
    replace (n `min` k)%nat with n by lia. apply Hsize. lia.
  - intros j t Hj Hb. apply lookup_take_Some in Hj as [Hj Hlt].
    destruct (Hbar j t Hj Hb) as [Hlen Hcmd]. split.
    + rewrite length_take. lia.
    + rewrite take_take. by replace (j `min` k)%nat with j by lia.
Qed.

Lemma squashable_snoc first taken t :
  may_squash first taken ->
  Forall (fun t => containBarrierCommand t.1.2 = false) taken ->
  t.2 = first ->
  is_Some (size_of t.1.2) ->
  accumulated (taken ++ [t]) < max_ast_elements ->
  (containBarrierCommand t.1.2 = true -> squashed_commands taken = []) ->
  may_squash first (taken ++ [t]).
Proof.
  intros (Hall & Hsize & Hbar) Hnobar Htid Hsome Hacc Hcmd. split; [|split].
  - apply Forall_app. split; [done|]. by constructor.
  - intros n Hn. rewrite length_app in Hn. simpl in Hn.
    destruct (decide (n <= length taken)%nat).
    + rewrite take_app_le by done. apply Hsize. lia.
    + rewrite take_ge by (rewrite length_app; simpl; lia). done.
  - intros j t' Hj Hb. destruct (decide (j < length taken)%nat) as [Hlt|Hge].
    + rewrite lookup_app_l in Hj by done.
      rewrite Forall_lookup in Hnobar. specialize (Hnobar j t' Hj).
      simpl in Hnobar. congruence.
    + rewrite lookup_app_r in Hj by lia.
      destruct (j - length taken)%nat as [|k] eqn:Hk; [|done].
      simplify_eq/=. assert (j = length taken) as -> by lia.
      split; [rewrite length_app; simpl; lia|].
      rewrite take_app_length. by apply Hcmd.
Qed.

(** A run that goes on with a mutation the loop stops at cannot be
    squashed. *)
Lemma not_squashable_snoc first taken t more :
  t.2 <> first
  \/ size_of t.1.2 = None
  \/ max_ast_elements <= accumulated (taken ++ [t])
  \/ (containBarrierCommand t.1.2 = true /\ squashed_commands taken <> []) ->
  ~ may_squash first (taken ++ t :: more).
Proof.
  intros Hbad Hsq. apply (squashable_take _ _ (S (length taken))) in Hsq.
  rewrite cons_middle, app_assoc in Hsq.
  rewrite take_app_length' in Hsq by (rewrite length_app; simpl; lia).
  destruct Hsq as (Hall & Hsize & Hbar).
  rewrite Forall_app, Forall_singleton in Hall.
  destruct Hall as [_ [Htid Hsome]].
  destruct Hbad as [Hbad|[Hbad|[Hbad|[Hb Hcmd]]]]; [done| | |].
  - rewrite Hbad in Hsome. by destruct Hsome.
  - specialize (Hsize (S (length taken))).
    rewrite take_ge in Hsize by (rewrite length_app; simpl; lia).
    rewrite length_app in Hsize. simpl in Hsize. lia.
  - destruct (Hbar (length taken) t) as [_ Hnil]; [|done|].
    + by rewrite list_lookup_middle.
    + by rewrite take_app_length in Hnil.
Qed.

(** The squash loop, entered after the run [taken], takes the longest run
    of [rest] that may be squashed after it. *)
Lemma squash_is_batch first rest : forall taken it cmds cur last,
  may_squash first taken ->
  Forall (fun t => containBarrierCommand t.1.2 = false) taken ->
  cmds = squashed_commands taken ->
  cur = accumulated taken ->
  exists n,
    (n <= length rest)%nat
    /\ sq_commands (squash_from first it rest cmds cur last)
       = squashed_commands (taken ++ take n (shape rest))
    /\ sq_last_mutation_to_apply (squash_from first it rest cmds cur last)
       = (if n is O then last else it + n - 1)%nat
    /\ may_squash first (taken ++ take n (shape rest))
    /\ forall n', (n < n' <= length rest)%nat ->
         ~ may_squash first (taken ++ take n' (shape rest)).
Proof.
  induction rest as [|[v entry] rest IH];
    intros taken it cmds cur last Hsq Hnobar -> ->.
  { exists O. simpl. rewrite app_nil_r. split; [lia|]. split; [done|].
    split; [done|]. split; [done|]. intros n' Hn'. lia. }
  set (t := (v, commands entry, tid entry)).
  assert (forall r,
            sq_commands r = squashed_commands taken ->
            sq_last_mutation_to_apply r = last ->
            (t.2 <> first
             \/ size_of t.1.2 = None
             \/ max_ast_elements <= accumulated (taken ++ [t])
             \/ (containBarrierCommand t.1.2 = true
                 /\ squashed_commands taken <> [])) ->
            exists n,
              (n <= length ((v, entry) :: rest))%nat
              /\ sq_commands r
                 = squashed_commands (taken ++ take n (shape ((v, entry) :: rest)))
              /\ sq_last_mutation_to_apply r
                 = (if n is O then last else it + n - 1)%nat
              /\ may_squash first (taken ++ take n (shape ((v, entry) :: rest)))
              /\ forall n', (n < n' <= length ((v, entry) :: rest))%nat ->
                   ~ may_squash first
                       (taken ++ take n' (shape ((v, entry) :: rest))))
    as Hstop.
  { intros r Hcmds Hlast Hbad. exists O. simpl. rewrite app_nil_r.
    split; [lia|]. split; [done|]. split; [done|]. split; [done|].
    intros [|n'] Hn'; [lia|]. simpl. by apply not_squashable_snoc. }
  pose proof (commands_size_of_size entry) as Hsize.
  cbn [squash]. case_bool_decide as Htid; simpl negb; cbn iota.
  2:{ apply Hstop; [done|done|]. left. simpl. congruence. }
  destruct (commands_size_of evaluateCommandsSize entry) as [sz|e].
  2:{ apply Hstop; [done|done|]. right. by left. }
  assert (accumulated (taken ++ [t]) = to_UInt64 (accumulated taken + sz))
    as Hacc by (by apply accumulated_size_snoc).
  destruct (max_ast_elements <=? to_UInt64 (accumulated taken + sz)) eqn:Hmax.
  { apply Hstop; [done|done|]. right. right. left. rewrite Hacc. lia. }
  destruct (containBarrierCommand (commands entry)) eqn:Hbar.
  - destruct (squashed_commands taken) as [|c cmds] eqn:Hcmds; simpl is_empty;
      cbn iota.
    2:{ apply Hstop; [done|done|]. right. right. right. by split. }
    assert (may_squash first (taken ++ [t])) as Hsq'.
    { apply squashable_snoc; try done. rewrite Hacc. lia. }
    exists 1%nat. simpl. rewrite take_0.
    split; [lia|]. split.
    { rewrite squashed_commands_app, Hcmds. unfold squashed_commands. simpl.
      by rewrite app_nil_r. }
    split; [lia|]. split; [done|].
    intros [|[|n']] Hn'; [lia|lia|]. simpl.
    destruct rest as [|[v' entry'] rest]; [simpl in Hn'; lia|]. simpl.
    intros (_ & _ & Hb).
    destruct (Hb (length taken) t) as [Hlen _]; [|done|].
    + by rewrite list_lookup_middle.
    + rewrite length_app in Hlen. simpl in Hlen. lia.
  - destruct (IH (taken ++ [t]) (S it)
                (squashed_commands taken ++ commands entry)
                (to_UInt64 (accumulated taken + sz)) it)
      as (n & Hn & Hc & Hl & Hs & Hmaximal).
    + apply squashable_snoc; try done.
      * rewrite Hacc. lia.
      * unfold t. simpl. congruence.
    + apply Forall_app. split; [done|]. by constructor.
    + rewrite squashed_commands_app. unfold squashed_commands at 3. simpl.
      by rewrite app_nil_r.
    + done.
    + exists (S n). simpl. rewrite cons_middle, app_assoc.
      split; [lia|]. split; [done|]. split.
      { rewrite Hl. destruct n; lia. }
      split; [done|]. intros [|n'] Hn'; [lia|]. simpl.
      rewrite cons_middle, app_assoc. apply Hmaximal. lia.
Qed.

Lemma record_failure_shape r m :
  shape (record_size_validation_failure now r m) = shape m.
Proof.
  unfold record_size_validation_failure.
  destruct (sq_failed r) as [[i e]|]; [|done]. by apply shape_update_at.
Qed.

Lemma shape_pending k m :
  sorted_keys m -> shape (drop (upper_bound k m) m) = pending_after k (shape m).
Proof.
  intros Hs. rewrite drop_upper_bound by done. clear Hs.
  unfold shape, pending_after.
  induction m as [|[k' e] m IH]; simpl; [done|].
  destruct (k <? k'); simpl; [f_equal|]; apply IH.
Qed.

Lemma selection_shape ps s0 s r :
  shape (current_mutations_by_version s0) = shape (current_mutations_by_version s) ->
  currently_merging_mutating_parts s0 = currently_merging_mutating_parts s ->
  mutation_backoff_policy s0 = mutation_backoff_policy s ->
  selected ps s0 r -> selected ps s r.
Proof.
  intros Hsh Hb Hbk.
  unfold selection, passed_over, eligible, origin_usable, todo.
  by rewrite Hsh, Hb, Hbk.
Qed.

Lemma selection_cons part ps s r :
  passed s part -> selected ps s r -> selected (part :: ps) s r.
Proof.
  intros Hpass [Hshape Hr]. split; [done|].
  destruct (r.1) as [[sel|]|c].
  - destruct Hr as (i & p & batch & l & Hi & Hbefore & Hrest).
    exists (S i), p, batch, l. split; [done|]. split; [|done].
    intros [|j] q Hj Hq; simplify_eq/=; [done|]. apply (Hbefore j); [lia|done].
  - intros p Hp. apply elem_of_cons in Hp as [->|Hp]; [done|by apply Hr].
  - destruct Hr as (i & p & Hi & Hbefore & Hrest).
    exists (S i), p. split; [done|]. split; [|done].
    intros [|j] q Hj Hq; simplify_eq/=; [done|]. apply (Hbefore j); [lia|done].
Qed.

Lemma select_in_parts_selection ps : forall s0,
  sorted_keys (current_mutations_by_version s0) ->
  selected ps s0 (select_parts ps s0).
Proof.
  induction ps as [|part ps IH]; intros s0 Hsorted.
  { split; [done|]. simpl. intros part Hin. by apply elem_of_nil in Hin. }
  assert (forall s1,
            shape (current_mutations_by_version s1)
            = shape (current_mutations_by_version s0) ->
            currently_merging_mutating_parts s1
            = currently_merging_mutating_parts s0 ->
            mutation_backoff_policy s1 = mutation_backoff_policy s0 ->
            passed s0 part ->
            selected (part :: ps) s0 (select_parts ps s1)) as Hskip.
  { intros s1 Hsh Hb Hbk Hpass. apply selection_cons; [done|].
    apply (selection_shape ps s1 s0); try done. apply IH.
    eapply sorted_keys_keys; [|exact Hsorted]. symmetry. by apply shape_keys. }
  pose proof (shape_pending
                (to_UInt64 (MergeTreePartInfo.getDataVersion (info part)))
                (current_mutations_by_version s0) Hsorted) as Htodo.
  fold (todo s0 part) in Htodo.
  cbn [select_in_parts].
  case_bool_decide as Hbusy.
  { apply Hskip; try done. left. by intros (Hnb & _). }
  destruct (drop _ (current_mutations_by_version s0))
    as [|[v first_mutation] rest] eqn:Hdrop.
  { apply Hskip; try done. left. intros (_ & _ & _ & t & Ht & _).
    rewrite <- Htodo in Ht. done. }
  assert (forall t, head (todo s0 part) = Some t
                    -> t = (v, commands first_mutation, tid first_mutation))
    as Hhead.
  { intros t Ht. rewrite <- Htodo in Ht. by simplify_eq/=. }
  destruct (max_source_part_size <? bytes_on_disk part) eqn:Hsize.
  { apply Hskip; try done. left. intros (_ & Hle & _).
    apply Z.ltb_lt in Hsize. lia. }
  destruct (negb (PartMutationBackoffPolicy.partCanBeMutated now (name part)
                    (mutation_backoff_policy s0))) eqn:Hbackoff.
  { apply Hskip; try done. left. intros (_ & _ & Hcan & _).
    by rewrite Hcan in Hbackoff. }
  apply negb_false_iff in Hbackoff.
  destruct (negb (isPrehistoric (tid first_mutation))
            && negb (isVisible part (start_csn (tid first_mutation))
                       (tid first_mutation))) eqn:Hvisible.
  { apply Hskip; try done. left. intros (_ & _ & _ & t & Ht & Hv).
    apply Hhead in Ht as ->. simpl in Hv.
    apply andb_true_iff in Hvisible as [Hp Hv'].
    apply negb_true_iff in Hp, Hv'. destruct Hv; congruence. }
  assert (looked_at s0 part) as Heligible.
  { split; [done|]. split; [apply Z.ltb_ge in Hsize; lia|]. split; [done|].
    exists (v, commands first_mutation, tid first_mutation).
    split; [by rewrite <- Htodo|]. simpl.
    apply andb_false_iff in Hvisible as [Hp|Hv].
    - left. by apply negb_false_iff in Hp.
    - right. by apply negb_false_iff in Hv. }
  destruct (negb (isPrehistoric (tid first_mutation))
            && negb (bool_decide
                       (is_Some (tryGetTransactionForMutation
                                   tryGetRunningTransaction first_mutation))))
    eqn:Htxn.
  { split; [done|]. simpl. exists O, part. split; [done|].
    split; [intros j p Hj; lia|]. split; [done|]. left. split; [done|].
    intros Husable.
    apply andb_true_iff in Htxn as [Hp Hrun]. apply negb_true_iff in Hp, Hrun.
    apply bool_decide_eq_false in Hrun.
    unfold tryGetTransactionForMutation in Hrun. rewrite Hp in Hrun.
    destruct (Husable (v, commands first_mutation, tid first_mutation))
      as [Hp'|Hrun']; [by rewrite <- Htodo|simpl in *; congruence|].
    simpl in Hrun'. rewrite Hrun' in Hrun. apply Hrun. by eexists. }
  assert (origin_usable tryGetRunningTransaction s0 part) as Husable.
  { intros t Ht. apply Hhead in Ht as ->. simpl.
    apply andb_false_iff in Htxn as [Hp|Hrun].
    - left. by apply negb_false_iff in Hp.
    - apply negb_false_iff, bool_decide_eq_true in Hrun.
      unfold tryGetTransactionForMutation in Hrun.
      destruct (isPrehistoric (tid first_mutation)); [by left|].
      destruct (tryGetRunningTransaction (tid first_mutation)); [by right|].
      by destruct Hrun. }
  set (begin_it := upper_bound _ (current_mutations_by_version s0)) in *.
  destruct (squash_is_batch (tid first_mutation)
              ((v, first_mutation) :: rest) [] begin_it [] 0
              (length (current_mutations_by_version s0)))
    as (n & Hn & Hcmds & Hlast & Hsq & Hmaximal).
  { split; [constructor|]. split; [simpl; intros; lia|]. by intros [|?] ?. }
  { constructor. }
  { done. }
  { done. }
  rewrite app_nil_l in Hcmds, Hsq.
  assert (is_batch evaluateCommandsSize max_ast_elements (todo s0 part)
            (take n (todo s0 part))) as Hbatch.
  { exists n, (tid first_mutation). rewrite <- Htodo.
    split; [done|]. split; [done|]. split; [done|].
    intros n' Hn'. specialize (Hmaximal n'). rewrite app_nil_l in Hmaximal.
    apply Hmaximal. simpl in Hn' |- *. unfold shape in Hn'.
    rewrite length_fmap in Hn'. lia. }
  set (r := squash_from _ _ _ _ _ _) in *.
  set (s1 := with_mutations _ s0).
  assert (shape (current_mutations_by_version s1)
          = shape (current_mutations_by_version s0)) as Hshape1
    by apply record_failure_shape.
  destruct (negb (is_empty (sq_commands r))) eqn:Hempty.
  2:{ apply negb_false_iff in Hempty.
    apply Hskip; try done. right. split; [done|].
    exists (take n (todo s0 part)). split; [done|].
    rewrite <- Htodo, <- Hcmds. by destruct (sq_commands r). }
  apply negb_true_iff in Hempty.
  assert (squashed_commands (take n (todo s0 part)) <> []) as Hnonempty.
  { rewrite <- Htodo, <- Hcmds. by destruct (sq_commands r). }
  destruct n as [|n]; [by rewrite take_0 in Hnonempty|].
  assert (exists kv, current_mutations_by_version s0 !! (begin_it + n)%nat = Some kv
                     /\ last (take (S n) (todo s0 part))
                        = Some (kv.1, commands kv.2, tid kv.2))
    as (kv & Hkv & Hlast_batch).
  { destruct (lookup_lt_is_Some_2 ((v, first_mutation) :: rest) n) as [kv Hkv];
      [lia|].
    exists kv. split.
    - rewrite <- Hdrop in Hkv. by rewrite lookup_drop in Hkv.
    - rewrite last_lookup, length_take.
      rewrite <- Htodo. unfold shape at 1. rewrite length_fmap.
      replace (Init.Nat.pred (S n `min` length ((v, first_mutation) :: rest)))
        with n by lia.
      rewrite lookup_take_lt by lia. unfold shape.
      by rewrite list_lookup_fmap, Hkv. }
  rewrite Hlast. replace (begin_it + S n - 1)%nat with (begin_it + n)%nat by lia.
  rewrite Hkv. simpl.
  assert (tid kv.2 = tid first_mutation) as Hsame.
  { destruct Hsq as (Hall & _). rewrite Forall_lookup in Hall.
    apply last_Some_elem_of in Hlast_batch as Hin.
    rewrite <- Htodo in Hin. apply list_elem_of_lookup in Hin as [j Hj].
    by destruct (Hall j _ Hj). }
  unfold tag_for_mutation.
  destruct (tryReserveSpace part) eqn:Hreserve; simpl negb; cbn iota.
  2:{ split; [done|]. simpl. exists O, part. split; [done|].
      split; [intros j p Hj; lia|]. split; [done|]. right.
      split; [done|]. split; [done|]. split; [done|].
      by exists (take (S n) (todo s0 part)). }
  rewrite bool_decide_eq_false_2 by done.
  split; [done|]. simpl.
  exists O, part, (take (S n) (todo s0 part)), (kv.1, commands kv.2, tid kv.2).
  split; [done|]. split; [intros j p Hj; lia|]. split; [done|].
  split; [done|]. split; [done|]. split; [done|]. split; [done|].
  split; [done|]. simpl. rewrite <- Htodo, <- Hcmds. f_equal.
  unfold tryGetTransactionForMutation. rewrite Hsame.
  destruct (isPrehistoric (tid first_mutation)) eqn:Hp; [done|].
  destruct (Husable (v, commands first_mutation, tid first_mutation))
    as [Hp'|Hrun]; [by rewrite <- Htodo|simpl in *; congruence|].
  simpl in Hrun. by rewrite Hrun.
Qed.

(** C1. [selectPartsToMutate] looks at the Active parts in order and decides
    on the first one that is not busy, has mutations to apply and passes
    the size, backoff and visibility guards, unless the batch of that part
    holds no command. The batch is made of the mutations with a version
    above the data version of the part, taken in ascending version order
    from the smallest one; it is the longest such run whose mutations share
    the origin transaction of the first one and have a size, whose
    accumulated command size stays below [max_expanded_ast_elements], and in
    which a mutation with a barrier command comes last and is taken only
    when no command has been accumulated before it. The selected entry
    carries the commands of the batch, and its future part carries
    mutation = the version of the last mutation of the batch. Nothing is
    selected only when every part is passed over, or when the size limit
    for source parts is 0; the selection throws only when the origin
    transaction of the first mutation of the deciding part is gone, or when
    no space can be reserved for it. Versions are [UInt64] keys: the data
    version of a part is compared as the key it converts to, and the
    version of the last mutation is read as the [Int64] the part info
    holds. *)
Theorem selectPartsToMutate_batch s :
  sorted_keys (current_mutations_by_version s) ->
  let r := selectPartsToMutate evaluateCommandsSize isVisible
             tryGetRunningTransaction tryReserveSpace now max_source_part_size
             max_ast_elements s in
  (max_source_part_size = 0 -> r = (Return None, s))
  /\ (max_source_part_size <> 0 ->
      selected (List.filter (fun part => bool_decide (state part = Active))
                  (data_parts_by_info s)) s r).
Proof.
  intros Hsorted r. subst r. unfold selectPartsToMutate. split.
  - intros ->. simpl. by destruct (is_empty (current_mutations_by_version s)).
  - intros Hmax.
    destruct (is_empty (current_mutations_by_version s)) eqn:Hempty.
    + split; [done|]. simpl. intros part _. left.
      intros (_ & _ & _ & t & Ht & _). unfold todo in Ht.
      destruct (current_mutations_by_version s); [done|done].
    + destruct (max_source_part_size =? 0) eqn:Hzero;
        [apply Z.eqb_eq in Hzero; done|].
      by apply select_in_parts_selection.
Qed.
End MutationSelectionProperties.

(** ** Waiting for committing blocks *)

Lemma filter_none {A} (f : A -> bool) (l : list A) :
  (forall a, a ∈ l -> f a = false) -> List.filter f l = [].
Proof.
  induction l as [|a l IH]; intros H; [done|]. simpl.
  rewrite (H a) by constructor. apply IH. intros a' Hin.
  by apply H, list_elem_of_further.
Qed.

Lemma all_committed_blocking max_block_number blocks :
  sorted_blocks blocks ->
  all_committed max_block_number blocks = true
  <-> blocking max_block_number blocks = [].
Proof.
  unfold blocking.
  induction blocks as [|b blocks IH]; intros Hs; [done|].
  destruct Hs as [Hall Hs]. simpl.
  destruct (max_block_number <=? CommittingBlock.number b) eqn:Hmax.
  - apply Z.leb_le in Hmax.
    replace (CommittingBlock.number b <? max_block_number) with false
      by (symmetry; apply Z.ltb_ge; lia).
    simpl. split; [intros _|done].
    apply filter_none.
    intros b' Hin. rewrite Forall_forall in Hall. apply Hall in Hin.
    replace (CommittingBlock.number b' <? max_block_number) with false
      by (symmetry; apply Z.ltb_ge; lia).
    done.
  - apply Z.leb_gt in Hmax.
    replace (CommittingBlock.number b <? max_block_number) with true
      by (symmetry; apply Z.ltb_lt; lia).
    simpl. destruct (negb (bool_decide (CommittingBlock.op b = CommittingBlock.Update)));
      [done|]. by apply IH.
Qed.

Lemma wait_for_Exists {S} (pred : S -> bool) snapshots at_timeout :
  wait_for pred snapshots at_timeout = true
  <-> Exists (fun s => pred s = true) (snapshots ++ [at_timeout]).
Proof.
  induction snapshots as [|s snapshots IH]; simpl.
  - rewrite Exists_cons, Exists_nil. tauto.
  - rewrite Exists_cons. destruct (pred s); [tauto|].
    rewrite IH. split; [tauto|]. by intros [?|?].
Qed.

(** C2. [waitForCommittingInsertsAndMutations] returns normally exactly when,
    at entry, at a wake-up before the deadline or at the deadline, no
    committing block with number < max_block_number and op <> Update is left
    in the set; otherwise it throws TIMEOUT_EXCEEDED. Blocks with op = Update
    or number >= max_block_number play no role. *)
Theorem waitForCommittingInsertsAndMutations_spec max_block_number snapshots at_timeout :
  Forall sorted_blocks (snapshots ++ [at_timeout]) ->
  (Exists (fun blocks => blocking max_block_number blocks = [])
     (snapshots ++ [at_timeout])
   -> waitForCommittingInsertsAndMutations max_block_number snapshots at_timeout
      = Return tt)
  /\ (~ Exists (fun blocks => blocking max_block_number blocks = [])
        (snapshots ++ [at_timeout])
      -> waitForCommittingInsertsAndMutations max_block_number snapshots at_timeout
         = Throw ErrorCodes.TIMEOUT_EXCEEDED).
Proof.
  intros Hsorted. unfold waitForCommittingInsertsAndMutations.
  assert (Exists (fun blocks => blocking max_block_number blocks = [])
            (snapshots ++ [at_timeout])
          <-> wait_for (all_committed max_block_number) snapshots at_timeout = true)
    as Hiff.
  { rewrite wait_for_Exists. rewrite !Exists_exists. rewrite Forall_forall in Hsorted.
    split; intros (blocks & Hin & H); exists blocks; split; try done;
      by apply all_committed_blocking; [apply Hsorted|]. }
  split; intros H.
  - apply Hiff in H. by rewrite H.
  - destruct (wait_for (all_committed max_block_number) snapshots at_timeout);
      [|done]. exfalso. by apply H, Hiff.
Qed.

(** ** Startup and the allocator *)

Lemma try_emplace_elem k e m kv :
  kv ∈ (try_emplace k e m).1 -> kv = (k, e) \/ kv ∈ m.
Proof.
  induction m as [|[k' e'] m IH]; simpl.
  - intros H. apply list_elem_of_singleton in H. by left.
  - destruct (k <? k'); simpl.
    { intros H. apply elem_of_cons in H as [->|H]; [by left|by right]. }
    destruct (k =? k'); simpl; [by right|].
    destruct (try_emplace k e m) as [m'' inserted]. simpl in *.
    intros H. apply elem_of_cons in H as [->|H].
    + right. constructor.
    + destruct (IH H) as [->|Hin]; [by left|]. right. by constructor.
Qed.

Lemma try_emplace_sorted k e m :
  sorted_keys m -> sorted_keys (try_emplace k e m).1.
Proof.
  induction m as [|[k' e'] m IH]; intros Hs; simpl; [by split|].
  destruct Hs as [Hall Hs].
  destruct (k <? k') eqn:Hlt; simpl.
  { apply Z.ltb_lt in Hlt. split; [|by split]. constructor; [done|].
    eapply Forall_impl; [exact Hall|]. intros [k2 e2] ?. simpl in *. lia. }
  destruct (k =? k') eqn:Heq; simpl; [by split|].
  apply Z.ltb_ge in Hlt. apply Z.eqb_neq in Heq.
  pose proof (try_emplace_elem k e m) as Helem.
  destruct (try_emplace k e m) as [m'' inserted]. simpl in *.
  split; [|by apply IH]. apply Forall_forall. intros kv Hin.
  destruct (Helem kv Hin) as [->|Hin']; simpl; [lia|].
  rewrite Forall_forall in Hall. by apply Hall.
Qed.

Lemma last_key_max m v kv :
  sorted_keys m -> last_key m = Some v -> kv ∈ m -> kv.1 <= v.
Proof.
  unfold last_key. revert kv.
  induction m as [|[k e] m IH]; intros kv Hs Hlast Hin;
    [by apply elem_of_nil in Hin|].
  destruct Hs as [Hall Hs]. destruct m as [|kv' m].
  - apply list_elem_of_singleton in Hin. simplify_eq/=. lia.
  - apply elem_of_cons in Hin as [->|Hin].
    + simpl. assert (kv'.1 <= v) as Hle.
      { apply IH; [done|done|constructor]. }
      apply Forall_cons in Hall as [Hlt _]. simpl in Hlt. lia.
    + by apply IH.
Qed.

Lemma last_key_None m : last_key m = None -> m = [].
Proof.
  unfold last_key. destruct (last m) eqn:Hl; [done|]. intros _.
  by apply last_None.
Qed.

Lemma getMaxBlockNumber_bounds s :
  0 <= getMaxBlockNumber s
  /\ (forall p, p ∈ data_parts_by_info s ->
        MergeTreePartInfo.max_block (info p) <= getMaxBlockNumber s)
  /\ (Forall (fun p => MergeTreePartInfo.max_block (info p) <= Int64_max)
        (data_parts_by_info s) -> getMaxBlockNumber s <= Int64_max).
Proof.
  unfold getMaxBlockNumber.
  induction (data_parts_by_info s) as [|p ps (IH0 & IH1 & IH2)]; simpl.
  - split; [lia|]. split; [by intros p H; apply elem_of_nil in H|].
    intros _. unfold Int64_max. lia.
  - split; [lia|]. split.
    + intros p' Hin. apply elem_of_cons in Hin as [->|Hin]; [lia|].
      apply IH1 in Hin. lia.
    + intros Hall. apply Forall_cons in Hall as [Hp Hall].
      apply IH2 in Hall. lia.
Qed.

(** Every block allocated from a state is numbered above its high-water
    mark, as long as the counter stays within the signed 64-bit range. *)
Lemma allocate_all_above ops : forall s blocks s',
  0 <= increment s ->
  increment s + Z.of_nat (length ops) <= Int64_max ->
  allocate_all ops s = (blocks, s') ->
  Forall (fun b => increment s < CommittingBlock.number b) blocks.
Proof.
  induction ops as [|op ops IH]; intros s blocks s' H0 Hmax H; simpl in H.
  { simplify_eq. constructor. }
  unfold allocateBlockNumber, increment_get in H.
  set (v := to_UInt64 (increment s + 1)) in *.
  assert (v = increment s + 1) as Hv.
  { apply to_UInt64_small. unfold Int64_max in Hmax. simpl length in Hmax. lia. }
  set (s1 := with_committing _ _) in H.
  destruct (allocate_all ops s1) as [bs s2] eqn:Hrest. simplify_eq.
  assert (increment s1 = increment s + 1) as Hinc by (simpl; lia).
  apply IH in Hrest; [|lia|simpl length in Hmax; lia].
  constructor.
  - simpl. rewrite to_Int64_small; [lia|].
    unfold Int64_max in Hmax. simpl length in Hmax. lia.
  - eapply Forall_impl; [exact Hrest|]. intros b Hb. simpl in Hb. lia.
Qed.

Section StartupProperties.
Variable getCSN : TransactionID -> Z.
Variable assertTIDIsNotOutdated : TransactionID -> Result unit.

Lemma emplace_loaded_inv k entry s s' :
  emplace_loaded k entry s = Return s' ->
  increment s' = increment s
  /\ data_parts_by_info s' = data_parts_by_info s
  /\ (sorted_keys (current_mutations_by_version s) ->
      sorted_keys (current_mutations_by_version s')).
Proof.
  unfold emplace_loaded. intros H.
  pose proof (try_emplace_sorted k entry (current_mutations_by_version s)) as Hs.
  destruct (try_emplace k entry (current_mutations_by_version s)) as [m inserted].
  destruct inserted; simplify_eq/=. done.
Qed.

Lemma load_directory_inv entries : forall s s',
  load_directory getCSN assertTIDIsNotOutdated entries s = Return s' ->
  increment s' = increment s
  /\ data_parts_by_info s' = data_parts_by_info s
  /\ (sorted_keys (current_mutations_by_version s) ->
      sorted_keys (current_mutations_by_version s')).
Proof.
  induction entries as [|it entries IH]; intros s s' H; simpl in H.
  { by simplify_eq. }
  destruct (startsWith (file it) "mutation_").
  - destruct (negb (isPrehistoric (tid (parsed it))) && (csn (parsed it) =? 0)).
    + destruct (negb (getCSN (tid (parsed it)) =? 0)).
      * destruct (emplace_loaded _ _ _) as [s1|] eqn:He; [|done]. simpl in H.
        apply emplace_loaded_inv in He as (? & ? & ?).
        apply IH in H as (? & ? & ?). simpl in *. repeat split; try congruence.
        auto.
      * destruct (assertTIDIsNotOutdated (tid (parsed it))); [|done]. simpl in H.
        apply IH in H as (? & ? & ?). simpl in *. done.
    + destruct (emplace_loaded _ _ _) as [s1|] eqn:He; [|done]. simpl in H.
      apply emplace_loaded_inv in He as (? & ? & ?).
      apply IH in H as (? & ? & ?). repeat split; try congruence. auto.
  - destruct (startsWith (file it) "tmp_mutation_").
    + apply IH in H as (? & ? & ?). simpl in *. done.
    + by apply IH.
Qed.

Lemma load_disks_inv disks : forall s s',
  load_disks getCSN assertTIDIsNotOutdated disks s = Return s' ->
  increment s' = increment s
  /\ data_parts_by_info s' = data_parts_by_info s
  /\ (sorted_keys (current_mutations_by_version s) ->
      sorted_keys (current_mutations_by_version s')).
Proof.
  induction disks as [|disk disks IH]; intros s s' H; simpl in H.
  { by simplify_eq. }
  destruct (load_directory _ _ disk s) as [s1|] eqn:Hd; [|done]. simpl in H.
  apply load_directory_inv in Hd as (? & ? & ?).
  apply IH in H as (? & ? & ?). repeat split; try congruence. auto.
Qed.

(** After construction the high-water mark is at least every block number
    seen on disk. *)
Lemma construct_high_water_mark mode_below_attach static loaded_parts disks s :
  Forall (fun p => MergeTreePartInfo.max_block (info p) <= Int64_max) loaded_parts ->
  construct getCSN assertTIDIsNotOutdated mode_below_attach static loaded_parts disks
  = Return s ->
  data_parts_by_info s = loaded_parts
  /\ 0 <= increment s
  /\ (forall p, p ∈ loaded_parts ->
        MergeTreePartInfo.max_block (info p) <= increment s)
  /\ (forall kv, kv ∈ current_mutations_by_version s -> kv.1 <= increment s).
Proof.
  intros Hrange H. unfold construct in H.
  set (s0 := mkStorage static loaded_parts ∅ [] ∅ 0 [] []) in *.
  destruct (mode_below_attach && _ && _); [done|].
  unfold loadMutations in H.
  destruct (load_disks _ _ disks _) as [s1|] eqn:Hl; [|done]. simpl in H.
  apply load_disks_inv in Hl as (Hinc & Hparts & Hsorted). simpl in *.
  specialize (Hsorted I).
  destruct (getMaxBlockNumber_bounds s0) as (H0 & Hmax & Hle).
  specialize (Hle Hrange).
  rewrite to_UInt64_small in Hinc by (unfold Int64_max in Hle; lia).
  destruct (last_key (current_mutations_by_version s1)) as [v|] eqn:Hlast;
    simplify_eq/=.
  - split; [done|]. split; [lia|]. split.
    + intros p Hp. apply Hmax in Hp. lia.
    + intros kv Hin. eapply last_key_max in Hin; [|done|done]. lia.
  - split; [done|]. split; [lia|]. split.
    + intros p Hp. apply Hmax in Hp. lia.
    + intros kv Hin. apply last_key_None in Hlast. rewrite Hlast in Hin.
      by apply elem_of_nil in Hin.
Qed.

(** C3. After construction the allocator's high-water mark [increment] is
    at least the maximum block number of every loaded part and the version
    of every loaded mutation entry, and every block number allocated
    afterwards is strictly greater than all of them (the counter staying
    within the signed 64-bit range of block numbers). *)
Theorem construct_increment_covers_disk mode_below_attach static loaded_parts disks s :
  Forall (fun p => MergeTreePartInfo.max_block (info p) <= Int64_max) loaded_parts ->
  construct getCSN assertTIDIsNotOutdated mode_below_attach static loaded_parts disks
  = Return s ->
  (forall p, p ∈ loaded_parts ->
     MergeTreePartInfo.max_block (info p) <= increment s)
  /\ (forall kv, kv ∈ current_mutations_by_version s -> kv.1 <= increment s)
  /\ (forall ops blocks s',
        increment s + Z.of_nat (length ops) <= Int64_max ->
        allocate_all ops s = (blocks, s') ->
        Forall (fun b =>
                  (forall p, p ∈ loaded_parts ->
                     MergeTreePartInfo.max_block (info p) < CommittingBlock.number b)
                  /\ (forall kv, kv ∈ current_mutations_by_version s ->
                        kv.1 < CommittingBlock.number b))
          blocks).
Proof.
  intros Hrange Hc.
  destruct (construct_high_water_mark _ _ _ _ _ Hrange Hc)
    as (_ & H0 & Hparts & Hmuts).
  split; [done|]. split; [done|].
  intros ops blocks s' Hbound Halloc.
  eapply Forall_impl; [by eapply allocate_all_above|].
  intros b Hb. simpl in Hb. split.
  - intros p Hp. apply Hparts in Hp. lia.
  - intros kv Hkv. apply Hmuts in Hkv. lia.
Qed.
End StartupProperties.


(** ** Recording the outcome of a mutation *)

Lemma upper_bound_above k m :
  Forall (fun kv => k < kv.1) m -> upper_bound k m = 0%nat.
Proof.
  destruct m as [|[k' e] m]; [done|]. intros H. apply Forall_cons in H as [H _].
  simpl in *. by replace (k <? k') with true by (symmetry; apply Z.ltb_lt; lia).
Qed.

Lemma sorted_keys_filter f m : sorted_keys m -> sorted_keys (List.filter f m).
Proof.
  induction m as [|[k e] m IH]; intros Hs; [done|]. destruct Hs as [Hall Hs].
  simpl. destruct (f (k, e)); [|by apply IH]. split; [|by apply IH].
  apply Forall_forall. intros kv Hin.
  apply list_elem_of_In, filter_In in Hin as [Hin _].
  rewrite Forall_forall in Hall. by apply Hall, list_elem_of_In.
Qed.

Section UpdateMutationEntriesErrorsProperties.
Variable backoff_base : Z.
Variable now : Z.
Variable max_postpone_time_for_failed_mutations_ms : Z.
Variable result_part : FutureMergedMutatedPart.
Variable failed_part : DataPart.
Variable is_successful : bool.
Variable exception_message error_code_name : string.

Local Abbreviation step :=
  (update_entry backoff_base now max_postpone_time_for_failed_mutations_ms
     result_part failed_part is_successful exception_message error_code_name).
Local Abbreviation loop :=
  (update_entries backoff_base now max_postpone_time_for_failed_mutations_ms
     result_part failed_part is_successful exception_message error_code_name).
Local Abbreviation rec :=
  (recorded result_part failed_part is_successful now exception_message
     error_code_name).
Local Abbreviation mv := (to_UInt64 (MergeTreePartInfo.mutation (part_info result_part))).

Lemma update_entry_fst v e backoff : (step v e backoff).1 = rec e.
Proof.
  unfold update_entry, recorded. destruct is_successful; [|done].
  by destruct (_ && _).
Qed.

Lemma update_entry_other v e backoff : mv <> v -> (step v e backoff).2 = backoff.
Proof.
  intros Hne. unfold update_entry.
  replace (mv =? v) with false by (symmetry; by apply Z.eqb_neq).
  destruct is_successful; [|done]. by destruct (_ && _).
Qed.

Lemma update_entries_shift rest : forall it end_ backoff,
  loop (S it) (S end_) rest backoff = loop it end_ rest backoff.
Proof.
  induction rest as [|[v e] rest IH]; intros it end_ backoff; simpl.
  - repeat case_bool_decide; try done; lia.
  - repeat case_bool_decide; try done; try lia.
    destruct (step v e backoff) as [e' backoff']. by rewrite IH.
Qed.

(** The loop between [upper_bound source] and [upper_bound result] rewrites
    exactly the entries of the interval and threads the backoff state
    through them. *)
Lemma update_entries_interval src res m : forall backoff,
  sorted_keys m -> src <= res ->
  exists rest,
    loop (upper_bound src m) (upper_bound res m) (drop (upper_bound src m) m) backoff
    = Some (rest,
            foldl (fun bo kv => (step kv.1 kv.2 bo).2) backoff
              (List.filter (fun kv => in_versions src res kv.1) m))
    /\ take (upper_bound src m) m ++ rest
       = (fun kv => if in_versions src res kv.1 then (kv.1, rec kv.2) else kv) <$> m.
Proof.
  induction m as [|[k e] m IH]; intros backoff Hs Hle.
  { exists []. by simpl. }
  destruct Hs as [Hall Hs]. simpl.
  destruct (src <? k) eqn:Hsrc.
  - apply Z.ltb_lt in Hsrc.
    assert (upper_bound src m = 0%nat) as Hb0.
    { apply upper_bound_above. eapply Forall_impl; [exact Hall|].
      intros [k' e'] ?. simpl in *. lia. }
    destruct (res <? k) eqn:Hres.
    + apply Z.ltb_lt in Hres.
      assert (forall kv, kv ∈ (k, e) :: m -> in_versions src res kv.1 = false)
        as Hout.
      { intros [k' e'] Hin. unfold in_versions. simpl.
        apply elem_of_cons in Hin as [Heq|Hin].
        - simplify_eq. replace (k <=? res) with false
            by (symmetry; apply Z.leb_gt; lia). apply andb_false_r.
        - rewrite Forall_forall in Hall. apply Hall in Hin. simpl in Hin.
          replace (k' <=? res) with false by (symmetry; apply Z.leb_gt; lia).
          apply andb_false_r. }
      pose proof (Hout (k, e) ltac:(constructor)) as Hk. simpl in Hk.
      rewrite Hk. simpl. exists ((k, e) :: m). split.
      * f_equal. f_equal. symmetry. rewrite filter_none; [done|].
        intros kv Hin. apply Hout. by constructor.
      * f_equal. symmetry. rewrite <- (list_fmap_id m) at 2.
        apply list_fmap_ext. intros i kv Hin.
        apply list_elem_of_lookup_2 in Hin.
        rewrite Hout; [done|by constructor].
    + apply Z.ltb_ge in Hres.
      assert (in_versions src res k = true) as Hin.
      { unfold in_versions. apply andb_true_intro.
        split; [by apply Z.ltb_lt|by apply Z.leb_le]. }
      rewrite Hin. simpl.
      pose proof (update_entry_fst k e backoff) as Hfst.
      destruct (step k e backoff) as [e' backoff'] eqn:Hstep. simpl in *.
      rewrite update_entries_shift.
      destruct (IH backoff' Hs Hle) as (rest & Hloop & Hmap).
      rewrite Hb0 in Hloop, Hmap. rewrite drop_0 in Hloop. rewrite Hloop.
      exists ((k, e') :: rest). split; [done|].
      simpl in Hmap. by rewrite Hmap, Hfst.
  - apply Z.ltb_ge in Hsrc.
    replace (res <? k) with false by (symmetry; apply Z.ltb_ge; lia).
    assert (in_versions src res k = false) as Hin.
    { unfold in_versions.
      by replace (src <? k) with false by (symmetry; apply Z.ltb_ge; lia). }
    rewrite Hin. simpl. rewrite update_entries_shift.
    destruct (IH backoff Hs Hle) as (rest & Hloop & Hmap).
    exists rest. split; [done|]. f_equal. exact Hmap.
Qed.

Lemma backoff_fold_untouched l : forall backoff,
  Forall (fun kv => mv <> kv.1) l ->
  foldl (fun bo kv => (step kv.1 kv.2 bo).2) backoff l = backoff.
Proof.
  induction l as [|[v e] l IH]; intros backoff Hall; [done|].
  apply Forall_cons in Hall as [Hne Hall]. simpl.
  rewrite update_entry_other by done. by apply IH.
Qed.

(** Only the entry whose version is the mutation number of the result part
    touches the backoff state. *)
Lemma backoff_fold_find l : forall backoff,
  sorted_keys l ->
  foldl (fun bo kv => (step kv.1 kv.2 bo).2) backoff l
  = match List.find (fun kv => mv =? kv.1) l with
    | Some kv => (step kv.1 kv.2 backoff).2
    | None => backoff
    end.
Proof.
  induction l as [|[v e] l IH]; intros backoff Hs; [done|].
  destruct Hs as [Hall Hs]. simpl.
  destruct (mv =? v) eqn:Hv.
  - apply Z.eqb_eq in Hv. apply backoff_fold_untouched.
    eapply Forall_impl; [exact Hall|]. intros [v' e'] ?. simpl in *. lia.
  - apply Z.eqb_neq in Hv. rewrite update_entry_other by done. by apply IH.
Qed.

(** C4, as the code has it. [updateMutationEntriesErrors] rewrites exactly
    the entries whose version lies in
    (source data-version, result data-version]: on success it clears the
    latest-fail fields of an entry whose recorded failed part is covered by
    the result part, on failure it sets the latest-fail fields of every
    entry of the interval; entries outside the interval are unchanged. The
    backoff state changes only if the interval holds the entry whose
    version is the mutation number of the result part: on failure a
    backoff window is then registered for the failing part, on success the
    part is dropped from the failed parts when that entry was cleared. *)
Theorem updateMutationEntriesErrors_interval others s :
  sorted_keys (current_mutations_by_version s) ->
  parts result_part = failed_part :: others ->
  MergeTreePartInfo.getDataVersion (info failed_part)
  <= MergeTreePartInfo.getDataVersion (part_info result_part) ->
  let src := MergeTreePartInfo.getDataVersion (info failed_part) in
  let res := MergeTreePartInfo.getDataVersion (part_info result_part) in
  let affected :=
    List.filter (fun kv => in_versions src res kv.1) (current_mutations_by_version s) in
  exists s',
    updateMutationEntriesErrors backoff_base now
      max_postpone_time_for_failed_mutations_ms result_part is_successful
      exception_message error_code_name s = Completed s'
    /\ current_mutations_by_version s'
       = (fun kv => if in_versions src res kv.1 then (kv.1, rec kv.2) else kv)
           <$> current_mutations_by_version s
    /\ mutation_backoff_policy s'
       = match List.find (fun kv => mv =? kv.1) affected with
         | Some (_, entry) =>
             if is_successful then
               if negb (bool_decide (latest_failed_part entry = ""))
                  && MergeTreePartInfo.contains (part_info result_part)
                       (latest_failed_part_info entry)
               then PartMutationBackoffPolicy.removePartFromFailed
                      (name failed_part) (mutation_backoff_policy s)
               else mutation_backoff_policy s
             else PartMutationBackoffPolicy.addPartMutationFailure backoff_base
                    now (name failed_part)
                    max_postpone_time_for_failed_mutations_ms
                    (mutation_backoff_policy s)
         | None => mutation_backoff_policy s
         end.
Proof.
  intros Hsorted Hparts Hle src res affected.
  unfold updateMutationEntriesErrors. rewrite Hparts. fold src res.
  destruct (src =? res) eqn:Heq; simpl.
  - apply Z.eqb_eq in Heq.
    assert (forall v, in_versions src res v = false) as Hout.
    { intros v. unfold in_versions. rewrite <- Heq.
      destruct (src <? v) eqn:H1; [|done]. simpl.
      apply Z.ltb_lt in H1. apply Z.leb_gt. lia. }
    eexists. split; [done|]. simpl. split.
    + rewrite <- (list_fmap_id (current_mutations_by_version s)) at 1.
      apply list_fmap_ext. intros i kv _. by rewrite Hout.
    + unfold affected. rewrite filter_none; [done|]. intros kv _. apply Hout.
  - destruct (update_entries_interval src res (current_mutations_by_version s)
                (mutation_backoff_policy s) Hsorted Hle) as (rest & Hloop & Hmap).
    rewrite Hloop. eexists. split; [done|]. simpl. split; [done|].
    rewrite backoff_fold_find by (by apply sorted_keys_filter).
    fold affected.
    destruct (List.find (fun kv => mv =? kv.1) affected) as [[v entry]|] eqn:Hfind;
      [|done].
    apply find_some in Hfind as [_ Hv]. simpl in *.
    unfold update_entry. rewrite Hv.
    destruct is_successful; [|done]. by destruct (_ && _).
Qed.
End UpdateMutationEntriesErrorsProperties.

(** ** Killing a mutation *)

Lemma sorted_keys_find k e m :
  sorted_keys m -> (k, e) ∈ m ->
  exists i, find_version k m = Some i
            /\ m !! i = Some (k, e)
            /\ delete i m = List.filter (fun kv => negb (kv.1 =? k)) m.
Proof.
  induction m as [|[k' e'] m IH]; intros Hs Hin; [by apply elem_of_nil in Hin|].
  destruct Hs as [Hall Hs]. simpl.
  destruct (k' =? k) eqn:Hk; simpl.
  - apply Z.eqb_eq in Hk. subst k'. exists 0%nat.
    rewrite Forall_forall in Hall.
    apply elem_of_cons in Hin as [Heq|Hin];
      [|apply Hall in Hin; simpl in Hin; lia].
    simplify_eq. repeat split. simpl. symmetry.
    apply forallb_filter_id, forallb_forall. intros [k2 e2] Hin.
    apply list_elem_of_In, Hall in Hin. simpl in *.
    apply negb_true_iff, Z.eqb_neq. lia.
  - apply Z.eqb_neq in Hk.
    apply elem_of_cons in Hin as [Heq|Hin]; [simplify_eq|].
    destruct (IH Hs Hin) as (i & Hfind & Hlook & Hdel).
    exists (S i). rewrite Hfind. simpl. repeat split; [done|]. by rewrite <- Hdel.
Qed.

Lemma filter_drops_key k (m : MutationsMap) :
  k ∉ keys (List.filter (fun kv => negb (kv.1 =? k)) m).
Proof.
  unfold keys. intros Hin. apply list_elem_of_fmap in Hin as ([k' e'] & -> & Hin).
  apply list_elem_of_In, filter_In in Hin as [_ Hne]. simpl in Hne.
  apply negb_true_iff, Z.eqb_neq in Hne. done.
Qed.

Section KillMutationProperties.
Variable tryGetRunningTransaction : TransactionID -> bool.
Variable getVisibleDataPartsVector : option TransactionID -> list DataPart.
Variable getHash : TransactionID -> Z.
Variable now : Z.

(** C5. On a writable table, [killMutation] returns NotFound and leaves the
    mutation map (and everything else) as it was when the id does not
    parse to a version or no entry has that version. When the entry exists
    it is removed from the map, the counters are decremented if it was not
    finished, the origin transaction is rolled back exactly when the entry
    was issued by a transaction (its id is not the prehistoric one) that
    the transaction log still has running, the merge-list entries of that
    version are cancelled and the mutation file is deleted; a status query
    for that version, whatever [Int64] it is asked with, then finds
    nothing. *)
Theorem killMutation_removes_entry mutation_id s :
  is_static_storage s = false ->
  sorted_keys (current_mutations_by_version s) ->
  Forall (fun kv => block_number kv.2 = kv.1) (current_mutations_by_version s) ->
  let version := to_UInt64 (tryParseFileName mutation_id) in
  let r := killMutation tryGetRunningTransaction mutation_id s in
  (version = 0 \/ version ∉ keys (current_mutations_by_version s) ->
     r.1 = Return NotFound
     /\ current_mutations_by_version r.2 = current_mutations_by_version s
     /\ effects r.2 = effects s)
  /\ (forall entry,
        version <> 0 ->
        (version, entry) ∈ current_mutations_by_version s ->
        r.1 = Return CancelSent
        /\ current_mutations_by_version r.2
           = List.filter (fun kv => negb (kv.1 =? version))
               (current_mutations_by_version s)
        /\ (version ∉ keys (current_mutations_by_version r.2))
        /\ effects r.2
           = [TriggerBackgroundOperations; NotifyMutationWait;
              RemoveFile (file_name entry); CancelPartMutations version]
             ++ (if negb (isPrehistoric (tid entry))
                    && tryGetRunningTransaction (tid entry)
                 then [RollbackTransaction (tid entry)]
                 else [])
             ++ (if is_done entry then []
                 else [DecrementMutationsCounters (commands entry)])
             ++ effects s
        /\ forall query want_mutation_ids from_another_mutation,
             to_UInt64 query = version ->
             getIncompleteMutationsStatusUnlocked tryGetRunningTransaction
               getVisibleDataPartsVector getHash now query
               want_mutation_ids from_another_mutation r.2 = None).
Proof.
  intros Hstatic Hsorted Hblock version r. subst r.
  unfold killMutation. rewrite Hstatic. fold version. split.
  - intros [Hzero|Hmissing].
    + rewrite Hzero. done.
    + destruct (version =? 0); [done|].
      unfold take_mutation_to_kill.
      apply find_version_None in Hmissing. rewrite Hmissing. done.
  - intros entry Hnz Hin.
    replace (version =? 0) with false by (symmetry; by apply Z.eqb_neq).
    destruct (sorted_keys_find _ _ _ Hsorted Hin) as (i & Hfind & Hlook & Hdel).
    unfold take_mutation_to_kill. rewrite Hfind, Hlook.
    rewrite Forall_forall in Hblock. apply Hblock in Hin. simpl in Hin.
    rewrite Hin, Hdel.
    assert (forall s0,
      current_mutations_by_version s0
      = List.filter (fun kv => negb (kv.1 =? version))
          (current_mutations_by_version s) ->
      forall query want_mutation_ids from_another_mutation,
        to_UInt64 query = version ->
        getIncompleteMutationsStatusUnlocked tryGetRunningTransaction
          getVisibleDataPartsVector getHash now query
          want_mutation_ids from_another_mutation s0 = None) as Hstatus.
    { intros s0 Hm q w f Hq. unfold getIncompleteMutationsStatusUnlocked.
      rewrite Hm, Hq.
      replace (find_version version (List.filter _ _)) with (@None nat);
        [done|].
      symmetry. apply find_version_None, filter_drops_key. }
    unfold tryGetTransactionForMutation.
    destruct (isPrehistoric (tid entry)),
      (tryGetRunningTransaction (tid entry)), (is_done entry); simpl;
      (split; [done|]; split; [done|]; split; [apply filter_drops_key|];
       split; [done|]; by apply Hstatus).
Qed.

(** C10, as the code has it. On a writable table, [killMutation] forgets
    the backoff state of every part whenever the id parses to a version,
    whether or not an entry with that version exists; when the id does not
    parse it returns NotFound before touching anything. *)
Theorem killMutation_resets_backoff mutation_id s :
  is_static_storage s = false ->
  let version := to_UInt64 (tryParseFileName mutation_id) in
  let r := killMutation tryGetRunningTransaction mutation_id s in
  (version <> 0 -> mutation_backoff_policy r.2 = ∅)
  /\ (version <> 0 -> version ∉ keys (current_mutations_by_version s) ->
      r.1 = Return NotFound /\ mutation_backoff_policy r.2 = ∅)
  /\ (version = 0 -> r = (Return NotFound, s)).
Proof.
  intros Hstatic version r. subst r. unfold killMutation.
  rewrite Hstatic. fold version.
  assert (version <> 0 ->
          mutation_backoff_policy
            (killMutation tryGetRunningTransaction mutation_id s).2 = ∅) as Hreset.
  { intros Hnz. unfold killMutation. rewrite Hstatic. fold version.
    replace (version =? 0) with false by (symmetry; by apply Z.eqb_neq).
    destruct (take_mutation_to_kill version s) as [[entry|] s1]; [|done].
    by destruct (tryGetTransactionForMutation tryGetRunningTransaction entry). }
  unfold killMutation in Hreset. rewrite Hstatic in Hreset. fold version in Hreset.
  split; [done|]. split.
  - intros Hnz Hmissing. split; [|by apply Hreset].
    replace (version =? 0) with false by (symmetry; by apply Z.eqb_neq).
    unfold take_mutation_to_kill.
    apply find_version_None in Hmissing. by rewrite Hmissing.
  - intros ->. done.
Qed.
End KillMutationProperties.

(** ** Reclaiming finished mutations *)

Lemma mark_done_shift rest : forall it end_it,
  mark_done (S it) (S end_it) rest = mark_done it end_it rest.
Proof.
  induction rest as [|[v e] rest IH]; intros it end_it; simpl.
  - repeat case_bool_decide; try done; lia.
  - repeat case_bool_decide; try done; try lia. by rewrite IH.
Qed.

Lemma mark_done_finished min_version m :
  let end_it := match min_version with
                | Some v => upper_bound v m
                | None => length m
                end in
  let fin := finished_prefix min_version m in
  exists effs, mark_done 0 end_it m = (mark_finished fin m, effs, Z.of_nat fin).
Proof.
  unfold mark_finished.
  induction m as [|[k e] m IH].
  { destruct min_version; by exists []. }
  assert (forall end_it, (end_it = 0%nat \/ isPrehistoric (tid e) = false) ->
            mark_done 0 end_it ((k, e) :: m) = ((k, e) :: m, [], 0)) as Hstop.
  { intros end_it [->|Hp]; simpl; [done|]. rewrite Hp. simpl.
    by case_bool_decide. }
  destruct IH as (effs & IH). simpl finished_prefix.
  assert (forall end_it', match min_version with
                          | Some v => upper_bound v m
                          | None => length m
                          end = end_it' ->
          isPrehistoric (tid e) = true ->
          exists effs',
            mark_done 0 (S end_it') ((k, e) :: m)
            = (((fun kv => (kv.1, if is_done kv.2 then kv.2 else set_is_done kv.2))
                  <$> take (S (finished_prefix min_version m)) ((k, e) :: m))
               ++ drop (S (finished_prefix min_version m)) ((k, e) :: m),
               effs', Z.of_nat (S (finished_prefix min_version m)))) as Hgo.
  { intros end_it' Hend Hp. simpl. rewrite Hp. simpl.
    rewrite mark_done_shift. rewrite <- Hend, IH.
    destruct (is_done e); simpl; eexists; repeat f_equal; lia. }
  destruct (isPrehistoric (tid e)) eqn:Hp.
  2:{ rewrite andb_false_r. exists []. simpl. apply Hstop. by right. }
  rewrite andb_true_r.
  destruct min_version as [v|]; simpl.
  - destruct (v <? k) eqn:Hv.
    + replace (k <=? v) with false by (symmetry; apply Z.leb_gt; by apply Z.ltb_lt).
      exists []. done.
    + replace (k <=? v) with true by (symmetry; apply Z.leb_le; by apply Z.ltb_ge).
      by apply Hgo.
  - by apply Hgo.
Qed.

Lemma finished_prefix_le min_version m :
  (finished_prefix min_version m <= length m)%nat.
Proof.
  induction m as [|[k e] m IH]; simpl; [lia|]. destruct (_ && _); simpl; lia.
Qed.

Lemma finished_prefix_Forall min_version m n :
  (n <= finished_prefix min_version m)%nat ->
  Forall (fun kv => isPrehistoric (tid kv.2) = true
                    /\ forall v, min_version = Some v -> kv.1 <= v)
    (take n m).
Proof.
  revert n. induction m as [|[k e] m IH]; intros n Hn.
  { rewrite take_nil. constructor. }
  destruct n as [|n]; [constructor|]. simpl in *.
  destruct (_ && isPrehistoric (tid e)) eqn:Hc; [|lia].
  apply andb_true_iff in Hc as [Hk Hp].
  constructor.
  - simpl. split; [done|]. intros v ->. by apply Z.leb_le.
  - apply IH. lia.
Qed.

Section ClearOldMutationsProperties.
Variable getCSN : TransactionID -> Z.
Variable finished_mutations_to_keep_setting : Z.

Lemma delete_front_prehistoric n : forall m,
  (n <= length m)%nat ->
  Forall (fun kv => isPrehistoric (tid kv.2) = true) (take n m) ->
  delete_front getCSN n m = (Return (take n m).*2, drop n m).
Proof.
  induction n as [|n IH]; intros m Hn Hall; [by rewrite take_0, drop_0|].
  destruct m as [|[k e] m]; [simpl in Hn; lia|].
  simpl in *. apply Forall_cons in Hall as [Hp Hall]. simpl in Hp.
  rewrite Hp. simpl. rewrite IH; [done|lia|done].
Qed.

Lemma mark_finished_take fin m n :
  (n <= fin)%nat -> (fin <= length m)%nat ->
  take n (mark_finished fin m)
  = (fun kv => (kv.1, if is_done kv.2 then kv.2 else set_is_done kv.2)) <$> take n m.
Proof.
  intros Hn Hfin. unfold mark_finished.
  rewrite take_app_le by (rewrite length_fmap, length_take_le; lia).
  rewrite <- fmap_take, take_take. by replace (n `min` fin)%nat with n by lia.
Qed.

Lemma mark_finished_shape fin m : shape (mark_finished fin m) = shape m.
Proof.
  unfold mark_finished, shape. rewrite fmap_app, <- list_fmap_compose.
  rewrite <- (take_drop fin m) at 3. rewrite fmap_app. f_equal.
  apply list_fmap_ext. intros i [k e] _. simpl. by destruct (is_done e).
Qed.

(** C6, as the code has it. [clearOldMutations] removes a leading run of
    the map (oldest versions first) made of prehistoric entries whose
    version is at most the minimum data-version over all parts (any
    version when the table has no part); it removes nothing when neither
    [truncate] is set nor [finished_mutations_to_keep] is positive, and
    otherwise leaves [finished_mutations_to_keep] of the finished entries
    (none with [truncate]) when there are more than that. An entry whose
    version is above the minimum part data-version is never removed. *)
Theorem clearOldMutations_reclaims (truncate : bool) (s : StorageMergeTree) :
  0 <= finished_mutations_to_keep_setting ->
  let m := current_mutations_by_version s in
  let min_version := getMinPartDataVersion s in
  let fin := finished_prefix min_version m in
  let keep := if truncate then 0 else finished_mutations_to_keep_setting in
  let r := clearOldMutations getCSN finished_mutations_to_keep_setting truncate s in
  exists n : nat,
    r.1 = Return (Z.of_nat n)
    /\ Z.of_nat n
       = (if negb truncate && (finished_mutations_to_keep_setting =? 0) then 0
          else Z.max 0 (Z.of_nat fin - keep))
    /\ shape (current_mutations_by_version r.2) = drop n (shape m)
    /\ Forall (fun kv => isPrehistoric (tid kv.2) = true
                         /\ forall v, min_version = Some v -> kv.1 <= v)
         (take n m)
    /\ (forall kv v, kv ∈ m -> min_version = Some v -> v < kv.1 ->
          kv.1 ∈ keys (current_mutations_by_version r.2)).
Proof.
  intros Hkeep m min_version fin keep r.
  assert (forall n : nat, (n <= fin)%nat ->
            forall m', shape m' = drop n (shape m) ->
            Forall (fun kv => isPrehistoric (tid kv.2) = true
                              /\ forall v, min_version = Some v -> kv.1 <= v)
              (take n m)
            /\ (forall kv v, kv ∈ m -> min_version = Some v -> v < kv.1 ->
                  kv.1 ∈ keys m')) as Hrest.
  { intros n Hn m' Hshape.
    pose proof (finished_prefix_Forall min_version m n Hn) as Hall.
    split; [done|]. intros kv v Hin Hmin Hlt.
    rewrite <- (take_drop n m) in Hin. apply elem_of_app in Hin as [Hin|Hin].
    - rewrite Forall_forall in Hall. apply Hall in Hin as [_ Hin].
      specialize (Hin v Hmin). lia.
    - assert (keys m' = drop n (keys m)) as ->.
      { unfold keys. unfold shape in Hshape.
        apply (f_equal (fmap (fun x : Z * MutationCommands * TransactionID => x.1.1)))
          in Hshape.
        rewrite <- list_fmap_compose, fmap_drop, <- list_fmap_compose in Hshape.
        exact Hshape. }
      unfold keys. rewrite <- fmap_drop. apply list_elem_of_fmap. by exists kv. }
  subst r. unfold clearOldMutations.
  destruct (negb truncate && (finished_mutations_to_keep_setting =? 0)) eqn:Hearly.
  { exists O. simpl. split; [done|]. split; [done|]. split; [by rewrite drop_0|].
    apply Hrest; [lia|by rewrite drop_0]. }
  fold m min_version keep.
  destruct (mark_done_finished min_version m) as (effs & Hmark).
  simpl in Hmark. fold fin in Hmark. rewrite Hmark.
  pose proof (finished_prefix_le min_version m) as Hfin. fold fin in Hfin.
  assert (0 <= keep) as Hkeep' by (unfold keep; destruct truncate; lia).
  destruct (Z.of_nat fin <=? keep) eqn:Hle.
  { apply Z.leb_le in Hle. exists O. simpl. split; [done|]. split; [lia|].
    rewrite drop_0. split; [apply mark_finished_shape|].
    apply Hrest; [lia|rewrite drop_0; apply mark_finished_shape]. }
  apply Z.leb_gt in Hle.
  set (n := Z.to_nat (Z.of_nat fin - keep)).
  assert ((n <= fin)%nat) as Hn by lia.
  rewrite delete_front_prehistoric.
  - exists n. simpl.
    assert (shape (drop n (mark_finished fin m)) = drop n (shape m)) as Hshape.
    { unfold shape at 1. rewrite fmap_drop. fold (shape (mark_finished fin m)).
      by rewrite mark_finished_shape. }
    assert (forall l s0,
      current_mutations_by_version
        (foldl (fun acc mutation => emit (RemoveFile (file_name mutation)) acc) s0 l)
      = current_mutations_by_version s0) as Hfold.
    { induction l as [|e l IH]; intros s0; [done|]. simpl. by rewrite IH. }
    rewrite Hfold. simpl.
    split; [by rewrite length_fmap, length_take_le
              by (unfold mark_finished;
                  rewrite length_app, length_fmap, length_take_le, length_drop; lia)|].
    split; [lia|]. split; [done|]. by apply Hrest.
  - unfold mark_finished.
    rewrite length_app, length_fmap, length_take_le, length_drop; lia.
  - rewrite mark_finished_take by done. apply Forall_fmap.
    eapply Forall_impl; [apply (finished_prefix_Forall min_version m n Hn)|].
    intros [k e] [Hp _]. simpl in *. by destruct (is_done e).
Qed.
End ClearOldMutationsProperties.

(** ** Levels between two parts *)

Lemma max_level_loop_run rest : forall it n level,
  0 <= level ->
  (n <= length rest)%nat ->
  max_level_loop it (it + n) rest level
  = Return (Z.max level (max_level (take n rest))).
Proof.
  induction rest as [|p rest IH]; intros it n level H0 Hn.
  - simpl in Hn. assert (n = 0%nat) as -> by lia. simpl.
    rewrite Nat.add_0_r. case_bool_decide; [|done]. f_equal. unfold max_level. simpl. lia.
  - destruct n as [|n]; simpl.
    + rewrite Nat.add_0_r. case_bool_decide; [|done]. f_equal. unfold max_level. simpl. lia.
    + case_bool_decide; [lia|].
      replace (it + S n)%nat with (S it + n)%nat by lia.
      rewrite IH by (simpl in Hn; lia). f_equal. unfold max_level. simpl. lia.
Qed.

Lemma max_level_loop_wrong_order rest : forall it end_ level,
  (end_ < it)%nat -> max_level_loop it end_ rest level = Throw ErrorCodes.LOGICAL_ERROR.
Proof.
  induction rest as [|p rest IH]; intros it end_ level Hlt; simpl;
    (case_bool_decide; [lia|]); [done|]. apply IH. lia.
Qed.

Lemma find_part_lt i ps n : find_part i ps = Some n -> (n < length ps)%nat.
Proof.
  revert n. induction ps as [|p ps IH]; intros n H; [done|]. simpl in *.
  case_bool_decide; simplify_eq; [lia|].
  destruct (find_part i ps) as [j|]; simplify_eq/=. specialize (IH j eq_refl). lia.
Qed.

(** C8, as the code has it. [getMaxLevelInBetween] returns the maximum level
    over the parts of the index from [left] up to, but not including,
    [right]: the level of [right] itself is not taken into account, and the
    result is 0 when [left] and [right] are the same part. It throws
    LOGICAL_ERROR when [right] comes before [left]. *)
Theorem getMaxLevelInBetween_half_open left right s begin end_ :
  find_part left (data_parts_by_info s) = Some begin ->
  find_part right (data_parts_by_info s) = Some end_ ->
  getMaxLevelInBetween left right s
  = if bool_decide (begin <= end_)%nat
    then Return (max_level (take (end_ - begin) (drop begin (data_parts_by_info s))))
    else Throw ErrorCodes.LOGICAL_ERROR.
Proof.
  intros Hl Hr. unfold getMaxLevelInBetween. rewrite Hl, Hr.
  apply find_part_lt in Hr.
  case_bool_decide as Hle.
  - replace end_ with (begin + (end_ - begin))%nat at 1 by lia.
    rewrite max_level_loop_run by (rewrite ?length_drop; lia).
    f_equal. assert (0 <= max_level (take (end_ - begin) (drop begin (data_parts_by_info s)))).
    { unfold max_level. induction (take _ _); simpl; lia. }
    lia.
  - apply max_level_loop_wrong_order. lia.
Qed.

(** ** The background-memory gate of merge selection *)

Lemma failed_polls_snoc n :
  failed_polls n ++ [MemoryCheck false; SleepFor 1000]
  = [MemoryCheck false; SleepFor 1000] ++ failed_polls n.
Proof.
  unfold failed_polls. induction n as [|n IH]; [done|].
  simpl. do 2 f_equal. exact IH.
Qed.

Section SelectPartsToMergeProperties.
Variable canEnqueueBackgroundTask : nat -> bool.
Variable max_source_parts_size : Z.
Variable merger_selectPartsToMerge : SelectMergeFailure.Reason + list DataPart.
Variable selectAllPartsToMergeWithinPartition
  : nat -> SelectMergeFailure.Reason + list DataPart.
Variable constructFuturePart : list DataPart -> option FutureMergedMutatedPart.
Variable timeout_ms : Z.
Variable parts_are_busy : nat -> bool.
Variable wait_times_out : nat -> bool.

Lemma poll_memory_exhausted n : forall st,
  (forall i, (i < n)%nat -> canEnqueueBackgroundTask (memory_checks st + i) = false) ->
  poll_memory canEnqueueBackgroundTask n st
  = (false, mkSelection (memory_checks st + n) (waits st)
              (failed_polls n ++ events st)).
Proof.
  induction n as [|n IH]; intros st Hfail.
  { simpl. rewrite Nat.add_0_r. by destruct st. }
  simpl. unfold is_background_memory_usage_ok. simpl.
  pose proof (Hfail 0%nat ltac:(lia)) as H0. rewrite Nat.add_0_r in H0.
  rewrite H0. rewrite IH.
  - simpl. f_equal. f_equal; [lia|].
    change (failed_polls n ++ MemoryCheck false :: SleepFor 1000 :: events st)
      with (failed_polls n ++ [MemoryCheck false; SleepFor 1000] ++ events st).
    rewrite app_assoc, failed_polls_snoc. done.
  - intros i Hi. simpl. replace (S (memory_checks st + i))%nat
      with (memory_checks st + S i)%nat by lia. apply Hfail. lia.
Qed.

(** C7. When the background memory usage is over the soft limit, selection
    without a partition hint fails with CANNOT_SELECT after the single
    check, without sleeping; selection with a partition hint sleeps one
    second and checks again, [timeout / 1 s] times at most, and fails with
    CANNOT_SELECT when every one of these checks still finds the usage over
    the limit. *)
Theorem selectPartsToMerge_memory_gate turns partition_id final st :
  let attempts := Z.to_nat (Z.quot timeout_ms 1000) in
  let select :=
    selectPartsToMerge canEnqueueBackgroundTask max_source_parts_size
      merger_selectPartsToMerge selectAllPartsToMergeWithinPartition
      constructFuturePart timeout_ms parts_are_busy wait_times_out in
  (partition_id = "" ->
   canEnqueueBackgroundTask (memory_checks st) = false ->
   select turns partition_id final st
   = (Some (inl SelectMergeFailure.CANNOT_SELECT),
      mkSelection (S (memory_checks st)) (waits st)
        (MemoryCheck false :: events st)))
  /\ (partition_id <> "" ->
      (forall i, (i <= attempts)%nat ->
         canEnqueueBackgroundTask (memory_checks st + i) = false) ->
      select (S turns) partition_id final st
      = (Some (inl SelectMergeFailure.CANNOT_SELECT),
         mkSelection (S (memory_checks st) + attempts) (waits st)
           (failed_polls attempts ++ MemoryCheck false :: events st))).
Proof.
  intros attempts select. subst select. unfold selectPartsToMerge. split.
  - intros -> Hover. simpl. unfold select_without_hint, is_background_memory_usage_ok.
    by rewrite Hover.
  - intros Hhint Hover. case_bool_decide; [done|].
    simpl. unfold memory_gate, is_background_memory_usage_ok.
    pose proof (Hover 0%nat ltac:(lia)) as H0. rewrite Nat.add_0_r in H0.
    rewrite H0. simpl. fold attempts. rewrite poll_memory_exhausted; [done|].
    intros i Hi. simpl. replace (S (memory_checks st + i))%nat
      with (memory_checks st + S i)%nat by lia. apply Hover. lia.
Qed.
End SelectPartsToMergeProperties.

(** ** MOVE PARTITION TO TABLE *)

Section MovePartitionToTableProperties.
Variable delayInsertOrThrowIfNeeded : Result unit.
Variable lock_and_stop_merges : Result unit.
Variable checkStructure : Result unit.
Variable getPartitionIDFromQuery : Result string.
Variable canReplacePartition : DataPart -> bool.
Variable getNewName : MergeTreePartInfo.t -> string.
Variable max_parts_to_move : Z.


End MovePartitionToTableProperties.

(** * The properties at work on the example table *)

(** Scenario S3 of the specification: the two UPDATEs are squashed into one
    future part, the DROP COLUMN is left for a later round. *)
Example selectPartsToMutate_squashes_updates :
  example_select example_storage
  = (Return (Some (mkSelected example_future_part
                     [example_update; example_update] None)),
     with_busy ({["all_1_1_0"]} ∪ ∅) example_storage).
Proof. vm_compute. reflexivity. Qed.

(** The next round of scenario S3: once the part carries mutation 3, the
    DROP COLUMN is applied on its own. *)
Example selectPartsToMutate_barrier_alone :
  (example_select
     (with_parts [mkPart "all_1_1_0_3" example_mutated_info Active 100 0]
        example_storage)).1
  = Return (Some (mkSelected
                    (mkFuturePart
                       [mkPart "all_1_1_0_3" example_mutated_info Active 100 0]
                       (MergeTreePartInfo.mk "all" 1 1 0 4))
                    [example_drop_column] None)).
Proof. vm_compute. reflexivity. Qed.

(** With room for 10 AST elements only, the second UPDATE would bring the
    accumulated size to 14: the batch stops after the first one, and the
    future part carries mutation 2. *)
Example selectPartsToMutate_stops_at_limit :
  example_select_within 10 example_storage
  = (Return (Some (mkSelected
                     (mkFuturePart [example_part]
                        (MergeTreePartInfo.mk "all" 1 1 0 2))
                     [example_update] None)),
     with_busy ({["all_1_1_0"]} ∪ ∅) example_storage).
Proof. vm_compute. reflexivity. Qed.

(** With room for 7 AST elements the first UPDATE alone reaches the limit:
    the part is passed over and nothing is selected. *)
Example selectPartsToMutate_nothing_fits :
  example_select_within 7 example_storage = (Return None, example_storage).
Proof. vm_compute. reflexivity. Qed.

Lemma selectPartsToMutate_batch_witness :
  selection example_evaluateCommandsSize (fun _ _ _ => true) (fun _ => false)
    (fun _ => true) 0 1000 10 [example_part] example_storage
    (Return (Some (mkSelected
                     (mkFuturePart [example_part]
                        (MergeTreePartInfo.mk "all" 1 1 0 2))
                     [example_update] None)),
     with_busy ({["all_1_1_0"]} ∪ ∅) example_storage).
Proof.
  assert (sorted_keys (current_mutations_by_version example_storage))
    as Hsorted by (simpl; repeat constructor).
  destruct (selectPartsToMutate_batch example_evaluateCommandsSize
              (fun _ _ _ => true) (fun _ => false) (fun _ => true) 0 1000 10
              example_storage Hsorted) as [_ Hselected].
  assert (1000 <> 0) as Hlimit by lia.
  apply Hselected in Hlimit.
  assert (selectPartsToMutate example_evaluateCommandsSize
            (fun _ _ _ => true) (fun _ => false) (fun _ => true) 0 1000 10
            example_storage
          = (Return (Some (mkSelected
                             (mkFuturePart [example_part]
                                (MergeTreePartInfo.mk "all" 1 1 0 2))
                             [example_update] None)),
             with_busy ({["all_1_1_0"]} ∪ ∅) example_storage)) as Hrun
    by (vm_compute; reflexivity).
  rewrite Hrun in Hlimit. exact Hlimit.
Defined.

(** Scenario S6 of the specification: the update with block 11 gets through
    once the insert with block 10 has left the committing set, and times out
    when it never does. *)
Example waitForCommittingInsertsAndMutations_released :
  waitForCommittingInsertsAndMutations 11 example_snapshots
    [CommittingBlock.mk CommittingBlock.Update 11] = Return tt.
Proof. reflexivity. Qed.

Example waitForCommittingInsertsAndMutations_abandoned :
  waitForCommittingInsertsAndMutations 11
    [[CommittingBlock.mk CommittingBlock.NewPart 10;
      CommittingBlock.mk CommittingBlock.Update 11]]
    [CommittingBlock.mk CommittingBlock.NewPart 10;
     CommittingBlock.mk CommittingBlock.Update 11]
  = Throw ErrorCodes.TIMEOUT_EXCEEDED.
Proof. reflexivity. Qed.

Lemma waitForCommittingInsertsAndMutations_spec_witness :
  (Exists (fun blocks => blocking 11 blocks = [])
     (example_snapshots ++ [[CommittingBlock.mk CommittingBlock.Update 11]])
   -> waitForCommittingInsertsAndMutations 11 example_snapshots
        [CommittingBlock.mk CommittingBlock.Update 11] = Return tt)
  /\ (~ Exists (fun blocks => blocking 11 blocks = [])
        (example_snapshots ++ [[CommittingBlock.mk CommittingBlock.Update 11]])
      -> waitForCommittingInsertsAndMutations 11 example_snapshots
           [CommittingBlock.mk CommittingBlock.Update 11]
         = Throw ErrorCodes.TIMEOUT_EXCEEDED).
Proof.
  apply (waitForCommittingInsertsAndMutations_spec 11 example_snapshots
           [CommittingBlock.mk CommittingBlock.Update 11]).
  simpl. repeat constructor.
Defined.

Example construct_loads_example_disk :
  construct (fun _ => 0) (fun _ => Return tt) false false [example_part] [example_disk]
  = Return example_loaded.
Proof. vm_compute. reflexivity. Qed.

Lemma construct_increment_covers_disk_witness :
  (forall p, p ∈ [example_part] ->
     MergeTreePartInfo.max_block (info p) <= increment example_loaded)
  /\ (forall kv, kv ∈ current_mutations_by_version example_loaded ->
        kv.1 <= increment example_loaded)
  /\ (forall ops blocks s',
        increment example_loaded + Z.of_nat (length ops) <= Int64_max ->
        allocate_all ops example_loaded = (blocks, s') ->
        Forall (fun b =>
                  (forall p, p ∈ [example_part] ->
                     MergeTreePartInfo.max_block (info p) < CommittingBlock.number b)
                  /\ (forall kv, kv ∈ current_mutations_by_version example_loaded ->
                        kv.1 < CommittingBlock.number b))
          blocks).
Proof.
  apply (construct_increment_covers_disk (fun _ => 0) (fun _ => Return tt)
           false false [example_part] [example_disk] example_loaded).
  - repeat constructor. vm_compute. discriminate.
  - vm_compute. reflexivity.
Defined.

(** Scenario S1 of the specification, after loading: the next three block
    numbers are 4, 5 and 6. *)
Example allocate_after_loading :
  (allocate_all [CommittingBlock.NewPart; CommittingBlock.Mutation;
                 CommittingBlock.Update] example_loaded).1
  = [CommittingBlock.mk CommittingBlock.NewPart 4;
     CommittingBlock.mk CommittingBlock.Mutation 5;
     CommittingBlock.mk CommittingBlock.Update 6].
Proof. reflexivity. Qed.

(** The mutation task for versions 2 and 3 fails while both entries are
    registered: both get the failure recorded and the part backs off. *)
Lemma updateMutationEntriesErrors_interval_witness :
  exists s',
    updateMutationEntriesErrors 1000 0 60000 example_future_part false
      "boom" "UNKNOWN" example_storage = Completed s'
    /\ current_mutations_by_version s'
       = [(2, set_latest_fail example_part 0 "boom" "UNKNOWN"
                (example_entry 2 "mutation_2.txt" [example_update]));
          (3, set_latest_fail example_part 0 "boom" "UNKNOWN"
                (example_entry 3 "mutation_3.txt" [example_update]));
          (4, example_entry 4 "mutation_4.txt" [example_drop_column])]
    /\ mutation_backoff_policy s'
       = PartMutationBackoffPolicy.addPartMutationFailure 1000 0 "all_1_1_0"
           60000 ∅.
Proof.
  destruct (updateMutationEntriesErrors_interval 1000 0 60000 example_future_part
              example_part false "boom" "UNKNOWN" [] example_storage)
    as (s' & Hrun & Hmap & Hbackoff).
  - simpl. repeat constructor.
  - reflexivity.
  - vm_compute. discriminate.
  - exists s'. split; [exact Hrun|]. split; [exact Hmap|exact Hbackoff].
Defined.

(** The same failure after mutation 3 has been killed: entry 2 lies in the
    interval and gets the failure recorded, but no backoff window is
    registered for the failing part. *)
Lemma updateMutationEntriesErrors_failure_without_backoff :
  let s := with_mutations
             [(2, example_entry 2 "mutation_2.txt" [example_update])]
             example_storage in
  exists s',
    updateMutationEntriesErrors 1000 0 60000 example_future_part false
      "boom" "UNKNOWN" s = Completed s'
    /\ (fun kv => (kv.1, latest_failed_part kv.2, latest_fail_reason kv.2))
         <$> current_mutations_by_version s'
       = [(2, "all_1_1_0", "boom")]
    /\ mutation_backoff_policy s' !! "all_1_1_0" = None.
Proof. eexists. vm_compute. repeat split. Qed.

Lemma killMutation_removes_entry_witness :
  let version := to_UInt64 (tryParseFileName "mutation_3.txt") in
  let r := killMutation example_running "mutation_3.txt" example_transactional in
  (version = 0
   \/ version ∉ keys (current_mutations_by_version example_transactional) ->
     r.1 = Return NotFound
     /\ current_mutations_by_version r.2
        = current_mutations_by_version example_transactional
     /\ effects r.2 = effects example_transactional)
  /\ (forall entry,
        version <> 0 ->
        (version, entry) ∈ current_mutations_by_version example_transactional ->
        r.1 = Return CancelSent
        /\ current_mutations_by_version r.2
           = List.filter (fun kv => negb (kv.1 =? version))
               (current_mutations_by_version example_transactional)
        /\ (version ∉ keys (current_mutations_by_version r.2))
        /\ effects r.2
           = [TriggerBackgroundOperations; NotifyMutationWait;
              RemoveFile (file_name entry); CancelPartMutations version]
             ++ (if negb (isPrehistoric (tid entry))
                    && example_running (tid entry)
                 then [RollbackTransaction (tid entry)]
                 else [])
             ++ (if is_done entry then []
                 else [DecrementMutationsCounters (commands entry)])
             ++ effects example_transactional
        /\ forall query want_mutation_ids from_another_mutation,
             to_UInt64 query = version ->
             getIncompleteMutationsStatusUnlocked example_running
               (fun _ => [example_part]) (fun _ => 0) 0 query
               want_mutation_ids from_another_mutation r.2 = None).
Proof.
  apply (killMutation_removes_entry example_running (fun _ => [example_part])
           (fun _ => 0) 0 "mutation_3.txt" example_transactional).
  - reflexivity.
  - simpl. repeat constructor.
  - repeat constructor.
Defined.

(** Mutation 3 of this table was issued by a transaction that is still
    running: killing it rolls that transaction back. *)
Example killMutation_rolls_back_running_transaction :
  let r := killMutation example_running "mutation_3.txt" example_transactional in
  r.1 = Return CancelSent
  /\ keys (current_mutations_by_version r.2) = [2]
  /\ effects r.2
     = [TriggerBackgroundOperations; NotifyMutationWait;
        RemoveFile "mutation_3.txt"; CancelPartMutations 3;
        RollbackTransaction example_tid;
        DecrementMutationsCounters [example_update]].
Proof. vm_compute. repeat split. Qed.

(** Once the transaction is gone from the log, nothing is rolled back. *)
Example killMutation_skips_finished_transaction :
  effects (killMutation (fun _ => false) "mutation_3.txt"
             example_transactional).2
  = [TriggerBackgroundOperations; NotifyMutationWait;
     RemoveFile "mutation_3.txt"; CancelPartMutations 3;
     DecrementMutationsCounters [example_update]].
Proof. vm_compute. reflexivity. Qed.

(** Scenario S4 of the specification on the example table. *)
Example killMutation_kills_mutation_3 :
  let r := killMutation (fun _ => false) "mutation_3.txt" example_storage in
  r.1 = Return CancelSent
  /\ keys (current_mutations_by_version r.2) = [2; 4]
  /\ effects r.2
     = [TriggerBackgroundOperations; NotifyMutationWait;
        RemoveFile "mutation_3.txt"; CancelPartMutations 3;
        DecrementMutationsCounters [example_update]].
Proof. vm_compute. repeat split. Qed.

Lemma killMutation_resets_backoff_witness :
  let version := to_UInt64 (tryParseFileName "mutation_9.txt") in
  let r := killMutation (fun _ => false) "mutation_9.txt" example_backed_off in
  (version <> 0 -> mutation_backoff_policy r.2 = ∅)
  /\ (version <> 0 ->
      version ∉ keys (current_mutations_by_version example_backed_off) ->
      r.1 = Return NotFound /\ mutation_backoff_policy r.2 = ∅)
  /\ (version = 0 -> r = (Return NotFound, example_backed_off)).
Proof.
  apply (killMutation_resets_backoff (fun _ => false) "mutation_9.txt"
           example_backed_off).
  reflexivity.
Defined.

(** An id that does not parse: NotFound, and the recorded failure of the
    part is still there. *)
Lemma killMutation_unparsed_id_keeps_backoff :
  let r := killMutation (fun _ => false) "mutation_x.txt" example_backed_off in
  r.1 = Return NotFound
  /\ mutation_backoff_policy r.2 !! "all_1_1_0"
     = Some (PartMutationBackoffPolicy.mkInfo 1 1000).
Proof. vm_compute. repeat split. Qed.

Lemma clearOldMutations_reclaims_witness :
  let m := current_mutations_by_version example_finished in
  let min_version := getMinPartDataVersion example_finished in
  let fin := finished_prefix min_version m in
  let keep := if true then 0 else 100 in
  let r := clearOldMutations (fun _ => 0) 100 true example_finished in
  exists n : nat,
    r.1 = Return (Z.of_nat n)
    /\ Z.of_nat n
       = (if negb true && (100 =? 0) then 0 else Z.max 0 (Z.of_nat fin - keep))
    /\ shape (current_mutations_by_version r.2) = drop n (shape m)
    /\ Forall (fun kv => isPrehistoric (tid kv.2) = true
                         /\ forall v, min_version = Some v -> kv.1 <= v)
         (take n m)
    /\ (forall kv v, kv ∈ m -> min_version = Some v -> v < kv.1 ->
          kv.1 ∈ keys (current_mutations_by_version r.2)).
Proof.
  apply (clearOldMutations_reclaims (fun _ => 0) 100 true example_finished).
  lia.
Defined.

(** Mutation 5 is finished: the only part has data-version 5. TRUNCATE
    removes its entry although 5 is not below the minimum data-version. *)
Lemma clearOldMutations_removes_version_at_minimum :
  let r := clearOldMutations (fun _ => 0) 100 true example_finished in
  getMinPartDataVersion example_finished = Some 5
  /\ keys (current_mutations_by_version example_finished) = [5]
  /\ r.1 = Return 1
  /\ current_mutations_by_version r.2 = [].
Proof. vm_compute. repeat split. Qed.

Lemma selectPartsToMerge_memory_gate_witness :
  let attempts := Z.to_nat (Z.quot 3500 1000) in
  let st := mkSelection 0 0 [] in
  let select :=
    selectPartsToMerge (fun _ => false) 1000 (inl SelectMergeFailure.NOTHING_TO_MERGE)
      (fun _ => inl SelectMergeFailure.NOTHING_TO_MERGE) (fun _ => None) 3500
      (fun _ => false) (fun _ => false) in
  select 1%nat "" false st
  = (Some (inl SelectMergeFailure.CANNOT_SELECT),
     mkSelection 1 0 [MemoryCheck false])
  /\ select 1%nat "all" false st
     = (Some (inl SelectMergeFailure.CANNOT_SELECT),
        mkSelection (1 + attempts) 0 (failed_polls attempts ++ [MemoryCheck false])).
Proof.
  destruct (selectPartsToMerge_memory_gate (fun _ => false) 1000
              (inl SelectMergeFailure.NOTHING_TO_MERGE)
              (fun _ => inl SelectMergeFailure.NOTHING_TO_MERGE) (fun _ => None)
              3500 (fun _ => false) (fun _ => false) 0%nat "" false
              (mkSelection 0 0 [])) as [Hno_hint _].
  destruct (selectPartsToMerge_memory_gate (fun _ => false) 1000
              (inl SelectMergeFailure.NOTHING_TO_MERGE)
              (fun _ => inl SelectMergeFailure.NOTHING_TO_MERGE) (fun _ => None)
              3500 (fun _ => false) (fun _ => false) 0%nat "all" false
              (mkSelection 0 0 [])) as [_ Hhint].
  split.
  - simpl in Hno_hint. apply Hno_hint; reflexivity.
  - apply Hhint; [discriminate|reflexivity].
Defined.

(** With a timeout of 3.5 s the hinted selection checks four times, one
    second apart, before it gives up. *)
Example selectPartsToMerge_polls_three_times :
  (selectPartsToMerge (fun _ => false) 1000 (inl SelectMergeFailure.NOTHING_TO_MERGE)
     (fun _ => inl SelectMergeFailure.NOTHING_TO_MERGE) (fun _ => None) 3500
     (fun _ => false) (fun _ => false) 1%nat "all" false (mkSelection 0 0 [])).2
  = mkSelection 4 0
      [MemoryCheck false; SleepFor 1000; MemoryCheck false; SleepFor 1000;
       MemoryCheck false; SleepFor 1000; MemoryCheck false].
Proof. reflexivity. Qed.

Lemma getMaxLevelInBetween_half_open_witness :
  getMaxLevelInBetween (info example_left) (info example_right) example_two_parts
  = if bool_decide (0 <= 1)%nat
    then Return (max_level (take (1 - 0) (drop 0 (data_parts_by_info example_two_parts))))
    else Throw ErrorCodes.LOGICAL_ERROR.
Proof.
  apply (getMaxLevelInBetween_half_open (info example_left) (info example_right)
           example_two_parts 0%nat 1%nat); reflexivity.
Defined.

(** The right part has level 5, the left one level 0: the result is 0, not
    the maximum 5 over both end points. *)
Lemma getMaxLevelInBetween_ignores_right_level :
  getMaxLevelInBetween (info example_left) (info example_right) example_two_parts
  = Return 0
  /\ max_level [example_left; example_right] = 5
  /\ getMaxLevelInBetween (info example_left) (info example_right) example_two_parts
     <> Return (max_level [example_left; example_right]).
Proof. vm_compute. repeat split. discriminate. Qed.



(** Two visible parts against a limit of one: nothing moves. *)
Example movePartitionToTable_refuses_two_parts :
  movePartitionToTable (Return tt) (Return tt) (Return tt) (Return "all")
    (fun _ => true) (fun _ => "moved") 1 true true example_two_parts example_storage
  = (Throw ErrorCodes.TOO_MANY_PARTS, (example_two_parts, example_storage)).
Proof. reflexivity. Qed.

(** * Further properties of the storage *)

Lemma is_empty_nil {A} (l : list A) : is_empty l = true <-> l = [].
Proof. by destruct l. Qed.

(** ** Mutation versions around a data version *)

Lemma sorted_keys_lookup_lt m i j ki kj ei ej :
  sorted_keys m -> (i < j)%nat ->
  m !! i = Some (ki, ei) -> m !! j = Some (kj, ej) -> ki < kj.
Proof.
  revert i j. induction m as [|[k e] m IH]; intros i j Hs Hij Hi Hj; [done|].
  destruct Hs as [Hall Hs]. destruct j as [|j]; [lia|].
  destruct i as [|i]; simpl in *.
  - simplify_eq. rewrite Forall_forall in Hall.
    apply (Hall (kj, ej)). by eapply list_elem_of_lookup_2.
  - eapply IH; [done| |done|done]. lia.
Qed.

Lemma upper_bound_lookup k m i ki ei :
  sorted_keys m -> m !! i = Some (ki, ei) ->
  ((i < upper_bound k m)%nat <-> ki <= k).
Proof.
  revert i. induction m as [|[k' e] m IH]; intros i Hs Hi; [done|].
  destruct Hs as [Hall Hs]. simpl.
  destruct (k <? k') eqn:Hk.
  - apply Z.ltb_lt in Hk. split; [lia|]. intros Hle. exfalso.
    destruct i as [|i]; simpl in Hi; [simplify_eq; lia|].
    rewrite Forall_forall in Hall.
    apply list_elem_of_lookup_2, Hall in Hi. simpl in Hi. lia.
  - apply Z.ltb_ge in Hk. destruct i as [|i]; simpl in Hi.
    + simplify_eq. split; [done|lia].
    + rewrite <- (IH i Hs Hi). lia.
Qed.

(** X1. On a map with ascending versions, [getCurrentMutationVersion] is
    the greatest version not above the data version and
    [getNextMutationVersion] the least version above it; each returns 0
    when there is no such version. *)
Theorem mutation_versions_around data_version s :
  sorted_keys (current_mutations_by_version s) ->
  let m := current_mutations_by_version s in
  let current := getCurrentMutationVersion data_version s in
  let next := getNextMutationVersion data_version s in
  ((current = 0 /\ forall v, v ∈ keys m -> data_version < v)
   \/ (current ∈ keys m /\ current <= data_version
       /\ forall v, v ∈ keys m -> v <= data_version -> v <= current))
  /\ ((next = 0 /\ forall v, v ∈ keys m -> v <= data_version)
      \/ (next ∈ keys m /\ data_version < next
          /\ forall v, v ∈ keys m -> data_version < v -> next <= v)).
Proof.
  intros Hs m current next. subst current next.
  unfold getCurrentMutationVersion, getNextMutationVersion. fold m.
  assert (forall v, v ∈ keys m -> exists i e, m !! i = Some (v, e)) as Hkey.
  { intros v Hv. apply list_elem_of_fmap in Hv as ([v' e] & -> & Hin).
    apply list_elem_of_lookup_1 in Hin as [i Hi]. by exists i, e. }
  assert (forall i v e, m !! i = Some (v, e) -> v ∈ keys m) as Hin.
  { intros i v e Hi. apply list_elem_of_fmap. exists (v, e).
    split; [done|]. by eapply list_elem_of_lookup_2. }
  pose proof (upper_bound_le data_version m) as Hle.
  split.
  - case_bool_decide as H0.
    + left. split; [done|]. intros v Hv.
      destruct (Hkey v Hv) as (i & e & Hi).
      pose proof (upper_bound_lookup data_version m i v e Hs Hi). lia.
    + right. destruct (m !! pred (upper_bound data_version m))
        as [[version e]|] eqn:Hp.
      2:{ apply lookup_ge_None in Hp. lia. }
      split; [by eapply Hin|]. split.
      * apply (upper_bound_lookup data_version m _ version e Hs Hp). lia.
      * intros v Hv Hvle. destruct (Hkey v Hv) as (i & e' & Hi).
        pose proof (upper_bound_lookup data_version m i v e' Hs Hi) as Hiff.
        destruct (decide (i = pred (upper_bound data_version m))) as [->|Hne].
        { simplify_eq. lia. }
        assert (v < version); [|lia].
        eapply (sorted_keys_lookup_lt m i (pred (upper_bound data_version m)));
          [done| |done|done]. lia.
  - case_bool_decide as H0.
    + left. split; [done|]. intros v Hv.
      destruct (Hkey v Hv) as (i & e & Hi).
      apply (upper_bound_lookup data_version m i v e Hs Hi).
      apply lookup_lt_Some in Hi. lia.
    + right. destruct (m !! upper_bound data_version m)
        as [[version e]|] eqn:Hp.
      2:{ apply lookup_ge_None in Hp. lia. }
      split; [by eapply Hin|]. split.
      * pose proof (upper_bound_lookup data_version m _ version e Hs Hp). lia.
      * intros v Hv Hvlt. destruct (Hkey v Hv) as (i & e' & Hi).
        pose proof (upper_bound_lookup data_version m i v e' Hs Hi) as Hiff.
        destruct (decide (i = upper_bound data_version m)) as [->|Hne].
        { simplify_eq. lia. }
        assert (version < v); [|lia].
        eapply (sorted_keys_lookup_lt m (upper_bound data_version m) i);
          [done| |done|done]. lia.
Qed.

(** ** The allocator and the mutations it numbers *)

Lemma try_emplace_append k e m :
  Forall (fun kv => kv.1 < k) m -> try_emplace k e m = (m ++ [(k, e)], true).
Proof.
  induction m as [|[k' e'] m IH]; intros Hall; [done|].
  apply Forall_cons in Hall as [Hk Hall]. simpl in *.
  replace (k <? k') with false by lia. replace (k =? k') with false by lia.
  by rewrite IH.
Qed.

Lemma sorted_keys_snoc k e m :
  sorted_keys m -> Forall (fun kv => kv.1 < k) m -> sorted_keys (m ++ [(k, e)]).
Proof.
  induction m as [|[k' e'] m IH]; intros Hs Hall; simpl.
  - split; [constructor|done].
  - destruct Hs as [Hall' Hs]. apply Forall_cons in Hall as [Hk Hall].
    split; [|by apply IH]. apply Forall_app. split; [done|].
    constructor; [done|constructor].
Qed.

Lemma insert_block_append b s :
  Forall (fun b' => CommittingBlock.number b' < CommittingBlock.number b) s ->
  insert_block b s = s ++ [b].
Proof.
  induction s as [|b' s IH]; intros Hall; [done|].
  apply Forall_cons in Hall as [Hb Hall]. simpl.
  replace (CommittingBlock.number b <? CommittingBlock.number b') with false by lia.
  replace (CommittingBlock.number b =? CommittingBlock.number b') with false by lia.
  by rewrite IH.
Qed.

Lemma erase_block_append b s :
  Forall (fun b' => CommittingBlock.number b' < CommittingBlock.number b) s ->
  erase_block b (s ++ [b]) = s.
Proof.
  induction s as [|b' s IH]; intros Hall; simpl.
  - by rewrite Z.eqb_refl.
  - apply Forall_cons in Hall as [Hb Hall].
    replace (CommittingBlock.number b =? CommittingBlock.number b') with false by lia.
    by rewrite IH.
Qed.

Lemma sorted_blocks_snoc b s :
  sorted_blocks s ->
  Forall (fun b' => CommittingBlock.number b' < CommittingBlock.number b) s ->
  sorted_blocks (s ++ [b]).
Proof.
  induction s as [|b' s IH]; intros Hs Hall; simpl.
  - split; [constructor|done].
  - destruct Hs as [Hall' Hs]. apply Forall_cons in Hall as [Hb Hall].
    split; [|by apply IH]. apply Forall_app. split; [done|].
    constructor; [done|constructor].
Qed.

(** One allocation from a state the allocator covers. *)
Lemma allocateBlockNumber_covers op s :
  allocator_covers s -> increment s < Int64_max ->
  allocateBlockNumber op s
  = (CommittingBlock.mk op (increment s + 1),
     with_committing
       (committing_blocks s ++ [CommittingBlock.mk op (increment s + 1)])
       (with_increment (increment s + 1) s))
  /\ allocator_covers (allocateBlockNumber op s).2.
Proof.
  intros (Hsorted & Hkeys & Hblocks & Hnumbers & H0) Hmax.
  unfold allocateBlockNumber, increment_get.
  assert (to_UInt64 (increment s + 1) = increment s + 1) as ->
    by (apply to_UInt64_small; unfold Int64_max in Hmax; lia).
  assert (to_Int64 (increment s + 1) = increment s + 1) as ->
    by (apply to_Int64_small; unfold Int64_max in Hmax; lia).
  assert (Forall (fun b' => CommittingBlock.number b' < increment s + 1)
            (committing_blocks s)) as Hlt.
  { eapply Forall_impl; [exact Hnumbers|]. intros b Hb. simpl in Hb. lia. }
  simpl. rewrite insert_block_append by done.
  split; [done|]. unfold allocator_covers. simpl.
  split; [done|]. split.
  { eapply Forall_impl; [exact Hkeys|]. intros kv Hkv. simpl in Hkv. lia. }
  split; [by apply sorted_blocks_snoc|]. split; [|lia].
  apply Forall_app. split.
  - eapply Forall_impl; [exact Hnumbers|]. intros b Hb. simpl in Hb. lia.
  - constructor; [simpl; lia|constructor].
Qed.

(** X2. A block allocated on a covered state takes the number after the
    counter and goes to the end of the committing set; releasing it gives
    back the committing set found, and the state stays covered, so the next
    number is again new. *)
Theorem allocateBlockNumber_release op s :
  allocator_covers s -> increment s < Int64_max ->
  let block := (allocateBlockNumber op s).1 in
  let s1 := (allocateBlockNumber op s).2 in
  CommittingBlock.number block = increment s + 1
  /\ CommittingBlock.op block = op
  /\ Forall (fun b => CommittingBlock.number b < CommittingBlock.number block)
       (committing_blocks s)
  /\ committing_blocks s1 = committing_blocks s ++ [block]
  /\ committing_blocks (removeCommittingBlock block s1) = committing_blocks s
  /\ allocator_covers s1
  /\ allocator_covers (removeCommittingBlock block s1).
Proof.
  intros Hcov Hmax.
  destruct (allocateBlockNumber_covers op s Hcov Hmax) as [Heq Hcov1].
  rewrite Heq in *. simpl in *.
  destruct Hcov as (Hsorted & Hkeys & Hblocks & Hnumbers & H0).
  assert (Forall (fun b' => CommittingBlock.number b' < increment s + 1)
            (committing_blocks s)) as Hlt.
  { eapply Forall_impl; [exact Hnumbers|]. intros b Hb. simpl in Hb. lia. }
  split; [done|]. split; [done|]. split; [done|]. split; [done|].
  rewrite erase_block_append by done.
  split; [done|]. split; [done|].
  unfold allocator_covers. simpl. rewrite erase_block_append by done.
  split; [done|]. split.
  { eapply Forall_impl; [exact Hkeys|]. intros kv Hkv. simpl in Hkv. lia. }
  split; [done|]. split; [|lia].
  eapply Forall_impl; [exact Hnumbers|]. intros b Hb. simpl in Hb. lia.
Qed.

Lemma blocking_app max_block_number l1 l2 :
  blocking max_block_number (l1 ++ l2)
  = blocking max_block_number l1 ++ blocking max_block_number l2.
Proof. unfold blocking. apply List.filter_app. Qed.

Lemma all_committed_below max_block_number blocks rest :
  Forall (fun b => CommittingBlock.number b < max_block_number) blocks ->
  Forall (fun b => max_block_number <= CommittingBlock.number b) rest ->
  (all_committed max_block_number (blocks ++ rest) = true
   <-> Forall (fun b => CommittingBlock.op b = CommittingBlock.Update) blocks).
Proof.
  intros Hblocks Hrest. induction Hblocks as [|b blocks Hb Hblocks IH]; simpl.
  - split; [constructor|]. intros _. destruct Hrest as [|b rest Hb Hrest]; [done|].
    simpl. by replace (max_block_number <=? CommittingBlock.number b) with true by lia.
  - replace (max_block_number <=? CommittingBlock.number b) with false by lia.
    rewrite Forall_cons. case_bool_decide as Hop; simpl; [tauto|].
    split; [done|tauto].
Qed.

(** X3. A lightweight update that allocates its block on a covered state
    waits exactly for the blocks that are committing at that moment with an
    operation other than [Update]; neither its own block nor a block
    allocated later holds it back. If it finds none of those it returns at
    once; otherwise, unless one of them is released in time, it throws
    TIMEOUT_EXCEEDED. *)
Theorem update_waits_for_earlier_blocks s later :
  allocator_covers s -> increment s < Int64_max ->
  Forall (fun b => increment s + 1 < CommittingBlock.number b) later ->
  let block := (allocateBlockNumber CommittingBlock.Update s).1 in
  let s1 := (allocateBlockNumber CommittingBlock.Update s).2 in
  let waits_for :=
    List.filter
      (fun b => negb (bool_decide (CommittingBlock.op b = CommittingBlock.Update)))
      (committing_blocks s) in
  blocking (CommittingBlock.number block) (committing_blocks s1 ++ later)
  = waits_for
  /\ (waits_for = [] ->
      forall snapshots at_timeout,
        waitForCommittingInsertsAndMutations (CommittingBlock.number block)
          ((committing_blocks s1 ++ later) :: snapshots) at_timeout
        = Return tt)
  /\ (waits_for <> [] ->
      waitForCommittingInsertsAndMutations (CommittingBlock.number block)
        [] (committing_blocks s1 ++ later)
      = Throw ErrorCodes.TIMEOUT_EXCEEDED).
Proof.
  intros Hcov Hmax Hlater.
  destruct (allocateBlockNumber_covers CommittingBlock.Update s Hcov Hmax)
    as [Heq Hcov1].
  rewrite Heq in *. simpl in *. clear Heq Hcov1.
  destruct Hcov as (Hsorted & Hkeys & Hblocks & Hnumbers & H0).
  set (own := CommittingBlock.mk CommittingBlock.Update (increment s + 1)).
  assert (Forall (fun b => CommittingBlock.number b < increment s + 1)
            (committing_blocks s)) as Hlt.
  { eapply Forall_impl; [exact Hnumbers|]. intros b Hb. simpl in Hb. lia. }
  assert (Forall (fun b => increment s + 1 <= CommittingBlock.number b)
            (own :: later)) as Hge.
  { constructor; [simpl; lia|].
    eapply Forall_impl; [exact Hlater|]. intros b Hb. simpl in Hb. lia. }
  pose proof (all_committed_below _ _ _ Hlt Hge) as Hall.
  rewrite (app_assoc _ [own] later) in Hall.
  assert (Forall (fun b => CommittingBlock.op b = CommittingBlock.Update)
            (committing_blocks s)
          <-> List.filter
                (fun b => negb (bool_decide
                                  (CommittingBlock.op b = CommittingBlock.Update)))
                (committing_blocks s) = []) as Hnone.
  { clear. induction (committing_blocks s) as [|b bs IH]; simpl.
    - split; [done|constructor].
    - rewrite Forall_cons. case_bool_decide; simpl; [tauto|].
      split; [tauto|done]. }
  split; [|split].
  - rewrite !blocking_app. unfold blocking at 2 3. simpl.
    rewrite Z.ltb_irrefl. simpl.
    rewrite (filter_none _ later).
    2:{ intros b Hb. rewrite Forall_forall in Hlater. apply Hlater in Hb.
        replace (CommittingBlock.number b <? increment s + 1) with false by lia.
        done. }
    rewrite !app_nil_r. unfold blocking. apply List.filter_ext_in.
    intros b Hb. apply list_elem_of_In in Hb.
    rewrite Forall_forall in Hlt. apply Hlt in Hb.
    replace (CommittingBlock.number b <? increment s + 1) with true by lia.
    done.
  - intros Hempty snapshots at_timeout.
    unfold waitForCommittingInsertsAndMutations. simpl.
    apply Hnone, Hall in Hempty. by rewrite Hempty.
  - intros Hwaits. unfold waitForCommittingInsertsAndMutations. simpl.
    destruct (all_committed _ _) eqn:E; [|done].
    exfalso. apply Hwaits, Hnone, Hall. done.
Qed.

(** ** Starting a mutation *)

Section StartMutationProperties.
Variable committed_entry
  : MutationCommands -> TransactionID -> Z -> MergeTreeMutationEntry.

(** X4. On a covered state with a number left, [startMutation] never
    throws: it returns the version after the counter, appends the entry as
    the newest of the map, registers the mutation id with the query's
    transaction, counts the commands, triggers the background assignee and
    leaves the committing set as it found it; the state stays covered. *)
Theorem startMutation_appends commands_ txn s :
  allocator_covers s -> increment s < Int64_max ->
  let version := increment s + 1 in
  let current_tid :=
    match txn with Some t => txn_tid t | None => PrehistoricTID end in
  let entry := committed_entry commands_ current_tid version in
  let s' :=
    emit NotifyCommittingBlocks
      (emit TriggerBackgroundOperations
         (emit (IncrementMutationsCounters (commands entry))
            (with_mutations (current_mutations_by_version s ++ [(version, entry)])
               (with_increment version s)))) in
  startMutation committed_entry commands_ txn s
  = (Return version, addMutation (file_name entry) <$> txn, s')
  /\ allocator_covers s'
  /\ last_key (current_mutations_by_version s') = Some version
  /\ getNextMutationVersion (increment s) s' = version.
Proof.
  intros Hcov Hmax version current_tid entry s'.
  destruct (allocateBlockNumber_covers CommittingBlock.Mutation s Hcov Hmax)
    as [Heq _].
  destruct Hcov as (Hsorted & Hkeys & Hblocks & Hnumbers & H0).
  assert (Forall (fun kv : Z * MergeTreeMutationEntry => kv.1 < version)
            (current_mutations_by_version s)) as Hlt.
  { eapply Forall_impl; [exact Hkeys|]. intros kv Hkv. simpl in Hkv.
    unfold version. lia. }
  assert (Forall (fun b' => CommittingBlock.number b' < version)
            (committing_blocks s)) as Hblt.
  { eapply Forall_impl; [exact Hnumbers|]. intros b Hb. simpl in Hb.
    unfold version. lia. }
  split; [|split; [|split]].
  - unfold startMutation. rewrite Heq. simpl.
    fold version. fold current_tid. fold entry.
    rewrite try_emplace_append by done. simpl.
    unfold removeCommittingBlock. simpl.
    rewrite erase_block_append by done. done.
  - unfold allocator_covers, s'. simpl. fold version.
    split; [by apply sorted_keys_snoc|]. split.
    { apply Forall_app. split.
      - eapply Forall_impl; [exact Hlt|]. intros kv Hkv. simpl in Hkv. lia.
      - constructor; [simpl; lia|constructor]. }
    split; [done|]. split; [|unfold version; lia].
    eapply Forall_impl; [exact Hblt|]. intros b Hb. simpl in Hb. lia.
  - unfold s', last_key. simpl. by rewrite last_snoc.
  - unfold getNextMutationVersion, s'. simpl.
    assert (upper_bound (increment s)
              (current_mutations_by_version s ++ [(version, entry)])
            = length (current_mutations_by_version s)) as ->.
    { clear Hlt Hsorted. induction Hkeys as [|[k e] m Hk Hkeys IH]; simpl.
      - unfold version. by replace (increment s <? increment s + 1) with true by lia.
      - simpl in Hk. replace (increment s <? k) with false by lia.
        by rewrite IH. }
    rewrite length_app. simpl.
    case_bool_decide; [lia|].
    unfold MutationsMap. by rewrite list_lookup_middle.
Qed.
End StartMutationProperties.

(** ** Naming a new part *)

Lemma pending_above data_version m :
  Forall (fun kv => kv.1 <= data_version) m -> pending data_version m = [].
Proof.
  intros Hall. unfold pending. apply filter_none. intros kv Hkv.
  rewrite Forall_forall in Hall. apply Hall in Hkv. lia.
Qed.

Section FillNewPartNameProperties.
Variable getNewName : MergeTreePartInfo.t -> string.
Variable keep_non_zero_level : bool.

(** X5. A part named by [fillNewPartName] or
    [fillNewPartNameAndResetLevel] on a covered state is a single-block
    part whose block number is the one just allocated, still committing;
    its data version is at least that number, so none of the mutations
    registered so far is pending for it. The second function also resets
    the mutation number and leaves level 1 exactly when levels are kept
    and the part had a positive level, level 0 otherwise. *)
Theorem fillNewPartName_above_mutations part s :
  allocator_covers s -> increment s < Int64_max ->
  let filled := fillNewPartName getNewName part s in
  let reset := fillNewPartNameAndResetLevel getNewName keep_non_zero_level part s in
  let number := increment s + 1 in
  filled.1.2 = CommittingBlock.mk CommittingBlock.NewPart number
  /\ reset.1.2 = CommittingBlock.mk CommittingBlock.NewPart number
  /\ filled.2 = reset.2
  /\ filled.1.2 ∈ committing_blocks filled.2
  /\ info filled.1.1
     = MergeTreePartInfo.mk (MergeTreePartInfo.partition_id (info part))
         number number (MergeTreePartInfo.level (info part))
         (MergeTreePartInfo.mutation (info part))
  /\ info reset.1.1
     = MergeTreePartInfo.mk (MergeTreePartInfo.partition_id (info part))
         number number
         (if keep_non_zero_level && (0 <? MergeTreePartInfo.level (info part))
          then 1 else 0) 0
  /\ name filled.1.1 = getNewName (info filled.1.1)
  /\ name reset.1.1 = getNewName (info reset.1.1)
  /\ MergeTreePartInfo.getDataVersion (info reset.1.1) = number
  /\ pending (MergeTreePartInfo.getDataVersion (info filled.1.1))
       (current_mutations_by_version filled.2) = []
  /\ pending (MergeTreePartInfo.getDataVersion (info reset.1.1))
       (current_mutations_by_version reset.2) = [].
Proof.
  intros Hcov Hmax filled reset number. subst filled reset.
  unfold fillNewPartName, fillNewPartNameAndResetLevel.
  destruct (allocateBlockNumber_covers CommittingBlock.NewPart s Hcov Hmax)
    as [Heq _].
  rewrite Heq. simpl. fold number.
  destruct Hcov as (Hsorted & Hkeys & Hblocks & Hnumbers & H0).
  unfold MergeTreePartInfo.getDataVersion. simpl.
  split; [done|]. split; [done|]. split; [done|]. split.
  { apply elem_of_app. right. constructor. }
  split; [done|]. split; [done|]. split; [done|]. split; [done|].
  split; [unfold number; lia|].
  split; apply pending_above; (eapply Forall_impl; [exact Hkeys|]);
    intros kv Hkv; simpl in Hkv; unfold number; lia.
Qed.
End FillNewPartNameProperties.

(** ** Marking parts busy *)

Lemma untag_Some parts_ : forall busy busy',
  CurrentlyMergingPartsTagger.untag parts_ busy = Some busy'
  <-> NoDup (name <$> parts_)
      /\ (forall part, part ∈ parts_ -> name part ∈ busy)
      /\ busy' = busy ∖ list_to_set (name <$> parts_).
Proof.
  induction parts_ as [|part rest IH]; intros busy busy'; simpl.
  - split.
    + intros H. simplify_eq. split; [constructor|].
      split; [by intros p Hp; apply elem_of_nil in Hp|]. set_solver.
    + intros (_ & _ & ->). f_equal. set_solver.
  - case_bool_decide as Hin; simpl.
    + rewrite IH. rewrite NoDup_cons. split.
      * intros (Hnd & Hall & ->). split; [split; [|done]|split].
        -- intros Hdup. apply list_elem_of_fmap in Hdup as (p & Hname & Hp).
           apply Hall in Hp. rewrite <- Hname in Hp. set_solver.
        -- intros p [->|Hp]%elem_of_cons; [done|].
           apply Hall in Hp. set_solver.
        -- set_solver.
      * intros ([Hfresh Hnd] & Hall & ->). split; [done|]. split; [|set_solver].
        intros p Hp. apply elem_of_difference. split.
        -- apply Hall. by right.
        -- intros Heq%elem_of_singleton. apply Hfresh.
           apply list_elem_of_fmap. by exists p.
    + split; [done|]. intros (_ & Hall & _). exfalso. apply Hin, Hall. left.
Qed.

(** X6. The tagger is a scoped guard. With space reserved, constructing it
    fails with LOGICAL_ERROR exactly when one of the parts is already busy
    and then changes nothing; otherwise it adds the parts to the busy set,
    a second tagger on any of them fails until the first is destroyed, and
    destroying the first gives back the state found. A future part that
    lists a part twice makes the destructor terminate the process. *)
Theorem CurrentlyMergingPartsTagger_scoped future_part s :
  let names : gset string := list_to_set (name <$> parts future_part) in
  match CurrentlyMergingPartsTagger.construct future_part true s with
  | Throw code =>
      code = ErrorCodes.LOGICAL_ERROR
      /\ ~ names ## currently_merging_mutating_parts s
  | Return s1 =>
      names ## currently_merging_mutating_parts s
      /\ currently_merging_mutating_parts s1
         = names ∪ currently_merging_mutating_parts s
      /\ (parts future_part <> [] ->
          CurrentlyMergingPartsTagger.construct future_part true s1
          = Throw ErrorCodes.LOGICAL_ERROR)
      /\ (NoDup (name <$> parts future_part) ->
          CurrentlyMergingPartsTagger.destroy future_part s1 = Some s)
      /\ (~ NoDup (name <$> parts future_part) ->
          CurrentlyMergingPartsTagger.destroy future_part s1 = None)
  end.
Proof.
  intros names. unfold CurrentlyMergingPartsTagger.construct. simpl.
  destruct (existsb _ (parts future_part)) eqn:Hbusy.
  - split; [done|]. apply existsb_exists in Hbusy as (p & Hp & Hin).
    apply bool_decide_eq_true in Hin. apply list_elem_of_In in Hp.
    intros Hdisj. apply (Hdisj (name p)); [|done].
    apply elem_of_list_to_set, list_elem_of_fmap. by exists p.
  - assert (names ## currently_merging_mutating_parts s) as Hdisj.
    { intros x Hx Hb. apply elem_of_list_to_set, list_elem_of_fmap in Hx
        as (p & -> & Hp).
      apply not_true_iff_false in Hbusy. apply Hbusy, existsb_exists.
      exists p. split; [by apply list_elem_of_In|].
      by apply bool_decide_eq_true. }
    split; [done|]. split; [done|]. split; [|split].
    + intros Hne. simpl.
      match goal with
      | |- (if existsb ?f ?l then _ else _) = _ =>
          assert (existsb f l = true) as ->; [|done]
      end.
      destruct (parts future_part) as [|p ps] eqn:Hparts; [done|]. simpl.
      apply orb_true_iff. left. apply bool_decide_eq_true. set_solver.
    + intros Hnd. unfold CurrentlyMergingPartsTagger.destroy. simpl.
      destruct (CurrentlyMergingPartsTagger.untag _ _) as [busy|] eqn:Hu.
      * apply untag_Some in Hu as (_ & _ & ->). simpl.
        replace ((list_to_set (name <$> parts future_part)
                  ∪ currently_merging_mutating_parts s)
                 ∖ list_to_set (name <$> parts future_part))
          with (currently_merging_mutating_parts s) by set_solver.
        by destruct s.
      * exfalso. assert (is_Some (CurrentlyMergingPartsTagger.untag
                                    (parts future_part)
                                    (names ∪ currently_merging_mutating_parts s)))
          as [busy Hsome]; [|unfold names in Hsome; congruence].
        eexists. apply untag_Some. split; [done|]. split; [|done].
        intros p Hp. apply elem_of_union. left.
        apply elem_of_list_to_set, list_elem_of_fmap. by exists p.
    + intros Hdup. unfold CurrentlyMergingPartsTagger.destroy. simpl.
      destruct (CurrentlyMergingPartsTagger.untag _ _) as [busy|] eqn:Hu;
        [|done].
      apply untag_Some in Hu as (Hnd & _). done.
Qed.

(** ** Waiting for running merges *)

Lemma countOccurrences_zero haystack needle :
  countOccurrences haystack needle = 0%nat
  <-> forall p, p ∈ needle -> name p ∉ haystack.
Proof.
  unfold countOccurrences.
  assert (forall total,
            foldl (fun total n =>
                     (total + if bool_decide (name n ∈ haystack) then 1 else 0)%nat)
              total needle = 0%nat
            <-> total = 0%nat /\ forall p, p ∈ needle -> name p ∉ haystack)
    as Hgen.
  { induction needle as [|n needle IH]; intros total; simpl.
    - split; [|tauto]. intros ->. split; [done|].
      intros p Hp. by apply elem_of_nil in Hp.
    - rewrite IH. case_bool_decide as Hn; split.
      + intros [? _]. lia.
      + intros [_ Hall]. exfalso. apply (Hall n); [left|done].
      + intros [? Hall]. split; [lia|].
        intros p [->|Hp]%elem_of_cons; [done|by apply Hall].
      + intros [-> Hall]. split; [lia|]. intros p Hp. apply Hall. by right. }
  rewrite Hgen. tauto.
Qed.

Lemma wait_while_returns cond wakeups : forall busy busy',
  wait_while cond busy wakeups = Some (Return tt, busy') -> cond busy' = false.
Proof.
  induction wakeups as [|w wakeups IH]; intros busy busy'; simpl.
  - destruct (cond busy) eqn:Hc; simpl; [done|]. intros H. by simplify_eq.
  - destruct (cond busy) eqn:Hc; simpl.
    + destruct w as [busy1|]; [apply IH|done].
    + intros H. by simplify_eq.
Qed.

Lemma wait_while_weaker cond1 cond2 wakeups : forall busy busy1,
  (forall b, cond2 b = true -> cond1 b = true) ->
  wait_while cond1 busy wakeups = Some (Return tt, busy1) ->
  exists busy2, wait_while cond2 busy wakeups = Some (Return tt, busy2).
Proof.
  induction wakeups as [|w wakeups IH]; intros busy busy1 Himp; simpl.
  - destruct (cond1 busy) eqn:Hc1; simpl; [done|]. intros _.
    destruct (cond2 busy) eqn:Hc2; simpl; [|by eexists].
    apply Himp in Hc2. congruence.
  - destruct (cond1 busy) eqn:Hc1; simpl.
    + destruct w as [busy'|]; [|done]. intros H.
      destruct (cond2 busy) eqn:Hc2; simpl; [by eapply IH|by eexists].
    + intros _. destruct (cond2 busy) eqn:Hc2; simpl; [|by eexists].
      apply Himp in Hc2. congruence.
Qed.

(** X7. [stopMergesAndWait] returns only once no part at all is busy,
    [stopMergesAndWaitForPartition] once no Active part of the partition
    is: busy parts elsewhere do not hold the second one back, so it returns
    at once when the partition is idle and, on the same wake-ups, whenever
    the first one returns. *)
Theorem stopMergesAndWaitForPartition_waits_less partition_id wakeups s :
  let parts_to_wait :=
    getDataPartsVectorInPartitionForInternalUsage Active partition_id s in
  (forall busy, stopMergesAndWait wakeups s = Some (Return tt, busy) ->
     busy = ∅)
  /\ (forall busy,
        stopMergesAndWaitForPartition partition_id wakeups s
        = Some (Return tt, busy) ->
        forall p, p ∈ parts_to_wait -> name p ∉ busy)
  /\ ((forall p, p ∈ parts_to_wait ->
         name p ∉ currently_merging_mutating_parts s) ->
      stopMergesAndWaitForPartition partition_id wakeups s
      = Some (Return tt, currently_merging_mutating_parts s))
  /\ (forall busy, stopMergesAndWait wakeups s = Some (Return tt, busy) ->
      exists busy',
        stopMergesAndWaitForPartition partition_id wakeups s
        = Some (Return tt, busy')).
Proof.
  intros parts_to_wait.
  unfold stopMergesAndWait, stopMergesAndWaitForPartition. fold parts_to_wait.
  split; [|split; [|split]].
  - intros busy H. apply wait_while_returns in H.
    apply negb_false_iff, bool_decide_eq_true in H. done.
  - intros busy H. apply wait_while_returns in H.
    apply negb_false_iff, Nat.eqb_eq in H. by apply countOccurrences_zero.
  - intros Hidle. apply countOccurrences_zero in Hidle.
    destruct wakeups; simpl; by rewrite Hidle.
  - intros busy H. eapply wait_while_weaker; [|exact H].
    intros b Hb. apply negb_true_iff, Nat.eqb_neq in Hb.
    apply negb_true_iff, bool_decide_eq_false. intros ->. apply Hb.
    apply countOccurrences_zero. intros p _. set_solver.
Qed.

(** ** Outdating one part *)

Lemma getPartIfExistsUnlocked_Some part_name states s part :
  getPartIfExistsUnlocked part_name states s = Some part ->
  (part ∈ data_parts_by_info s) /\ name part = part_name /\ (state part ∈ states).
Proof.
  unfold getPartIfExistsUnlocked. intros H. apply find_some in H as [Hin Hp].
  apply andb_true_iff in Hp as [Hn Hs].
  apply bool_decide_eq_true in Hn, Hs. by apply list_elem_of_In in Hin.
Qed.

Lemma getPartIfExistsUnlocked_None part_name states s :
  getPartIfExistsUnlocked part_name states s = None
  <-> forall p, p ∈ data_parts_by_info s -> name p = part_name ->
                state p ∉ states.
Proof.
  unfold getPartIfExistsUnlocked. split.
  - intros H p Hp Hn Hs. apply list_elem_of_In in Hp.
    eapply find_none in H; [|exact Hp]. simpl in H.
    apply andb_false_iff in H as [H|H]; apply bool_decide_eq_false in H; done.
  - intros H. destruct (find _ _) as [p|] eqn:Hf; [|done].
    apply find_some in Hf as [Hin Hp]. apply list_elem_of_In in Hin.
    apply andb_true_iff in Hp as [Hn Hs]. apply bool_decide_eq_true in Hn, Hs.
    by destruct (H p Hin Hn).
Qed.

(** The index after the part of that name has left the working set. *)
Lemma removePartsFromWorkingSet_one part s :
  data_parts_by_info (removePartsFromWorkingSet [part] s)
  = (fun p => if bool_decide (name p = name part) then with_state Outdated p
              else p) <$> data_parts_by_info s.
Proof.
  unfold removePartsFromWorkingSet. simpl. apply list_fmap_ext.
  intros i p _. repeat case_bool_decide; set_solver.
Qed.

Lemma filter_busy_outdated (busy : gset string) part_name ps :
  part_name ∉ busy ->
  List.filter (fun p => bool_decide (name p ∈ busy))
    ((fun p => if bool_decide (name p = part_name) then with_state Outdated p
               else p) <$> ps)
  = List.filter (fun p => bool_decide (name p ∈ busy)) ps.
Proof.
  intros Hfree. induction ps as [|p ps IH]; [done|].
  rewrite fmap_cons. cbn [List.filter]. rewrite IH.
  destruct (bool_decide (name p = part_name)) eqn:Hp; [|done].
  apply bool_decide_eq_true in Hp. simpl. rewrite Hp.
  by rewrite bool_decide_eq_false_2.
Qed.

(** X8. Without [force], [outdatePart] never throws and never touches a
    busy part: it returns a null pointer and changes nothing when no Active
    part has that name or the part is busy; otherwise it moves the part out
    of the working set and returns it, every other part and the busy set
    staying as they are. With [force] it passes on a failure to stop the
    merges and throws NO_SUCH_DATA_PART when no Active part has that
    name. *)
Theorem outdatePart_spares_busy_parts stopped part_name s :
  let gentle := outdatePart stopped part_name false s in
  let forced := outdatePart stopped part_name true s in
  currently_merging_mutating_parts gentle.2 = currently_merging_mutating_parts s
  /\ List.filter (fun p => bool_decide (name p ∈ currently_merging_mutating_parts s))
       (data_parts_by_info gentle.2)
     = List.filter (fun p => bool_decide (name p ∈ currently_merging_mutating_parts s))
         (data_parts_by_info s)
  /\ match gentle.1 with
     | Throw _ => False
     | Return None =>
         gentle.2 = s
         /\ forall p, p ∈ data_parts_by_info s -> name p = part_name ->
                      state p = Active ->
                      part_name ∈ currently_merging_mutating_parts s
     | Return (Some part) =>
         name part = part_name /\ state part = Outdated
         /\ (with_state Active part ∈ data_parts_by_info s)
         /\ (part_name ∉ currently_merging_mutating_parts s)
         /\ data_parts_by_info gentle.2
            = (fun p => if bool_decide (name p = part_name)
                        then with_state Outdated p else p)
                <$> data_parts_by_info s
     end
  /\ match stopped, forced.1 with
     | Throw code, r => r = Throw code /\ forced.2 = s
     | Return _, Throw code =>
         code = ErrorCodes.NO_SUCH_DATA_PART /\ forced.2 = s
         /\ forall p, p ∈ data_parts_by_info s -> name p = part_name ->
                      state p <> Active
     | Return _, Return r =>
         exists part, r = Some part /\ name part = part_name
                      /\ (with_state Active part ∈ data_parts_by_info s)
     end.
Proof.
  intros gentle forced. subst gentle forced. unfold outdatePart.
  assert (forall part, state part = Active ->
            with_state Active (with_state Outdated part) = part) as Hback.
  { intros [n i st b r] Hst. simpl in Hst. by subst. }
  destruct (getPartIfExistsUnlocked part_name [Active] s) as [part|] eqn:Hfind.
  - apply getPartIfExistsUnlocked_Some in Hfind as (Hin & Hname & Hstate).
    apply list_elem_of_singleton in Hstate.
    split; [|split; [|split]].
    + by case_bool_decide.
    + case_bool_decide as Hbusy; [done|]. cbn [snd].
      rewrite removePartsFromWorkingSet_one. apply filter_busy_outdated.
      congruence.
    + case_bool_decide as Hbusy; cbn [fst snd].
      * split; [done|]. intros. congruence.
      * simpl. split; [done|]. split; [done|]. rewrite Hback by done.
        split; [done|]. split; [congruence|].
        rewrite <- Hname. exact (removePartsFromWorkingSet_one part s).
    + destruct stopped as [[]|code]; cbn [fst snd]; [|done].
      exists (with_state Outdated part). split; [done|]. split; [done|].
      by rewrite Hback.
  - pose proof (proj1 (getPartIfExistsUnlocked_None _ _ _) Hfind) as Hnone.
    split; [done|]. split; [done|]. split.
    + cbn [fst snd]. split; [done|]. intros p Hp Hn Hst. exfalso.
      apply (Hnone p Hp Hn). rewrite Hst. by apply list_elem_of_singleton.
    + destruct stopped as [[]|code]; cbn [fst snd]; [|done].
      split; [done|]. split; [done|]. intros p Hp Hn Hst.
      apply (Hnone p Hp Hn). rewrite Hst. by apply list_elem_of_singleton.
Qed.

(** X9. [dropPartNoWaitNoThrow] drops a part at most once: it does
    nothing when no Active part has that name or the part is busy;
    otherwise it outdates the part, drops its info from the deduplication
    log if there is one and clears old parts from the filesystem. Calling
    it again with the same name does nothing more. *)
Theorem dropPartNoWaitNoThrow_once part_name deduplication_log s :
  let dropped := dropPartNoWaitNoThrow part_name deduplication_log s in
  dropPartNoWaitNoThrow part_name dropped.1 dropped.2 = dropped
  /\ match getPartIfExistsUnlocked part_name [Active] s with
     | None => dropped = (deduplication_log, s)
     | Some part =>
         if bool_decide (part_name ∈ currently_merging_mutating_parts s)
         then dropped = (deduplication_log, s)
         else dropped.1 = (fun log => info part :: log) <$> deduplication_log
              /\ effects dropped.2 = ClearOldPartsFromFilesystem :: effects s
              /\ data_parts_by_info dropped.2
                 = (fun p => if bool_decide (name p = part_name)
                             then with_state Outdated p else p)
                     <$> data_parts_by_info s
     end.
Proof.
  intros dropped. subst dropped. unfold dropPartNoWaitNoThrow, outdatePart.
  destruct (getPartIfExistsUnlocked part_name [Active] s) as [part|] eqn:Hfind.
  2:{ split; [|done]. cbn [fst snd]. by rewrite Hfind. }
  pose proof (getPartIfExistsUnlocked_Some _ _ _ _ Hfind) as (Hin & Hname & _).
  rewrite Hname. case_bool_decide as Hbusy.
  { split; [|done]. cbn [fst snd]. rewrite Hfind, Hname.
    by rewrite bool_decide_eq_true_2. }
  cbn [fst snd].
  assert (getPartIfExistsUnlocked part_name [Active]
            (emit ClearOldPartsFromFilesystem
               (removePartsFromWorkingSet [part] s)) = None) as Hgone.
  { apply getPartIfExistsUnlocked_None. intros p Hp Hn.
    change (data_parts_by_info (emit _ ?x)) with (data_parts_by_info x) in Hp.
    rewrite removePartsFromWorkingSet_one in Hp.
    apply list_elem_of_fmap in Hp as (p0 & -> & _).
    case_bool_decide as Hp0.
    - simpl. intros H%list_elem_of_singleton. done.
    - congruence. }
  split.
  - by rewrite Hgone.
  - split; [done|]. split; [done|].
    rewrite <- Hname. exact (removePartsFromWorkingSet_one part s).
Qed.

(** ** Status of all mutations *)

Lemma lower_bound_sorted range needle :
  StronglySorted (fun a b => pv_version a <= pv_version b) range ->
  take (lower_bound range needle) range
  = List.filter (fun e => comparator e needle) range.
Proof.
  induction 1 as [|e range Hs IH Hall]; [done|]. simpl.
  destruct (comparator e needle) eqn:He; simpl; [by rewrite IH|].
  symmetry. apply filter_none. intros e' Hin.
  rewrite Forall_forall in Hall. apply Hall in Hin.
  unfold comparator in *. lia.
Qed.

Lemma lower_bound_le range needle :
  (lower_bound range needle <= length range)%nat.
Proof.
  induction range as [|e range IH]; simpl; [lia|].
  destruct (comparator e needle); simpl; lia.
Qed.

Lemma List_filter_Permutation {A} (f : A -> bool) l l' :
  l ≡ₚ l' -> List.filter f l ≡ₚ List.filter f l'.
Proof.
  induction 1 as [|x l l' H IH|x y l|l l' l'' H IH H' IH']; simpl.
  - done.
  - destruct (f x); [by constructor|done].
  - destruct (f x), (f y); try done. apply perm_swap.
  - by etrans.
Qed.

Lemma List_filter_fmap {A B} (f : B -> bool) (g : A -> B) l :
  List.filter f (g <$> l) = g <$> List.filter (fun a => f (g a)) l.
Proof.
  induction l as [|a l IH]; [done|]. rewrite fmap_cons. cbn [List.filter].
  destruct (f (g a)); by rewrite IH.
Qed.

Section MutationsStatusProperties.
Variable std_sort : list PartVersionWithName -> list PartVersionWithName.
Variable formatWithSecretsOneLine : MutationCommand.t -> string.
Hypothesis std_sort_sorts : forall l,
  StronglySorted (fun a b => pv_version a <= pv_version b) (std_sort l)
  /\ std_sort l ≡ₚ l.

Lemma parts_to_do_lagging version s :
  pv_name <$> take (lower_bound (part_versions_with_names std_sort s)
                      (mkPartVersion (to_Int64 version) ""))
                (part_versions_with_names std_sort s)
  ≡ₚ name <$> lagging version s.
Proof.
  unfold part_versions_with_names, lagging.
  destruct (std_sort_sorts
              ((fun part => mkPartVersion
                              (MergeTreePartInfo.getDataVersion (info part))
                              (name part))
                 <$> getDataPartsVectorForInternalUsage s)) as [Hsorted Hperm].
  rewrite lower_bound_sorted by done.
  rewrite (List_filter_Permutation _ _ _ Hperm).
  rewrite List_filter_fmap. rewrite <- list_fmap_compose. done.
Qed.

Lemma parts_to_do_zero version s :
  lower_bound (part_versions_with_names std_sort s)
    (mkPartVersion (to_Int64 version) "") = 0%nat
  <-> lagging version s = [].
Proof.
  pose proof (parts_to_do_lagging version s) as Hperm.
  pose proof (lower_bound_le (part_versions_with_names std_sort s)
                (mkPartVersion (to_Int64 version) "")) as Hle.
  split.
  - intros H0. rewrite H0 in Hperm. simpl in Hperm.
    apply Permutation_nil_l in Hperm. symmetry in Hperm.
    by apply fmap_nil_inv in Hperm.
  - intros Hnil. rewrite Hnil in Hperm. apply Permutation_nil_r in Hperm.
    apply fmap_nil_inv in Hperm. apply (f_equal length) in Hperm.
    rewrite length_take in Hperm. simpl in Hperm. lia.
Qed.

(** X10. [getMutationsStatus] gives one row per command, in the order of
    the map and of the commands. In the rows of a mutation the parts to do
    are the Active parts with a data version below the mutation's version,
    each named once, and the mutation is reported done exactly when there
    is none; the failure fields are those of the entry. *)
Theorem getMutationsStatus_rows s :
  MutationStatusRow.id <$> getMutationsStatus std_sort formatWithSecretsOneLine s
  = concat ((fun kv => replicate (length (commands kv.2)) (file_name kv.2))
              <$> current_mutations_by_version s)
  /\ MutationStatusRow.command
       <$> getMutationsStatus std_sort formatWithSecretsOneLine s
     = formatWithSecretsOneLine
         <$> batch_commands (current_mutations_by_version s)
  /\ Forall
       (fun row =>
          exists version entry,
            (version, entry) ∈ current_mutations_by_version s
            /\ MutationStatusRow.id row = file_name entry
            /\ MutationStatusRow.create_time row = create_time entry
            /\ MutationStatusRow.block_numbers row = [("", block_number entry)]
            /\ MutationStatusRow.parts_to_do_names row
               ≡ₚ name <$> lagging version s
            /\ (MutationStatusRow.is_done row = true
                <-> forall p, p ∈ getDataPartsVectorForInternalUsage s ->
                      to_Int64 version
                      <= MergeTreePartInfo.getDataVersion (info p))
            /\ MutationStatusRow.latest_failed_part row = latest_failed_part entry
            /\ MutationStatusRow.latest_fail_time row = latest_fail_time entry
            /\ MutationStatusRow.latest_fail_reason row = latest_fail_reason entry
            /\ MutationStatusRow.latest_fail_error_code_name row
               = latest_fail_error_code_name entry)
       (getMutationsStatus std_sort formatWithSecretsOneLine s).
Proof.
  unfold getMutationsStatus, batch_commands.
  set (versions := part_versions_with_names std_sort s).
  split; [|split].
  - induction (current_mutations_by_version s) as [|[v e] m IH]; [done|].
    rewrite !fmap_cons. cbn [concat]. rewrite fmap_app, IH. f_equal.
    cbn [fst snd]. clear.
    induction (commands e) as [|c cs IH]; [done|].
    rewrite !fmap_cons, IH. done.
  - induction (current_mutations_by_version s) as [|[v e] m IH]; [done|].
    rewrite !fmap_cons. cbn [concat]. rewrite !fmap_app, IH. f_equal.
    rewrite <- list_fmap_compose. done.
  - apply Forall_concat, Forall_fmap, Forall_forall. intros [v e] Hin. simpl.
    apply Forall_fmap, Forall_forall. intros c Hc. simpl.
    exists v, e. split; [done|]. split; [done|]. split; [done|].
    split; [done|]. split; [apply parts_to_do_lagging|].
    split; [|done].
    rewrite is_empty_nil. split.
    + intros Hnil%fmap_nil_inv.
      apply (f_equal length) in Hnil. rewrite length_take in Hnil.
      pose proof (lower_bound_le versions (mkPartVersion (to_Int64 v) "")).
      assert (lower_bound versions (mkPartVersion (to_Int64 v) "") = 0%nat)
        as H0 by (simpl in Hnil; lia).
      apply parts_to_do_zero in H0. intros p Hp.
      destruct (MergeTreePartInfo.getDataVersion (info p) <? to_Int64 v)
        eqn:Hlt; [|lia].
      assert (p ∈ lagging v s) as Hlag.
      { apply list_elem_of_In, filter_In. split; [by apply list_elem_of_In|done]. }
      rewrite H0 in Hlag. by apply elem_of_nil in Hlag.
    + intros Hall.
      assert (lagging v s = []) as Hnil.
      { apply filter_none. intros p Hp. apply Hall in Hp. lia. }
      apply parts_to_do_zero in Hnil. unfold versions. by rewrite Hnil.
Qed.

(** X11. [getUnfinishedMutationCommands] maps a file name to the commands
    of the first mutation of that name, in version order, that still has an
    Active part with a data version below its version; a mutation that
    every Active part has reached is not listed. *)
Theorem getUnfinishedMutationCommands_lagging s file_name_ :
  getUnfinishedMutationCommands std_sort s !! file_name_
  = (fun kv => commands kv.2)
      <$> List.find
            (fun kv => bool_decide (file_name kv.2 = file_name_)
                       && negb (is_empty (lagging kv.1 s)))
            (current_mutations_by_version s).
Proof.
  unfold getUnfinishedMutationCommands.
  set (versions := part_versions_with_names std_sort s).
  assert (forall m (acc : gmap string MutationCommands),
            foldl
              (fun result kv =>
                 if (0 <? lower_bound versions
                            (mkPartVersion (to_Int64 kv.1) ""))%nat
                 then match result !! file_name kv.2 with
                      | Some _ => result
                      | None => <[file_name kv.2 := commands kv.2]> result
                      end
                 else result) acc m !! file_name_
            = match acc !! file_name_ with
              | Some cs => Some cs
              | None =>
                  (fun kv => commands kv.2)
                    <$> List.find
                          (fun kv => bool_decide (file_name kv.2 = file_name_)
                                     && negb (is_empty (lagging kv.1 s))) m
              end) as Hgen.
  { induction m as [|[v e] m IH]; intros acc; simpl.
    - by destruct (acc !! file_name_).
    - rewrite IH. clear IH.
      assert ((0 <? lower_bound versions (mkPartVersion (to_Int64 v) ""))%nat
              = negb (is_empty (lagging v s))) as ->.
      { pose proof (parts_to_do_zero v s) as Hz. fold versions in Hz.
        destruct (lagging v s) eqn:Hl; simpl.
        - apply Nat.ltb_ge. destruct Hz as [_ Hz]. rewrite Hz; done.
        - apply Nat.ltb_lt. destruct (lower_bound _ _); [|lia].
          destruct Hz as [Hz _]. by specialize (Hz eq_refl). }
      destruct (negb (is_empty (lagging v s))); simpl.
      + destruct (acc !! file_name e) as [cs|] eqn:Hacc.
        * destruct (acc !! file_name_) as [cs'|] eqn:Hacc'; [done|].
          case_bool_decide as Hname; [|done]. congruence.
        * case_bool_decide as Hname.
          -- subst. rewrite lookup_insert, Hacc. simpl. by rewrite decide_True.
          -- rewrite lookup_insert_ne by done. done.
      + by rewrite andb_false_r. }
  rewrite Hgen. by rewrite lookup_empty.
Qed.
End MutationsStatusProperties.

(** ** Status of one mutation and its waiters *)

Section MutationStatusProperties.
Variable tryGetRunningTransaction : TransactionID -> bool.
Variable getVisibleDataPartsVector : option TransactionID -> list DataPart.
Variable getHash : TransactionID -> Z.
Variable now : Z.

Local Abbreviation status :=
  (getIncompleteMutationsStatusUnlocked tryGetRunningTransaction
     getVisibleDataPartsVector getHash now).
Local Abbreviation over_parts :=
  (status_over_parts getHash now).

Lemma status_over_parts_failed version entry txn want from m data_parts :
  latest_fail_reason entry <> "" ->
  let r := over_parts version entry txn want from m data_parts in
  (MergeTreeMutationStatus.is_done r.1 = true /\ r.2 = []
   /\ MergeTreeMutationStatus.latest_fail_reason r.1 = "")
  \/ (MergeTreeMutationStatus.is_done r.1 = false
      /\ MergeTreeMutationStatus.latest_fail_reason r.1 = latest_fail_reason entry
      /\ MergeTreeMutationStatus.latest_failed_part r.1 = latest_failed_part entry
      /\ exists p, p ∈ data_parts
           /\ MergeTreePartInfo.getDataVersion (info p) < version
           /\ r.2 = if want
                    then same_failure (latest_fail_reason entry)
                           (drop (upper_bound
                                    (to_UInt64
                                       (MergeTreePartInfo.getDataVersion (info p)))
                                    m) m)
                    else []).
Proof.
  intros Hreason. induction data_parts as [|p ps IH]; simpl; [by left|].
  destruct (MergeTreePartInfo.getDataVersion (info p) <? version) eqn:Hlt.
  - apply Z.ltb_lt in Hlt. rewrite bool_decide_eq_false_2 by done. simpl.
    right. split; [done|]. split; [done|]. split; [done|].
    exists p. split; [left|]. done.
  - destruct IH as [IH|(? & ? & ? & p' & Hp' & ? & ?)]; [by left|].
    right. split; [done|]. split; [done|]. split; [done|].
    exists p'. split; [by right|]. done.
Qed.

Lemma same_failure_failed_alike data_version reason m :
  sorted_keys m ->
  same_failure reason (drop (upper_bound (to_UInt64 data_version) m) m)
  = failed_alike data_version reason m.
Proof.
  intros Hsorted. rewrite drop_upper_bound by done. clear Hsorted.
  unfold same_failure, failed_alike.
  induction m as [|[k e] m IH]; simpl; [done|].
  destruct (to_UInt64 data_version <? k); simpl; [|exact IH].
  destruct (bool_decide (latest_fail_reason e = reason)); simpl; [|exact IH].
  f_equal. exact IH.
Qed.

Lemma status_over_parts_reported version entry txn want from m data_parts :
  sorted_keys m ->
  (to_UInt64 version, entry) ∈ m ->
  let r := over_parts version entry txn want from m data_parts in
  match first_lagging version data_parts with
  | None => r.1 = MergeTreeMutationStatus.mk true "" 0 "" "" /\ r.2 = []
  | Some part =>
      MergeTreeMutationStatus.is_done r.1 = false
      /\ (latest_fail_reason entry <> "" ->
          r.1 = MergeTreeMutationStatus.mk false
                  (latest_failed_part entry) (latest_fail_time entry)
                  (latest_fail_reason entry) (latest_fail_error_code_name entry)
          /\ r.2 = (if want
                    then failed_alike
                           (MergeTreePartInfo.getDataVersion (info part))
                           (latest_fail_reason entry) m
                    else [])
          /\ (want = true ->
              to_UInt64 (MergeTreePartInfo.getDataVersion (info part))
              < to_UInt64 version ->
              file_name entry ∈ r.2))
      /\ (latest_fail_reason entry = "" ->
          r.2 = []
          /\ r.1 = if bool_decide (is_Some txn) && negb from
                      && negb (removal_tid_lock part =? 0)
                      && negb (removal_tid_lock part =? getHash (tid entry))
                   then MergeTreeMutationStatus.mk false (name part) now
                          ("Serialization error: part " +:+ name part
                             +:+ " is locked by transaction "
                             +:+ pretty (removal_tid_lock part))
                          "PART_IS_LOCKED"
                   else MergeTreeMutationStatus.not_done)
  end.
Proof.
  intros Hsorted Hentry.
  induction data_parts as [|p ps IH]; [done|].
  unfold first_lagging in *. cbn [List.find status_over_parts].
  destruct (MergeTreePartInfo.getDataVersion (info p) <? version) eqn:Hlt;
    [|exact IH].
  clear IH. cbv zeta.
  destruct (bool_decide (latest_fail_reason entry = "")) eqn:Hreason.
  - apply bool_decide_eq_true in Hreason. cbn [negb].
    split; [by destruct (_ && _); [destruct (_ && _)|]|].
    split; [done|]. intros _.
    destruct (bool_decide (is_Some txn) && negb from); simpl;
      [by destruct (_ && _)|done].
  - apply bool_decide_eq_false in Hreason. cbn [negb fst snd].
    split; [done|]. split; [|done]. intros _. split; [done|].
    rewrite same_failure_failed_alike by done. split; [done|].
    intros -> Hkey. unfold failed_alike. apply list_elem_of_fmap.
    exists (to_UInt64 version, entry). split; [done|].
    apply list_elem_of_In, filter_In. split; [by apply list_elem_of_In|].
    cbn [fst snd]. apply andb_true_iff. split; [by apply Z.ltb_lt|].
    by apply bool_decide_eq_true.
Qed.

(** X12. [getIncompleteMutationsStatusUnlocked] finds nothing exactly when
    no mutation is registered under the key its [Int64] version converts
    to. Otherwise it looks at the parts visible to the origin transaction
    of the mutation, which is the transaction of the entry when the entry
    was issued by one and the log still has it running, and no transaction
    otherwise. The mutation is reported done, without failure and without
    ids, exactly when none of these parts lags behind the version.
    Otherwise the report is made on the first part that lags: when the
    entry holds a failure, that failure is reported and the ids, if asked
    for, are the file names of the mutations above the data version of that
    part that failed for the same reason, the mutation's own among them
    when its key lies above that data version; when the entry holds no
    failure, a part locked by another transaction is reported as a
    serialization error, provided the mutation has a transaction and is not
    looked at on behalf of another mutation, and nothing is reported
    otherwise. *)
Theorem getIncompleteMutationsStatusUnlocked_reports version want from s :
  sorted_keys (current_mutations_by_version s) ->
  reported tryGetRunningTransaction getVisibleDataPartsVector getHash now
    version want from s (status version want from s).
Proof.
  intros Hsorted. unfold getIncompleteMutationsStatusUnlocked, reported.
  destruct (find_version (to_UInt64 version) (current_mutations_by_version s))
    as [it|] eqn:Hfind; [|by apply find_version_None].
  destruct (find_version_lookup _ _ _ Hfind) as [entry Hit]. rewrite Hit.
  assert ((to_UInt64 version, entry) ∈ current_mutations_by_version s)
    as Hentry by (by eapply list_elem_of_lookup_2).
  assert (tryGetTransactionForMutation tryGetRunningTransaction entry
          = if negb (isPrehistoric (tid entry))
               && tryGetRunningTransaction (tid entry)
            then Some (tid entry) else None) as ->.
  { unfold tryGetTransactionForMutation.
    by destruct (isPrehistoric (tid entry)),
      (tryGetRunningTransaction (tid entry)). }
  set (txn := if negb (isPrehistoric (tid entry))
                 && tryGetRunningTransaction (tid entry)
              then Some (tid entry) else None).
  pose proof (status_over_parts_reported version entry txn want from
                (current_mutations_by_version s)
                (getVisibleDataPartsVector txn) Hsorted Hentry) as Hreport.
  cbv zeta in Hreport.
  destruct (over_parts version entry txn want from
              (current_mutations_by_version s)
              (getVisibleDataPartsVector txn)) as [st ids].
  exists entry. split; [done|]. exact Hreport.
Qed.
End MutationStatusProperties.

(** ** A recorded outcome and the waiters *)

Section RecordedOutcomeProperties.
Variable backoff_base : Z.
Variable now : Z.
Variable max_postpone_time_for_failed_mutations_ms : Z.

Local Abbreviation record_outcome :=
  (updateMutationEntriesErrors backoff_base now
     max_postpone_time_for_failed_mutations_ms).

(** The state [updateMutationEntriesErrors] leaves, on a map with
    ascending versions and a result part not older than its source. *)
Lemma updateMutationEntriesErrors_completes result_part failed_part others
    is_successful exception_message error_code_name s :
  sorted_keys (current_mutations_by_version s) ->
  parts result_part = failed_part :: others ->
  MergeTreePartInfo.getDataVersion (info failed_part)
  <= MergeTreePartInfo.getDataVersion (part_info result_part) ->
  let src := MergeTreePartInfo.getDataVersion (info failed_part) in
  let res := MergeTreePartInfo.getDataVersion (part_info result_part) in
  record_outcome result_part is_successful exception_message error_code_name s
  = Completed
      (emit NotifyMutationWait
         (with_backoff
            (foldl (fun bo kv =>
                      (update_entry backoff_base now
                         max_postpone_time_for_failed_mutations_ms result_part
                         failed_part is_successful exception_message
                         error_code_name kv.1 kv.2 bo).2)
               (mutation_backoff_policy s)
               (List.filter (fun kv => in_versions src res kv.1)
                  (current_mutations_by_version s)))
            (with_mutations
               ((fun kv => if in_versions src res kv.1
                           then (kv.1, recorded result_part failed_part
                                         is_successful now exception_message
                                         error_code_name kv.2)
                           else kv) <$> current_mutations_by_version s) s))).
Proof.
  intros Hsorted Hparts Hle src res.
  unfold updateMutationEntriesErrors. rewrite Hparts. fold src res.
  destruct (src =? res) eqn:Heq; simpl.
  - apply Z.eqb_eq in Heq.
    assert (forall v, in_versions src res v = false) as Hout.
    { intros v. unfold in_versions. rewrite <- Heq.
      destruct (src <? v) eqn:H1; [|done]. simpl.
      apply Z.ltb_lt in H1. apply Z.leb_gt. lia. }
    rewrite filter_none by (intros kv _; apply Hout). simpl.
    f_equal. destruct s as [st ps busy m bo inc cb eff].
    unfold emit, with_backoff, with_mutations. simpl.
    f_equal. rewrite <- (list_fmap_id m) at 1.
    apply list_fmap_ext. intros i kv _. by rewrite Hout.
  - destruct (update_entries_interval backoff_base now
                max_postpone_time_for_failed_mutations_ms result_part
                failed_part is_successful exception_message error_code_name
                src res (current_mutations_by_version s)
                (mutation_backoff_policy s) Hsorted Hle)
      as (rest & Hloop & Hmap).
    rewrite Hloop, Hmap. done.
Qed.

Section Waiters.
Variable tryGetRunningTransaction : TransactionID -> bool.
Variable getVisibleDataPartsVector : option TransactionID -> list DataPart.
Variable getHash : TransactionID -> Z.
Variable now' : Z.

Lemma find_version_fmap k (f : Z * MergeTreeMutationEntry -> Z * MergeTreeMutationEntry) m :
  (forall kv, (f kv).1 = kv.1) ->
  find_version k (f <$> m) = find_version k m.
Proof.
  intros Hf. induction m as [|[k' e'] m IH]; [done|].
  rewrite fmap_cons. pose proof (Hf (k', e')) as Hk.
  destruct (f (k', e')) as [k2 e2]. simpl in *. subst. by rewrite IH.
Qed.

(** X13. A recorded failure wakes the waiters: after
    [updateMutationEntriesErrors] has recorded a failure with a message,
    the condition [waitForMutation] waits for holds for every mutation
    whose version lies between the data versions of the source and of the
    result part, and the waiters have been notified. The version a waiter
    holds is an [Int64]; it is the key it converts to that lies between the
    two data versions. *)
Theorem updateMutationEntriesErrors_wakes_waiters result_part failed_part others
    exception_message error_code_name s version shutdown_called
    wait_for_another_mutation :
  sorted_keys (current_mutations_by_version s) ->
  parts result_part = failed_part :: others ->
  MergeTreePartInfo.getDataVersion (info failed_part)
  <= MergeTreePartInfo.getDataVersion (part_info result_part) ->
  exception_message <> "" ->
  in_versions (MergeTreePartInfo.getDataVersion (info failed_part))
    (MergeTreePartInfo.getDataVersion (part_info result_part))
    (to_UInt64 version) = true ->
  exists s',
    record_outcome result_part false exception_message error_code_name s
    = Completed s'
    /\ effects s' = NotifyMutationWait :: effects s
    /\ check tryGetRunningTransaction getVisibleDataPartsVector getHash now'
         shutdown_called version wait_for_another_mutation s' = true.
Proof.
  intros Hsorted Hparts Hle Hmsg Hin.
  rewrite (updateMutationEntriesErrors_completes _ _ _ _ _ _ _ Hsorted Hparts Hle).
  eexists. split; [done|]. split; [done|].
  unfold check. destruct shutdown_called; [done|].
  unfold getIncompleteMutationsStatusUnlocked. simpl.
  set (f := fun kv : Z * MergeTreeMutationEntry =>
              if in_versions (MergeTreePartInfo.getDataVersion (info failed_part))
                   (MergeTreePartInfo.getDataVersion (part_info result_part)) kv.1
              then (kv.1, recorded result_part failed_part false now
                            exception_message error_code_name kv.2)
              else kv).
  rewrite (find_version_fmap (to_UInt64 version) f).
  2:{ intros kv. unfold f. by destruct (in_versions _ _ kv.1). }
  destruct (find_version (to_UInt64 version) (current_mutations_by_version s))
    as [it|] eqn:Hfind; [|done].
  destruct (find_version_lookup _ _ _ Hfind) as [entry Hit].
  unfold MutationsMap in *. rewrite list_lookup_fmap, Hit. simpl.
  rewrite Hin.
  match goal with
  | |- context [status_over_parts _ _ _ ?e ?t ?w ?fr ?m ?ps] =>
      pose proof (status_over_parts_failed getHash now' version e t w fr m ps)
        as Hstatus;
      destruct (status_over_parts getHash now' version e t w fr m ps)
        as [st ids]
  end.
  simpl in Hstatus.
  destruct (Hstatus Hmsg) as [(Hd & _)|(_ & Hr & _)].
  - by rewrite Hd.
  - rewrite Hr. rewrite bool_decide_eq_false_2 by done. apply orb_true_r.
Qed.
End Waiters.

(** X14. A success wipes the failure recorded before it: when a mutation
    of a part fails and then succeeds with the same result part, which
    covers the source part, every entry of the interval has its failure
    fields cleared, the entries outside are as before the failure, and the
    part is not left in the failed parts of the backoff policy by the entry
    that names the result's mutation. *)
Theorem updateMutationEntriesErrors_success_after_failure result_part
    failed_part others exception_message error_code_name s :
  sorted_keys (current_mutations_by_version s) ->
  parts result_part = failed_part :: others ->
  MergeTreePartInfo.getDataVersion (info failed_part)
  <= MergeTreePartInfo.getDataVersion (part_info result_part) ->
  name failed_part <> "" ->
  MergeTreePartInfo.contains (part_info result_part) (info failed_part) = true ->
  let src := MergeTreePartInfo.getDataVersion (info failed_part) in
  let res := MergeTreePartInfo.getDataVersion (part_info result_part) in
  let mv := to_UInt64 (MergeTreePartInfo.mutation (part_info result_part)) in
  exists s1 s2,
    record_outcome result_part false exception_message error_code_name s
    = Completed s1
    /\ record_outcome result_part true "" "" s1 = Completed s2
    /\ current_mutations_by_version s2
       = (fun kv => if in_versions src res kv.1
                    then (kv.1, clear_latest_fail kv.2) else kv)
           <$> current_mutations_by_version s
    /\ mutation_backoff_policy s2
       = if bool_decide (mv ∈ keys (current_mutations_by_version s))
            && in_versions src res mv
         then delete (name failed_part) (mutation_backoff_policy s)
         else mutation_backoff_policy s.
Proof.
  intros Hsorted Hparts Hle Hname Hcontains src res mv.
  rewrite (updateMutationEntriesErrors_completes _ _ _ _ _ _ _ Hsorted Hparts Hle).
  fold src res. eexists. eexists. split; [done|].
  set (f := fun kv : Z * MergeTreeMutationEntry =>
              if in_versions src res kv.1
              then (kv.1, recorded result_part failed_part false now
                            exception_message error_code_name kv.2)
              else kv).
  assert (keys (f <$> current_mutations_by_version s)
          = keys (current_mutations_by_version s)) as Hkeys.
  { unfold keys. rewrite <- list_fmap_compose. apply list_fmap_ext.
    intros i kv _. simpl. unfold f. by destruct (in_versions _ _ kv.1). }
  assert (sorted_keys (f <$> current_mutations_by_version s)) as Hsorted'.
  { eapply sorted_keys_keys; [symmetry; exact Hkeys|done]. }
  rewrite updateMutationEntriesErrors_completes with (failed_part := failed_part)
    (others := others); [|exact Hsorted'|done|done].
  fold src res. split; [done|].
  cbn [current_mutations_by_version mutation_backoff_policy emit with_backoff
         with_mutations]. split.
  - rewrite <- list_fmap_compose. apply list_fmap_ext. intros i [v e] _.
    simpl. unfold f. simpl. destruct (in_versions src res v) eqn:Hin; simpl.
    + rewrite Hin. f_equal. unfold recorded. simpl.
      rewrite bool_decide_eq_false_2 by done. simpl. by rewrite Hcontains.
    + by rewrite Hin.
  - rewrite !backoff_fold_find.
    2:{ by apply sorted_keys_filter. }
    2:{ by apply sorted_keys_filter. }
    fold mv.
    assert (forall m,
              List.find (fun kv : Z * MergeTreeMutationEntry => mv =? kv.1)
                (List.filter (fun kv => in_versions src res kv.1) (f <$> m))
              = f <$> List.find (fun kv => mv =? kv.1)
                        (List.filter (fun kv => in_versions src res kv.1) m))
      as Hfind.
    { induction m as [|[v e] m IH]; [done|]. rewrite fmap_cons.
      unfold f at 1. cbn [List.filter fst snd].
      destruct (in_versions src res v) eqn:Hin; cbn [fst snd]; rewrite ?Hin;
        [|exact IH].
      simpl. destruct (mv =? v) eqn:Hv; [|exact IH].
      simpl. unfold f. simpl. by rewrite Hin. }
    rewrite Hfind.
    destruct (List.find (fun kv => mv =? kv.1)
                (List.filter (fun kv => in_versions src res kv.1)
                   (current_mutations_by_version s))) as [[v e]|] eqn:Hf.
    + pose proof (find_some _ _ Hf) as [Hin Hv]. simpl in Hv.
      apply Z.eqb_eq in Hv. subst v.
      apply filter_In in Hin as [Hin Hint]. simpl in Hint.
      rewrite Hint. rewrite bool_decide_eq_true_2.
      2:{ apply list_elem_of_fmap. exists (mv, e).
          split; [done|by apply list_elem_of_In]. }
      simpl. unfold f. simpl. rewrite Hint. simpl.
      unfold update_entry. simpl.
      rewrite bool_decide_eq_false_2 by done. simpl. rewrite Hcontains.
      fold mv. rewrite Z.eqb_refl.
      unfold PartMutationBackoffPolicy.removePartFromFailed,
        PartMutationBackoffPolicy.addPartMutationFailure.
      by rewrite delete_insert_eq.
    + simpl. destruct (bool_decide _ && _) eqn:Hboth; [|done]. exfalso.
      apply andb_true_iff in Hboth as [Hkey Hint].
      apply bool_decide_eq_true, list_elem_of_fmap in Hkey as ([v e] & Hv & Hin).
      simpl in Hv. subst v.
      eapply find_none in Hf.
      2:{ apply filter_In. split; [by apply list_elem_of_In|exact Hint]. }
      simpl in Hf. lia.
Qed.
End RecordedOutcomeProperties.

(** ** Reclaiming finished mutations, twice *)

Lemma finished_prefix_app min_version l1 l2 :
  Forall (fun kv => (match min_version with Some v => kv.1 <=? v | None => true end)
                    && isPrehistoric (tid kv.2) = true) l1 ->
  finished_prefix min_version (l1 ++ l2)
  = (length l1 + finished_prefix min_version l2)%nat.
Proof.
  induction 1 as [|[k e] l1 Hkv Hall IH]; [done|]. simpl in *.
  by rewrite Hkv, IH.
Qed.

Lemma finished_prefix_take min_version m :
  Forall (fun kv => (match min_version with Some v => kv.1 <=? v | None => true end)
                    && isPrehistoric (tid kv.2) = true)
    (take (finished_prefix min_version m) m).
Proof.
  induction m as [|[k e] m IH]; simpl; [constructor|].
  destruct (_ && isPrehistoric (tid e)) eqn:Hc; simpl; [|constructor].
  by constructor.
Qed.

Lemma finished_prefix_drop min_version m :
  finished_prefix min_version (drop (finished_prefix min_version m) m) = 0%nat.
Proof.
  induction m as [|[k e] m IH]; simpl; [done|].
  destruct (_ && isPrehistoric (tid e)) eqn:Hc; simpl; [done|]. by rewrite Hc.
Qed.

Lemma mark_done_count it end_it rest :
  0 <= (mark_done it end_it rest).2.
Proof.
  revert it. induction rest as [|[v e] rest IH]; intros it; simpl.
  - by case_bool_decide.
  - case_bool_decide; [done|]. destruct (negb (isPrehistoric (tid e))); [done|].
    specialize (IH (S it)).
    destruct (mark_done (S it) end_it rest) as [[rest' effs] n].
    simpl in *. destruct (negb (is_done e)); simpl; lia.
Qed.

(** Entries that are already done are counted without touching the
    counters. *)
Lemma mark_done_quiet rest : forall it end_it,
  Forall (fun kv => is_done kv.2 = true)
    (take (Z.to_nat (mark_done it end_it rest).2) rest) ->
  (mark_done it end_it rest).1.2 = [].
Proof.
  induction rest as [|[v e] rest IH]; intros it end_it; simpl.
  - by case_bool_decide.
  - case_bool_decide; [done|]. destruct (negb (isPrehistoric (tid e))); [done|].
    specialize (IH (S it) end_it).
    pose proof (mark_done_count (S it) end_it rest) as Hc.
    destruct (mark_done (S it) end_it rest) as [[rest' effs] n].
    simpl in *.
    assert (Z.to_nat (n + 1) = S (Z.to_nat n)) as Hn by lia.
    destruct (is_done e) eqn:Hd; simpl; rewrite Hn; simpl; intros Hall;
      apply Forall_cons in Hall as [He Hall]; simpl in He; [|congruence].
    by apply IH.
Qed.

Lemma foldl_emit_fields (files : list MergeTreeMutationEntry) s :
  let s' := foldl (fun acc mutation => emit (RemoveFile (file_name mutation)) acc)
              s files in
  data_parts_by_info s' = data_parts_by_info s
  /\ current_mutations_by_version s' = current_mutations_by_version s
  /\ effects s'
     = rev ((fun mutation => RemoveFile (file_name mutation)) <$> files)
         ++ effects s.
Proof.
  revert s. induction files as [|f files IH]; intros s; simpl; [done|].
  destruct (IH (emit (RemoveFile (file_name f)) s)) as (Hp & Hm & He).
  simpl in *. rewrite Hp, Hm, He. split; [done|]. split; [done|].
  by rewrite <- app_assoc.
Qed.

Section ClearOldMutationsTwice.
Variable getCSN : TransactionID -> Z.
Variable finished_mutations_to_keep_setting : Z.

Local Abbreviation clear :=
  (clearOldMutations getCSN finished_mutations_to_keep_setting).

(** X15. [clearOldMutations] never throws on its own table, and running it
    again right away reclaims nothing more: the second call returns 0,
    removes no file, decrements no counter and leaves the state as the
    first call left it. *)
Theorem clearOldMutations_twice (truncate : bool) (s : StorageMergeTree) :
  0 <= finished_mutations_to_keep_setting ->
  let first := clear truncate s in
  (exists n : nat, first.1 = Return (Z.of_nat n))
  /\ clear truncate first.2 = (Return 0, first.2).
Proof.
  intros Hkeep first. subst first. unfold clearOldMutations.
  destruct (negb truncate && (finished_mutations_to_keep_setting =? 0)) eqn:Hearly.
  { split; [by exists 0%nat|]. done. }
  set (keep := if truncate then 0 else finished_mutations_to_keep_setting).
  assert (0 <= keep) as Hkeep0 by (unfold keep; destruct truncate; lia).
  set (m := current_mutations_by_version s).
  set (min_version := getMinPartDataVersion s).
  set (fin := finished_prefix min_version m).
  destruct (mark_done_finished min_version m) as (effs & Hmark).
  fold fin in Hmark. rewrite Hmark.
  pose proof (finished_prefix_le min_version m) as Hfin. fold fin in Hfin.
  pose proof (finished_prefix_take min_version m) as Htake. fold fin in Htake.
  set (mark := fun kv : Z * MergeTreeMutationEntry =>
                 (kv.1, if is_done kv.2 then kv.2 else set_is_done kv.2)).
  set (n := Z.to_nat (Z.max 0 (Z.of_nat fin - keep))).
  assert (n <= fin)%nat as Hn by lia.
  (* the map the first call leaves *)
  set (m' := drop n (mark_finished fin m)).
  assert (m' = (mark <$> drop n (take fin m)) ++ drop fin m) as Hm'.
  { unfold m', mark_finished. fold mark. rewrite drop_app_le.
    2:{ rewrite length_fmap, length_take. lia. }
    by rewrite fmap_drop. }
  assert (finished_prefix min_version m' = (fin - n)%nat
          /\ Forall (fun kv => is_done kv.2 = true)
               (take (fin - n) m')) as [Hfin' Hdone'].
  { rewrite Hm'. split.
    - rewrite finished_prefix_app.
      + unfold fin at 2. rewrite finished_prefix_drop.
        rewrite length_fmap, length_drop, length_take. lia.
      + apply Forall_fmap. apply Forall_drop.
        eapply Forall_impl; [exact Htake|]. intros [k e] Hkv. simpl in *.
        by destruct (is_done e).
    - rewrite take_app_le.
      2:{ rewrite length_fmap, length_drop, length_take. lia. }
      apply Forall_take, Forall_fmap, Forall_forall. intros [k e] _. simpl.
      by destruct (is_done e) eqn:Hd. }
  (* what a call does on a state holding that map *)
  assert (forall s1,
            data_parts_by_info s1 = data_parts_by_info s ->
            current_mutations_by_version s1 = m' ->
            Z.of_nat (fin - n) <= keep ->
            (let m0 := current_mutations_by_version s1 in
             let end_it := match getMinPartDataVersion s1 with
                           | Some min_version => upper_bound min_version m0
                           | None => length m0
                           end in
             let '(m1, effs, done_count) := mark_done 0 end_it m0 in
             let s2 := mkStorage (is_static_storage s1) (data_parts_by_info s1)
                         (currently_merging_mutating_parts s1) m1
                         (mutation_backoff_policy s1) (increment s1)
                         (committing_blocks s1) (effs ++ effects s1) in
             if done_count <=? keep then (Return 0, s2)
             else
               match delete_front getCSN (Z.to_nat (done_count - keep)) m1 with
               | (Throw c, m2) => (Throw c, with_mutations m2 s2)
               | (Return mutations_to_delete, m2) =>
                   (Return (Z.of_nat (length mutations_to_delete)),
                    foldl (fun acc mutation =>
                             emit (RemoveFile (file_name mutation)) acc)
                      (with_mutations m2 s2) mutations_to_delete)
               end) = (Return 0, s1)) as Hsecond.
  { intros s1 Hparts Hmap Hle.
    assert (getMinPartDataVersion s1 = min_version) as ->
      by (unfold getMinPartDataVersion, min_version; by rewrite Hparts).
    rewrite Hmap. cbv zeta.
    destruct (mark_done_finished min_version m') as (effs' & Hmark').
    pose proof (mark_done_quiet m' 0
                  (match min_version with
                   | Some v => upper_bound v m'
                   | None => length m'
                   end)) as Hquiet.
    rewrite Hmark' in *. rewrite Hfin' in *. simpl in Hquiet.
    rewrite Nat2Z.id in Hquiet. specialize (Hquiet Hdone'). subst effs'.
    apply Z.leb_le in Hle. rewrite Hle.
    f_equal. unfold mark_finished.
    assert (((fun kv : Z * MergeTreeMutationEntry =>
                (kv.1, if is_done kv.2 then kv.2 else set_is_done kv.2))
               <$> take (fin - n) m') = take (fin - n) m') as ->.
    { rewrite <- (list_fmap_id (take (fin - n) m')) at 2.
      apply list_fmap_ext. intros i [k e] Hi. simpl.
      rewrite Forall_forall in Hdone'.
      apply list_elem_of_lookup_2, Hdone' in Hi. simpl in Hi. by rewrite Hi. }
    rewrite take_drop. destruct s1; simpl in *. by subst. }
  destruct (Z.of_nat fin <=? keep) eqn:Hcmp.
  - apply Z.leb_le in Hcmp. assert (n = 0%nat) as Hn0 by lia.
    split; [by exists 0%nat|]. cbn [fst snd].
    apply Hsecond; [done| |lia].
    cbn [current_mutations_by_version]. unfold m'. by rewrite Hn0, drop_0.
  - apply Z.leb_gt in Hcmp.
    assert (Z.to_nat (Z.of_nat fin - keep) = n) as -> by lia.
    rewrite delete_front_prehistoric.
    2:{ unfold mark_finished. rewrite length_app, length_fmap, length_take,
          length_drop. lia. }
    2:{ rewrite mark_finished_take by lia. apply Forall_fmap.
        apply Forall_take with (n := n) in Htake.
        rewrite take_take in Htake.
        replace (n `min` fin)%nat with n in Htake by lia.
        eapply Forall_impl; [exact Htake|]. intros [k e] Hkv. simpl in *.
        apply andb_true_iff in Hkv as [_ Hp]. by destruct (is_done e). }
    split; [eexists; reflexivity|]. cbn [fst snd].
    match goal with
    | |- context [foldl ?f ?s0 ?files] =>
        destruct (foldl_emit_fields files s0) as (Hp & Hm & _)
    end.
    apply Hsecond; [by rewrite Hp|by rewrite Hm|lia].
Qed.
End ClearOldMutationsTwice.

(** ** Loading the mutations of a table *)

Lemma try_emplace_keys k e m :
  sorted_keys m ->
  match try_emplace k e m with
  | (m', true) => keys m' ≡ₚ k :: keys m /\ k ∉ keys m
  | (m', false) => m' = m /\ k ∈ keys m
  end.
Proof.
  induction m as [|[k' e'] m IH]; intros Hs; simpl.
  - split; [done|]. apply not_elem_of_nil.
  - destruct Hs as [Hall Hs].
    destruct (k <? k') eqn:Hlt; simpl.
    { split; [done|]. apply Z.ltb_lt in Hlt. intros Hin.
      apply elem_of_cons in Hin as [->|Hin]; [lia|].
      apply list_elem_of_fmap in Hin as ([k2 e2] & -> & Hin).
      rewrite Forall_forall in Hall. apply Hall in Hin. simpl in *. lia. }
    destruct (k =? k') eqn:Heq; simpl.
    { apply Z.eqb_eq in Heq. subst. split; [done|]. left. }
    specialize (IH Hs). destruct (try_emplace k e m) as [m'' [|]]; simpl.
    + destruct IH as [Hperm Hnot]. split.
      * change (keys ((k', e') :: m'')) with (k' :: keys m'').
        rewrite Hperm. apply perm_swap.
      * apply Z.eqb_neq in Heq. intros [->|Hin]%elem_of_cons; done.
    + destruct IH as [-> Hin]. split; [done|]. by right.
Qed.

Section LoadMutationsProperties.
Variable getCSN : TransactionID -> Z.
Variable assertTIDIsNotOutdated : TransactionID -> Result unit.

Local Abbreviation loaded_numbers entries :=
  ((fun it => to_UInt64 (block_number (parsed it)))
     <$> List.filter (is_loaded getCSN) entries).
Local Abbreviation removed_names entries :=
  (file <$> List.filter (is_removed getCSN) entries).

Lemma emplace_loaded_keys k entry s s' :
  sorted_keys (current_mutations_by_version s) ->
  emplace_loaded k entry s = Return s' ->
  keys (current_mutations_by_version s')
  ≡ₚ k :: keys (current_mutations_by_version s)
  /\ removed_files (effects s') = removed_files (effects s).
Proof.
  unfold emplace_loaded. intros Hs H.
  pose proof (try_emplace_keys k entry (current_mutations_by_version s) Hs) as Hk.
  destruct (try_emplace k entry (current_mutations_by_version s)) as [m [|]];
    simplify_eq/=. by destruct Hk.
Qed.

Lemma load_directory_keys entries : forall s s',
  sorted_keys (current_mutations_by_version s) ->
  load_directory getCSN assertTIDIsNotOutdated entries s = Return s' ->
  keys (current_mutations_by_version s')
  ≡ₚ keys (current_mutations_by_version s) ++ loaded_numbers entries
  /\ removed_files (effects s')
     = rev (removed_names entries) ++ removed_files (effects s).
Proof.
  induction entries as [|it entries IH]; intros s s' Hs H; simpl in H.
  { simplify_eq. by rewrite app_nil_r. }
  unfold is_loaded, is_removed, uncommitted. cbn [List.filter].
  destruct (startsWith (file it) "mutation_") eqn:Hprefix; simpl.
  - destruct (negb (isPrehistoric (tid (parsed it))) && (csn (parsed it) =? 0))
      eqn:Hnew; simpl.
    + destruct (getCSN (tid (parsed it)) =? 0) eqn:Hcsn; simpl in *.
      * destruct (assertTIDIsNotOutdated (tid (parsed it))); [|done]. simpl in H.
        apply IH in H as [Hk Hr]; [|done]. simpl in *. split; [done|].
        rewrite Hr. by rewrite <- app_assoc.
      * destruct (emplace_loaded _ _ _) as [s1|] eqn:He; [|done]. simpl in H.
        pose proof (emplace_loaded_inv _ _ _ _ He) as (_ & _ & Hs1).
        apply emplace_loaded_keys in He as [Hk1 Hr1]; [|done].
        apply IH in H as [Hk Hr]; [|by apply Hs1]. split.
        -- rewrite Hk, Hk1. simpl. by rewrite Permutation_middle.
        -- by rewrite Hr, Hr1.
    + destruct (emplace_loaded _ _ _) as [s1|] eqn:He; [|done]. simpl in H.
      pose proof (emplace_loaded_inv _ _ _ _ He) as (_ & _ & Hs1).
      apply emplace_loaded_keys in He as [Hk1 Hr1]; [|done].
      apply IH in H as [Hk Hr]; [|by apply Hs1]. split.
      * rewrite Hk, Hk1. simpl. by rewrite Permutation_middle.
      * by rewrite Hr, Hr1.
  - destruct (startsWith (file it) "tmp_mutation_") eqn:Htmp; simpl.
    + apply IH in H as [Hk Hr]; [|done]. simpl in *. split; [done|].
      rewrite Hr. by rewrite <- app_assoc.
    + by apply IH.
Qed.

(** X16. When [loadMutations] succeeds, the map holds, in ascending
    order, the versions it held before and the block numbers of the
    [mutation_] files whose transaction is prehistoric or has a CSN, each
    once; the files removed from the disks are the [tmp_mutation_] files
    and the [mutation_] files of transactions without a CSN, in the order
    met; the counter is raised to the newest version if that is higher. *)
Theorem loadMutations_keys disks s s' :
  sorted_keys (current_mutations_by_version s) ->
  loadMutations getCSN assertTIDIsNotOutdated disks s = Return s' ->
  sorted_keys (current_mutations_by_version s')
  /\ keys (current_mutations_by_version s')
     ≡ₚ keys (current_mutations_by_version s) ++ loaded_numbers (concat disks)
  /\ NoDup (keys (current_mutations_by_version s) ++ loaded_numbers (concat disks))
  /\ removed_files (effects s')
     = rev (removed_names (concat disks)) ++ removed_files (effects s)
  /\ increment s'
     = match last_key (current_mutations_by_version s') with
       | Some version => Z.max (increment s) version
       | None => increment s
       end.
Proof.
  intros Hs H. unfold loadMutations in H.
  destruct (load_disks _ _ disks s) as [s1|] eqn:Hl; [|done]. simpl in H.
  assert (keys (current_mutations_by_version s1)
          ≡ₚ keys (current_mutations_by_version s) ++ loaded_numbers (concat disks)
          /\ removed_files (effects s1)
             = rev (removed_names (concat disks)) ++ removed_files (effects s))
    as [Hk Hr].
  { clear H. revert s Hs Hl.
    induction disks as [|disk disks IH]; intros s Hs Hl; simpl in Hl.
    { simplify_eq. simpl. by rewrite app_nil_r. }
    destruct (load_directory _ _ disk s) as [s0|] eqn:Hd; [|done]. simpl in Hl.
    pose proof (load_directory_inv _ _ _ _ _ Hd) as (_ & _ & Hs0).
    apply load_directory_keys in Hd as [Hk0 Hr0]; [|done].
    apply IH in Hl as [Hk Hr]; [|by apply Hs0].
    simpl. rewrite !List.filter_app, !fmap_app, rev_app_distr. split.
    - rewrite Hk, Hk0. by rewrite <- app_assoc.
    - rewrite Hr, Hr0. by rewrite <- app_assoc. }
  pose proof (load_disks_inv _ _ _ _ _ Hl) as (Hinc & _ & Hs1).
  specialize (Hs1 Hs).
  assert (NoDup (keys (current_mutations_by_version s1))) as Hnd.
  { clear -Hs1. induction (current_mutations_by_version s1) as [|[k e] m IH];
      [constructor|].
    destruct Hs1 as [Hall Hs1]. simpl. constructor; [|by apply IH].
    intros Hin. apply list_elem_of_fmap in Hin as ([k2 e2] & -> & Hin).
    rewrite Forall_forall in Hall. apply Hall in Hin. simpl in Hin. lia. }
  destruct (last_key (current_mutations_by_version s1)) as [v|] eqn:Hlast;
    simplify_eq/=; rewrite ?Hlast;
    (split; [done|]); (split; [done|]); (split; [by rewrite <- Hk|]);
    (split; [done|]); by rewrite Hinc.
Qed.
End LoadMutationsProperties.

(** ** Merge selection that does not wait *)

Section SelectPartsToMergeAtOnce.
Variable canEnqueueBackgroundTask : nat -> bool.
Variable max_source_parts_size : Z.
Variable merger_selectPartsToMerge : SelectMergeFailure.Reason + list DataPart.
Variable selectAllPartsToMergeWithinPartition
  : nat -> SelectMergeFailure.Reason + list DataPart.
Variable constructFuturePart : list DataPart -> option FutureMergedMutatedPart.
Variable timeout_ms : Z.
Variable parts_are_busy : nat -> bool.
Variable wait_times_out : nat -> bool.

Local Abbreviation select :=
  (selectPartsToMerge canEnqueueBackgroundTask max_source_parts_size
     merger_selectPartsToMerge selectAllPartsToMergeWithinPartition
     constructFuturePart timeout_ms parts_are_busy wait_times_out).

Lemma poll_memory_waits attempts : forall st,
  let r := poll_memory canEnqueueBackgroundTask attempts st in
  waits r.2 = waits st
  /\ background_waits (events r.2) = background_waits (events st).
Proof.
  induction attempts as [|attempts IH]; intros st; simpl; [done|].
  destruct (canEnqueueBackgroundTask _); simpl; [done|].
  destruct (IH (mkSelection (S (memory_checks st)) (waits st)
                  (MemoryCheck false :: SleepFor 1000 :: events st)))
    as [Hw He].
  simpl in *. by rewrite Hw, He.
Qed.

Lemma memory_gate_waits st :
  let r := memory_gate canEnqueueBackgroundTask timeout_ms st in
  waits r.2 = waits st
  /\ background_waits (events r.2) = background_waits (events st).
Proof.
  unfold memory_gate. simpl.
  destruct (canEnqueueBackgroundTask (memory_checks st)); simpl; [done|].
  apply (poll_memory_waits _
           (mkSelection (S (memory_checks st)) (waits st)
              (MemoryCheck false :: events st))).
Qed.

(** X17. Without [final], or with [final] while no part is busy,
    [selectPartsToMerge] decides in the first turn of its loop: it returns
    an answer, whatever bound is put on the turns, and never waits on the
    background condition. *)
Theorem selectPartsToMerge_decides_at_once turns partition_id final st :
  final = false \/ (forall n, parts_are_busy n = false) ->
  let r := select (S turns) partition_id final st in
  is_Some r.1
  /\ r = select 1 partition_id final st
  /\ waits r.2 = waits st
  /\ background_waits (events r.2) = background_waits (events st).
Proof.
  intros Hidle r. subst r. unfold selectPartsToMerge.
  case_bool_decide as Hhint.
  - unfold select_without_hint, is_background_memory_usage_ok. simpl.
    destruct (canEnqueueBackgroundTask (memory_checks st)); simpl;
      [|repeat split; eauto].
    destruct (max_source_parts_size =? 0); simpl; repeat split; eauto.
  - cbn [select_in_partition].
    pose proof (memory_gate_waits st) as [Hw He].
    destruct (memory_gate canEnqueueBackgroundTask timeout_ms st) as [ok st1].
    simpl in Hw, He.
    destruct ok; simpl; [|repeat split; eauto].
    destruct (selectAllPartsToMergeWithinPartition 0%nat) as [failure|choice];
      [|simpl; repeat split; eauto].
    assert (final && parts_are_busy (waits st1) = false) as ->.
    { destruct Hidle as [->|Hidle]; [done|]. rewrite Hidle. apply andb_false_r. }
    simpl. repeat split; eauto.
Qed.
End SelectPartsToMergeAtOnce.

(** ** Mutation selection marks its part busy *)

Section MutationSelectionBusy.
Variable evaluateCommandsSize : MutationCommands -> Expected Z.
Variable isVisible : DataPart -> Z -> TransactionID -> bool.
Variable tryGetRunningTransaction : TransactionID -> bool.
Variable tryReserveSpace : DataPart -> bool.
Variable now : Z.
Variable max_source_part_size : Z.
Variable max_ast_elements : Z.

Local Abbreviation select_in :=
  (select_in_parts evaluateCommandsSize isVisible tryGetRunningTransaction
     tryReserveSpace now max_source_part_size max_ast_elements).
Local Abbreviation select_mutation :=
  (selectPartsToMutate evaluateCommandsSize isVisible tryGetRunningTransaction
     tryReserveSpace now max_source_part_size max_ast_elements).

Local Abbreviation guarded :=
  (selected_guarded tryReserveSpace now max_source_part_size).

Lemma select_in_parts_guarded ps : forall s0, guarded ps s0 (select_in ps s0).
Proof.
  assert (forall p l s0 r, guarded l s0 r -> guarded (p :: l) s0 r) as Hweaken.
  { intros p l s0 r (Hb & Hp & Hr). split; [done|]. split; [done|].
    destruct (r.1) as [[sel|]|c]; try done.
    destruct Hr as (part & ? & ? & ?). exists part.
    split; [done|]. split; [by right|done]. }
  induction ps as [|part ps IH]; intros s0; [done|].
  cbn [select_in_parts].
  case_bool_decide as Hbusy; [by apply Hweaken|].
  destruct (drop _ (current_mutations_by_version s0))
    as [|[v first_mutation] rest] eqn:Hdrop; [by apply Hweaken|].
  destruct (max_source_part_size <? bytes_on_disk part) eqn:Hsize;
    [by apply Hweaken|].
  destruct (negb (PartMutationBackoffPolicy.partCanBeMutated now (name part)
                    (mutation_backoff_policy s0))) eqn:Hbackoff;
    [by apply Hweaken|].
  destruct (negb (isPrehistoric (tid first_mutation))
            && negb (isVisible part (start_csn (tid first_mutation))
                       (tid first_mutation))); [by apply Hweaken|].
  destruct (negb (isPrehistoric (tid first_mutation)) && _); [done|].
  set (r := squash _ _ _ _ _ _ _ _).
  set (s1 := with_mutations _ s0).
  destruct (negb (is_empty (sq_commands r))).
  2:{ apply Hweaken. destruct (IH s1) as (Hb & Hp & Hr). split; [done|].
      split; [done|]. destruct ((select_in ps s1).1) as [[sel|]|c]; done. }
  destruct (fst <$> _ !! sq_last_mutation_to_apply r) as [version|]; [|done].
  unfold tag_for_mutation.
  destruct (tryReserveSpace part) eqn:Hreserve; simpl; [|done].
  rewrite bool_decide_eq_false_2 by done. simpl.
  split; [done|]. split; [done|]. exists part.
  split; [done|]. split; [left|]. split; [done|]. split; [done|].
  split; [lia|]. split; [|done]. by apply negb_false_iff in Hbackoff.
Qed.

(** X18. A part selected for mutation has passed the guards and is marked
    busy: it is Active, was not busy, is not larger than the size limit,
    its backoff window has passed and space was reserved for it; the busy
    set grows by this part only, and by nothing when nothing is selected
    or the selection throws. So a selection made right after picks
    another part. *)
Theorem selectPartsToMutate_marks_busy s :
  let r := select_mutation s in
  guarded (getDataPartsVectorForInternalUsage s) s r
  /\ forall sel part,
       r.1 = Return (Some sel) -> part ∈ parts (future_part sel) ->
       state part = Active
       /\ forall sel' part',
            (select_mutation r.2).1 = Return (Some sel') ->
            part' ∈ parts (future_part sel') ->
            name part' <> name part.
Proof.
  intros r.
  assert (forall s0, guarded (getDataPartsVectorForInternalUsage s0) s0
                       (select_mutation s0)) as Hguard.
  { intros s0. unfold selectPartsToMutate.
    destruct (is_empty (current_mutations_by_version s0)); [done|].
    destruct (max_source_part_size =? 0); [done|].
    apply select_in_parts_guarded. }
  split; [apply Hguard|]. intros sel part Hsel Hpart.
  destruct (Hguard s) as (_ & _ & Hr). fold r in Hr. rewrite Hsel in Hr.
  destruct Hr as (p & Hparts & Hin & _ & Hbusy & _).
  rewrite Hparts in Hpart. apply list_elem_of_singleton in Hpart. subst p.
  split.
  - apply list_elem_of_In, filter_In in Hin as [_ Hactive].
    by apply bool_decide_eq_true in Hactive.
  - intros sel' part' Hsel' Hpart'.
    destruct (Hguard r.2) as (_ & _ & Hr'). rewrite Hsel' in Hr'.
    destruct Hr' as (p' & Hparts' & _ & Hfree & _).
    rewrite Hparts' in Hpart'. apply list_elem_of_singleton in Hpart'. subst p'.
    intros Heq. apply Hfree. rewrite Hbusy, Heq. set_solver.
Qed.
End MutationSelectionBusy.

(** * Granted roles: properties *)

Lemma elem_of_in_order (x : UUID) (s : gset UUID) : x ∈ in_order s <-> x ∈ s.
Proof.
  unfold in_order. rewrite merge_sort_Permutation. apply elem_of_elements.
Qed.

Lemma in_order_NoDup (s : gset UUID) : NoDup (in_order s).
Proof.
  unfold in_order. rewrite merge_sort_Permutation. apply NoDup_elements.
Qed.

Lemma in_order_Sorted (s : gset UUID) : Sorted N.le (in_order s).
Proof. apply (Sorted_merge_sort N.le). Qed.

Lemma in_order_nil (s : gset UUID) : in_order s = [] <-> s = ∅.
Proof.
  split.
  - intros H. apply set_eq. intros x. rewrite <- elem_of_in_order, H.
    set_solver.
  - intros ->. destruct (in_order ∅) as [|x l] eqn:E; [done|].
    assert (x ∈ in_order ∅) as Hx by (rewrite E; left).
    apply elem_of_in_order in Hx. set_solver.
Qed.

Lemma existsb_in_order (ids_ s : gset UUID) :
  existsb (fun role_id => bool_decide (role_id ∈ ids_)) (in_order s) = false
  <-> s ## ids_.
Proof.
  rewrite <- not_true_iff_false, existsb_exists. split.
  - intros H x Hs Hi. apply H. exists x. split.
    + apply list_elem_of_In, elem_of_in_order, Hs.
    + by apply bool_decide_eq_true.
  - intros H (x & Hx & Hi). apply list_elem_of_In, elem_of_in_order in Hx.
    apply bool_decide_eq_true in Hi. by apply (H x).
Qed.

Lemma revoke_vector_spec roles_ g :
  GrantedRoles.revoke_vector roles_ g
  = GrantedRoles.mk (GrantedRoles.roles g ∖ list_to_set roles_)
      (GrantedRoles.roles_with_admin_option g ∖ list_to_set roles_).
Proof.
  unfold GrantedRoles.revoke_vector.
  revert g. induction roles_ as [|r rs IH]; intros g; simpl.
  - destruct g. simpl. by rewrite !difference_empty_L.
  - rewrite IH. simpl. f_equal; apply set_eq; intros x; set_solver.
Qed.

Lemma revokeAdminOption_vector_spec roles_ g :
  GrantedRoles.revokeAdminOption_vector roles_ g
  = GrantedRoles.mk (GrantedRoles.roles g)
      (GrantedRoles.roles_with_admin_option g ∖ list_to_set roles_).
Proof.
  unfold GrantedRoles.revokeAdminOption_vector.
  revert g. induction roles_ as [|r rs IH]; intros g; simpl.
  - destruct g. simpl. by rewrite !difference_empty_L.
  - rewrite IH. simpl. f_equal. apply set_eq; intros x; set_solver.
Qed.

(** X19. Granting and revoking keep the admin option inside the granted
    roles: if every role held with admin option is granted, the same holds
    after [grant], [grantWithAdminOption], [revoke], [revokeAdminOption] (on
    one role or on a vector), after [makeUnion] and after [makeIntersection]
    with a set of granted roles that has the property too. *)
Theorem GrantedRoles_admin_is_granted_kept g other role_ roles_ :
  GrantedRoles.admin_is_granted g ->
  GrantedRoles.admin_is_granted other ->
  GrantedRoles.admin_is_granted (GrantedRoles.grant role_ g)
  /\ GrantedRoles.admin_is_granted (GrantedRoles.grant_vector roles_ g)
  /\ GrantedRoles.admin_is_granted (GrantedRoles.grantWithAdminOption role_ g)
  /\ GrantedRoles.admin_is_granted (GrantedRoles.grantWithAdminOption_vector roles_ g)
  /\ GrantedRoles.admin_is_granted (GrantedRoles.revoke role_ g)
  /\ GrantedRoles.admin_is_granted (GrantedRoles.revoke_vector roles_ g)
  /\ GrantedRoles.admin_is_granted (GrantedRoles.revokeAdminOption role_ g)
  /\ GrantedRoles.admin_is_granted (GrantedRoles.revokeAdminOption_vector roles_ g)
  /\ GrantedRoles.admin_is_granted (GrantedRoles.makeUnion other g)
  /\ GrantedRoles.admin_is_granted (GrantedRoles.makeIntersection other g).
Proof.
  unfold GrantedRoles.admin_is_granted. intros Hg Ho.
  rewrite revoke_vector_spec, revokeAdminOption_vector_spec. simpl.
  repeat split; set_solver.
Qed.

(** X20. A vector revoke undoes a vector grant: revoking the roles just
    granted (with or without admin option) gives back the granted roles one
    started from, provided none of them was granted before. *)
Theorem GrantedRoles_revoke_after_grant g roles_ :
  GrantedRoles.admin_is_granted g ->
  (forall r, r ∈ roles_ -> GrantedRoles.isGranted r g = false) ->
  GrantedRoles.revoke_vector roles_ (GrantedRoles.grant_vector roles_ g) = g
  /\ GrantedRoles.revoke_vector roles_
       (GrantedRoles.grantWithAdminOption_vector roles_ g) = g
  /\ GrantedRoles.revokeAdminOption_vector roles_
       (GrantedRoles.grantWithAdminOption_vector roles_ g)
     = GrantedRoles.grant_vector roles_ g.
Proof.
  unfold GrantedRoles.admin_is_granted, GrantedRoles.isGranted.
  intros Hg Hnew.
  assert (forall r, r ∈ roles_ -> r ∉ GrantedRoles.roles g) as Hnew'.
  { intros r Hr. specialize (Hnew r Hr). by apply bool_decide_eq_false in Hnew. }
  rewrite !revoke_vector_spec, revokeAdminOption_vector_spec.
  destruct g as [rs adm]. simpl in *.
  unfold GrantedRoles.grant_vector. simpl.
  repeat split; f_equal; set_solver.
Qed.

Lemma StronglySorted_List_filter {A} (R : relation A) (f : A -> bool) l :
  StronglySorted R l -> StronglySorted R (List.filter f l).
Proof.
  induction 1 as [|x l Hl IH Hx]; simpl; [constructor|].
  destruct (f x); [|done]. constructor; [done|].
  apply Forall_forall. intros y Hy.
  apply list_elem_of_In, filter_In in Hy as [Hy _].
  rewrite Forall_forall in Hx. by apply Hx, list_elem_of_In.
Qed.

(** Walking an ordered set and keeping the ids that pass a test gives the
    ordered walk of the subset. *)
Lemma filter_in_order (f : UUID -> bool) (s t : gset UUID) :
  (forall x, x ∈ t <-> x ∈ s /\ f x = true) ->
  List.filter f (in_order s) = in_order t.
Proof.
  intros Hst. apply (StronglySorted_unique N.le).
  - apply StronglySorted_List_filter, Sorted_StronglySorted;
      [apply _|apply in_order_Sorted].
  - apply Sorted_StronglySorted; [apply _|apply in_order_Sorted].
  - apply NoDup_Permutation.
    + apply NoDup_ListNoDup, List.NoDup_filter, NoDup_ListNoDup, in_order_NoDup.
    + apply in_order_NoDup.
    + intros x. rewrite elem_of_in_order, Hst, list_elem_of_In, filter_In,
        <- list_elem_of_In, elem_of_in_order. done.
Qed.

(** X21. The three overloads of [findGranted] agree: given the same set of
    ids as an ascending vector, as a flat set or as a matcher, they return
    the same vector, the granted ids of the set in ascending order; likewise
    for [findGrantedWithAdminOption]. *)
Theorem GrantedRoles_findGranted_overloads_agree g (ids_ : gset UUID) :
  GrantedRoles.findGranted_vector (in_order ids_) g
  = GrantedRoles.findGranted_flat_set ids_ g
  /\ GrantedRoles.findGranted_matching (fun id => bool_decide (id ∈ ids_)) g
     = GrantedRoles.findGranted_flat_set ids_ g
  /\ GrantedRoles.findGrantedWithAdminOption_vector (in_order ids_) g
     = GrantedRoles.findGrantedWithAdminOption_flat_set ids_ g
  /\ GrantedRoles.findGrantedWithAdminOption_matching
       (fun id => bool_decide (id ∈ ids_)) g
     = GrantedRoles.findGrantedWithAdminOption_flat_set ids_ g.
Proof.
  unfold GrantedRoles.findGranted_vector, GrantedRoles.findGranted_flat_set,
    GrantedRoles.findGranted_matching,
    GrantedRoles.findGrantedWithAdminOption_vector,
    GrantedRoles.findGrantedWithAdminOption_flat_set,
    GrantedRoles.findGrantedWithAdminOption_matching,
    GrantedRoles.isGranted, GrantedRoles.isGrantedWithAdminOption.
  repeat split; apply filter_in_order; intros x;
    rewrite bool_decide_eq_true; set_solver.
Qed.

(** X22. [getElements] splits the granted roles in at most two elements,
    none of them empty: an id is listed in an element without admin option
    exactly when it is granted without admin option, in an element with
    admin option exactly when it is held with admin option, and no id is
    listed twice. *)
Theorem GrantedRoles_getElements_partition g :
  (length (GrantedRoles.getElements g) <= 2)%nat
  /\ (forall e, e ∈ GrantedRoles.getElements g -> GrantedRoles.ids e <> [])
  /\ (forall id b,
        (exists e, e ∈ GrantedRoles.getElements g
                   /\ GrantedRoles.admin_option e = b
                   /\ id ∈ GrantedRoles.ids e)
        <-> (if b then id ∈ GrantedRoles.roles_with_admin_option g
             else id ∈ GrantedRoles.roles g
                  /\ id ∉ GrantedRoles.roles_with_admin_option g))
  /\ NoDup (concat (GrantedRoles.ids <$> GrantedRoles.getElements g)).
Proof.
  unfold GrantedRoles.getElements.
  set (D := GrantedRoles.roles g ∖ GrantedRoles.roles_with_admin_option g).
  set (A := GrantedRoles.roles_with_admin_option g).
  assert (forall id, id ∈ in_order D
            <-> id ∈ GrantedRoles.roles g /\ id ∉ A) as HD.
  { intros id. rewrite elem_of_in_order. set_solver. }
  assert (forall id, id ∈ in_order A <-> id ∈ A) as HA
    by (intros id; apply elem_of_in_order).
  assert (NoDup (in_order D ++ in_order A)) as Hnodup.
  { apply NoDup_app. split; [apply in_order_NoDup|].
    split; [|apply in_order_NoDup].
    intros x Hx Hx'. apply HD in Hx. apply HA in Hx'. tauto. }
  assert (A <> ∅ -> in_order A <> []) as HAne by (by rewrite in_order_nil).
  assert (A = ∅ -> in_order A = []) as HAe by (by rewrite in_order_nil).
  simpl. destruct (in_order D) as [|d ds] eqn:ED; simpl;
    case_bool_decide as EA; simpl.
  - split; [lia|]. split; [intros e He; by apply elem_of_nil in He|].
    split; [|constructor].
    intros id [|]; split.
    + intros (e & He & _); by apply elem_of_nil in He.
    + intros Hid. rewrite EA in Hid. set_solver.
    + intros (e & He & _); by apply elem_of_nil in He.
    + intros Hid. apply HD in Hid. by apply elem_of_nil in Hid.
  - split; [lia|]. split.
    { intros e ->%list_elem_of_singleton. simpl. by apply HAne. }
    split; [|by rewrite app_nil_r].
    intros id [|]; split.
    + intros (e & ->%list_elem_of_singleton & _ & Hid). by apply HA.
    + intros Hid. eexists. split; [apply list_elem_of_singleton; done|].
      split; [done|]. by apply HA.
    + intros (e & ->%list_elem_of_singleton & Hb & _). done.
    + intros Hid. apply HD in Hid. by apply elem_of_nil in Hid.
  - split; [lia|]. split.
    { intros e ->%list_elem_of_singleton. done. }
    split.
    2:{ rewrite app_nil_r. rewrite (HAe EA), app_nil_r in Hnodup. done. }
    intros id [|]; split.
    + intros (e & ->%list_elem_of_singleton & Hb & _). done.
    + intros Hid. rewrite EA in Hid. set_solver.
    + intros (e & ->%list_elem_of_singleton & _ & Hid). by apply HD.
    + intros Hid. eexists. split; [apply list_elem_of_singleton; done|].
      split; [done|]. by apply HD.
  - split; [lia|]. split.
    { intros e [->| ->%list_elem_of_singleton]%elem_of_cons; simpl;
        [done|by apply HAne]. }
    split; [|by rewrite app_nil_r].
    intros id [|]; split.
    + intros (e & [->| ->%list_elem_of_singleton]%elem_of_cons & Hb & Hid);
        [done|by apply HA].
    + intros Hid. eexists. split; [right; left|].
      split; [done|]. by apply HA.
    + intros (e & [->| ->%list_elem_of_singleton]%elem_of_cons & Hb & Hid);
        [by apply HD|done].
    + intros Hid. eexists. split; [left|].
      split; [done|]. by apply HD.
Qed.

Lemma bool_decide_ext_andb (P Q R : Prop) `{Decision P, Decision Q, Decision R} :
  (P <-> Q /\ ~ R) -> bool_decide P = bool_decide Q && negb (bool_decide R).
Proof.
  intros HPQ. repeat case_bool_decide; simpl; tauto.
Qed.

Lemma bool_decide_ext_orb_andb (P Q R S : Prop)
    `{Decision P, Decision Q, Decision R, Decision S} :
  (P <-> Q \/ (R /\ S)) ->
  bool_decide P = bool_decide Q || bool_decide R && bool_decide S.
Proof.
  intros HPQ. repeat case_bool_decide; simpl; tauto.
Qed.

Lemma erase_replaced_nil (old_to_new_ids : gmap UUID UUID) (s : gset UUID) :
  (GrantedRoles.erase_replaced old_to_new_ids s).1 = []
  <-> forall id, id ∈ s -> old_to_new_ids !! id = None.
Proof.
  unfold GrantedRoles.erase_replaced. simpl. split.
  - intros H id Hid. destruct (old_to_new_ids !! id) as [new|] eqn:E; [|done].
    assert (new ∈ omap (fun id => old_to_new_ids !! id) (in_order s)) as Hin.
    { apply list_elem_of_omap. exists id. by rewrite elem_of_in_order. }
    rewrite H in Hin. by apply elem_of_nil in Hin.
  - intros H. destruct (omap _ _) as [|new l] eqn:E; [done|].
    assert (new ∈ omap (fun id => old_to_new_ids !! id) (in_order s)) as Hin
      by (rewrite E; left).
    apply list_elem_of_omap in Hin as (id & Hid & Hnew).
    apply elem_of_in_order in Hid. rewrite (H id Hid) in Hnew. done.
Qed.

Lemma erase_replaced_elem (old_to_new_ids : gmap UUID UUID) (s : gset UUID) id :
  id ∈ (GrantedRoles.erase_replaced old_to_new_ids s).2
      ∪ list_to_set (GrantedRoles.erase_replaced old_to_new_ids s).1
  <-> (id ∈ s /\ old_to_new_ids !! id = None)
      \/ exists old, old ∈ s /\ old_to_new_ids !! old = Some id.
Proof.
  unfold GrantedRoles.erase_replaced. simpl.
  rewrite elem_of_union, elem_of_filter, elem_of_list_to_set, list_elem_of_omap.
  setoid_rewrite elem_of_in_order. tauto.
Qed.

(** What [replaceDependencies] does to one of the two sets, whether or not
    the guard on [new_ids] lets it run on the second one. *)
Lemma replaceDependencies_elem old_to_new_ids g :
  GrantedRoles.admin_is_granted g ->
  let g' := GrantedRoles.replaceDependencies old_to_new_ids g in
  (forall id, id ∈ GrantedRoles.roles g'
     <-> (id ∈ GrantedRoles.roles g /\ old_to_new_ids !! id = None)
         \/ exists old, old ∈ GrantedRoles.roles g
                        /\ old_to_new_ids !! old = Some id)
  /\ (forall id, id ∈ GrantedRoles.roles_with_admin_option g'
     <-> (id ∈ GrantedRoles.roles_with_admin_option g
          /\ old_to_new_ids !! id = None)
         \/ exists old, old ∈ GrantedRoles.roles_with_admin_option g
                        /\ old_to_new_ids !! old = Some id).
Proof.
  unfold GrantedRoles.admin_is_granted, GrantedRoles.replaceDependencies.
  intros Hg. cbv zeta.
  pose proof (erase_replaced_elem old_to_new_ids (GrantedRoles.roles g)) as Hr.
  pose proof (erase_replaced_elem old_to_new_ids
                (GrantedRoles.roles_with_admin_option g)) as Ha.
  pose proof (erase_replaced_nil old_to_new_ids (GrantedRoles.roles g)) as Hnil.
  destruct (GrantedRoles.erase_replaced old_to_new_ids (GrantedRoles.roles g))
    as [new_ids roles1] eqn:Er.
  destruct (is_empty new_ids) eqn:Eempty; simpl.
  - apply is_empty_nil in Eempty. subst new_ids. simpl in *.
    pose proof (proj1 Hnil eq_refl) as Hnone.
    split.
    + intros id. rewrite <- Hr. set_solver.
    + intros id. split.
      * intros Hid. left. split; [done|]. apply Hnone. by apply Hg.
      * intros [[Hid _]|(old & Hold & Hsome)]; [done|].
        rewrite (Hnone old) in Hsome; [done|by apply Hg].
  - split; [exact Hr|exact Ha].
Qed.

(** X23. [replaceDependencies] renames: afterwards a role is granted exactly
    when it was granted and is not a key of the map, or is the image of a
    granted key; the same holds for the roles held with admin option, so
    the guard that skips the second set when no granted role was renamed
    loses nothing. Admin option stays inside the granted roles. *)
Theorem GrantedRoles_replaceDependencies_renames old_to_new_ids g :
  GrantedRoles.admin_is_granted g ->
  let g' := GrantedRoles.replaceDependencies old_to_new_ids g in
  (forall id, GrantedRoles.isGranted id g' = true
     <-> (GrantedRoles.isGranted id g = true /\ old_to_new_ids !! id = None)
         \/ exists old, GrantedRoles.isGranted old g = true
                        /\ old_to_new_ids !! old = Some id)
  /\ (forall id, GrantedRoles.isGrantedWithAdminOption id g' = true
     <-> (GrantedRoles.isGrantedWithAdminOption id g = true
          /\ old_to_new_ids !! id = None)
         \/ exists old, GrantedRoles.isGrantedWithAdminOption old g = true
                        /\ old_to_new_ids !! old = Some id)
  /\ GrantedRoles.admin_is_granted g'.
Proof.
  intros Hg g'.
  destruct (replaceDependencies_elem old_to_new_ids g Hg) as [Hr Ha].
  fold g' in Hr, Ha.
  unfold GrantedRoles.isGranted, GrantedRoles.isGrantedWithAdminOption.
  split; [|split].
  - intros id. rewrite bool_decide_eq_true, Hr.
    setoid_rewrite bool_decide_eq_true. done.
  - intros id. rewrite bool_decide_eq_true, Ha.
    setoid_rewrite bool_decide_eq_true. done.
  - intros id Hid. apply Ha in Hid. apply Hr.
    destruct Hid as [[Hid Hnone]|(old & Hold & Hsome)].
    + left. split; [by apply Hg|done].
    + right. exists old. split; [by apply Hg|done].
Qed.

Lemma removeDependencies_sets ids_ g :
  GrantedRoles.admin_is_granted g ->
  GrantedRoles.removeDependencies ids_ g
  = GrantedRoles.mk (GrantedRoles.roles g ∖ ids_)
      (GrantedRoles.roles_with_admin_option g ∖ ids_).
Proof.
  unfold GrantedRoles.admin_is_granted, GrantedRoles.removeDependencies.
  intros Hg. f_equal.
  - apply set_eq. intros x. rewrite elem_of_filter. set_solver.
  - destruct (existsb _ _) eqn:E.
    + apply set_eq. intros x. rewrite elem_of_filter. set_solver.
    + apply existsb_in_order in E. set_solver.
Qed.

Lemma copyDependenciesFrom_sets src ids_ g :
  GrantedRoles.admin_is_granted src ->
  GrantedRoles.copyDependenciesFrom src ids_ g
  = GrantedRoles.mk (GrantedRoles.roles g ∪ GrantedRoles.roles src ∩ ids_)
      (GrantedRoles.roles_with_admin_option g
       ∪ GrantedRoles.roles_with_admin_option src ∩ ids_).
Proof.
  unfold GrantedRoles.admin_is_granted, GrantedRoles.copyDependenciesFrom.
  intros Hsrc.
  assert (forall s x, x ∈ List.filter (fun role_id => bool_decide (role_id ∈ ids_))
                        (in_order s) <-> x ∈ s /\ x ∈ ids_) as Hf.
  { intros s x. rewrite list_elem_of_In, filter_In, <- list_elem_of_In,
      elem_of_in_order, bool_decide_eq_true. done. }
  f_equal.
  - apply set_eq. intros x.
    rewrite !elem_of_union, elem_of_list_to_set, Hf. set_solver.
  - destruct (is_empty _) eqn:E; simpl.
    + apply is_empty_nil in E. apply set_eq. intros x. split; [set_solver|].
      intros [Hx|[Hx Hi]%elem_of_intersection]%elem_of_union; [done|].
      assert (x ∈ List.filter (fun role_id => bool_decide (role_id ∈ ids_))
                    (in_order (GrantedRoles.roles src))) as Hin
        by (apply Hf; split; [by apply Hsrc|done]).
      rewrite E in Hin. by apply elem_of_nil in Hin.
    + apply set_eq. intros x.
      rewrite !elem_of_union, elem_of_list_to_set, Hf. set_solver.
Qed.

(** X24. The dependencies on a set of ids can be removed and copied: after
    [removeDependencies] no role of the set is granted or held with admin
    option and [hasDependencies] answers false, the other roles are as
    before; removing from [g] what [copyDependenciesFrom] copied into it
    gives back [g] when [g] had no dependency in the set. *)
Theorem GrantedRoles_removeDependencies_removes src ids_ g :
  GrantedRoles.admin_is_granted g ->
  GrantedRoles.admin_is_granted src ->
  let g' := GrantedRoles.removeDependencies ids_ g in
  (forall id, GrantedRoles.isGranted id g'
              = GrantedRoles.isGranted id g && negb (bool_decide (id ∈ ids_)))
  /\ (forall id, GrantedRoles.isGrantedWithAdminOption id g'
                 = GrantedRoles.isGrantedWithAdminOption id g
                   && negb (bool_decide (id ∈ ids_)))
  /\ GrantedRoles.hasDependencies ids_ g' = false
  /\ GrantedRoles.admin_is_granted g'
  /\ (GrantedRoles.hasDependencies ids_ g = false ->
      GrantedRoles.removeDependencies ids_
        (GrantedRoles.copyDependenciesFrom src ids_ g) = g).
Proof.
  intros Hg Hsrc g'. unfold g'. rewrite removeDependencies_sets by done.
  unfold GrantedRoles.isGranted, GrantedRoles.isGrantedWithAdminOption,
    GrantedRoles.hasDependencies. simpl.
  split; [|split; [|split; [|split]]].
  - intros id. apply bool_decide_ext_andb. set_solver.
  - intros id. apply bool_decide_ext_andb. set_solver.
  - apply existsb_in_order. set_solver.
  - unfold GrantedRoles.admin_is_granted in *. simpl. set_solver.
  - intros Hno. apply existsb_in_order in Hno.
    rewrite copyDependenciesFrom_sets by done.
    rewrite removeDependencies_sets.
    + unfold GrantedRoles.admin_is_granted in *.
      destruct g as [rs adm]. simpl in *. f_equal; set_solver.
    + unfold GrantedRoles.admin_is_granted in *. simpl. set_solver.
Qed.

(** X25. [copyDependenciesFrom] adds to both sets what the source has of the
    given ids and nothing else; admin option stays inside the granted
    roles. *)
Theorem GrantedRoles_copyDependenciesFrom_copies src ids_ g :
  GrantedRoles.admin_is_granted g ->
  GrantedRoles.admin_is_granted src ->
  let g' := GrantedRoles.copyDependenciesFrom src ids_ g in
  (forall id, GrantedRoles.isGranted id g'
              = GrantedRoles.isGranted id g
                || GrantedRoles.isGranted id src && bool_decide (id ∈ ids_))
  /\ (forall id, GrantedRoles.isGrantedWithAdminOption id g'
                 = GrantedRoles.isGrantedWithAdminOption id g
                   || GrantedRoles.isGrantedWithAdminOption id src
                      && bool_decide (id ∈ ids_))
  /\ GrantedRoles.hasDependencies ids_ g'
     = GrantedRoles.hasDependencies ids_ g
       || GrantedRoles.hasDependencies ids_ src
  /\ GrantedRoles.admin_is_granted g'.
Proof.
  intros Hg Hsrc g'. unfold g'. rewrite copyDependenciesFrom_sets by done.
  unfold GrantedRoles.isGranted, GrantedRoles.isGrantedWithAdminOption,
    GrantedRoles.hasDependencies. simpl.
  split; [|split; [|split]].
  - intros id. apply bool_decide_ext_orb_andb. set_solver.
  - intros id. apply bool_decide_ext_orb_andb. set_solver.
  - destruct (existsb _ (in_order (GrantedRoles.roles g))) eqn:E1;
      destruct (existsb _ (in_order (GrantedRoles.roles src))) eqn:E2; simpl;
      try (apply existsb_in_order in E1); try (apply existsb_in_order in E2);
      try (apply not_false_iff_true in E1; rewrite existsb_in_order in E1);
      try (apply not_false_iff_true in E2; rewrite existsb_in_order in E2).
    + apply not_false_iff_true. rewrite existsb_in_order. set_solver.
    + apply not_false_iff_true. rewrite existsb_in_order. set_solver.
    + apply not_false_iff_true. rewrite existsb_in_order. set_solver.
    + apply existsb_in_order. set_solver.
  - unfold GrantedRoles.admin_is_granted in *. simpl. set_solver.
Qed.

(** X26. [makeUnion] and [makeIntersection] absorb each other: intersecting
    with [other] what was united with [other] gives [other], and so does
    uniting with [other] what was intersected with it. *)
Theorem GrantedRoles_union_intersection_absorb other g :
  GrantedRoles.makeIntersection other (GrantedRoles.makeUnion other g) = other
  /\ GrantedRoles.makeUnion other (GrantedRoles.makeIntersection other g) = other
  /\ GrantedRoles.makeIntersection g g = g
  /\ GrantedRoles.makeUnion g g = g.
Proof.
  unfold GrantedRoles.makeIntersection, GrantedRoles.makeUnion.
  destruct other as [ro ao], g as [rg ag]. simpl.
  repeat split; f_equal; apply set_eq; intros x;
    rewrite ?elem_of_union, ?elem_of_filter, ?elem_of_union; tauto.
Qed.

(** * The further properties at work on the examples *)

Lemma example_storage_covered : allocator_covers example_storage.
Proof.
  unfold allocator_covers. simpl.
  repeat split; repeat constructor; simpl; lia.
Qed.

Lemma example_inserting_covered : allocator_covers example_inserting.
Proof.
  unfold allocator_covers. simpl.
  repeat split; repeat constructor; simpl; lia.
Qed.

Lemma example_granted_admin_is_granted :
  GrantedRoles.admin_is_granted example_granted.
Proof. unfold GrantedRoles.admin_is_granted. simpl. set_solver. Qed.

Lemma example_std_sort_sorts l :
  StronglySorted (fun a b => pv_version a <= pv_version b) (example_std_sort l)
  /\ example_std_sort l ≡ₚ l.
Proof.
  unfold example_std_sort. split; [|apply merge_sort_Permutation].
  assert (Transitive version_le) as Htrans.
  { intros a b c. unfold version_le. lia. }
  assert (Total version_le) as Htotal.
  { intros a b. unfold version_le. lia. }
  apply (StronglySorted_merge_sort version_le).
Qed.

(** Part [all_1_1_0] is at data version 1 after mutation 2 has been applied
    to a copy of it at data version 2: the current mutation is 2, the next
    one 3. *)
Lemma mutation_versions_around_witness :
  let m := current_mutations_by_version example_storage in
  let current := getCurrentMutationVersion 2 example_storage in
  let next := getNextMutationVersion 2 example_storage in
  ((current = 0 /\ forall v, v ∈ keys m -> 2 < v)
   \/ (current ∈ keys m /\ current <= 2
       /\ forall v, v ∈ keys m -> v <= 2 -> v <= current))
  /\ ((next = 0 /\ forall v, v ∈ keys m -> v <= 2)
      \/ (next ∈ keys m /\ 2 < next
          /\ forall v, v ∈ keys m -> 2 < v -> next <= v)).
Proof.
  apply (mutation_versions_around 2 example_storage).
  simpl. repeat constructor.
Defined.

Example mutation_versions_of_the_example :
  getCurrentMutationVersion 2 example_storage = 2
  /\ getNextMutationVersion 2 example_storage = 3
  /\ getCurrentMutationVersion 1 example_storage = 0
  /\ getNextMutationVersion 4 example_storage = 0.
Proof. vm_compute. done. Qed.

Lemma allocateBlockNumber_release_witness :
  let block := (allocateBlockNumber CommittingBlock.NewPart example_inserting).1 in
  let s1 := (allocateBlockNumber CommittingBlock.NewPart example_inserting).2 in
  CommittingBlock.number block = increment example_inserting + 1
  /\ CommittingBlock.op block = CommittingBlock.NewPart
  /\ Forall (fun b => CommittingBlock.number b < CommittingBlock.number block)
       (committing_blocks example_inserting)
  /\ committing_blocks s1 = committing_blocks example_inserting ++ [block]
  /\ committing_blocks (removeCommittingBlock block s1)
     = committing_blocks example_inserting
  /\ allocator_covers s1
  /\ allocator_covers (removeCommittingBlock block s1).
Proof.
  apply (allocateBlockNumber_release CommittingBlock.NewPart example_inserting).
  - exact example_inserting_covered.
  - reflexivity.
Defined.

(** The update that takes block 6 while the insert holds block 5 waits for
    that insert, not for the insert that takes block 7 afterwards. *)
Lemma update_waits_for_earlier_blocks_witness :
  let later := [CommittingBlock.mk CommittingBlock.NewPart 7] in
  let block := (allocateBlockNumber CommittingBlock.Update example_inserting).1 in
  let s1 := (allocateBlockNumber CommittingBlock.Update example_inserting).2 in
  let waits_for :=
    List.filter
      (fun b => negb (bool_decide (CommittingBlock.op b = CommittingBlock.Update)))
      (committing_blocks example_inserting) in
  blocking (CommittingBlock.number block) (committing_blocks s1 ++ later)
  = waits_for
  /\ (waits_for = [] ->
      forall snapshots at_timeout,
        waitForCommittingInsertsAndMutations (CommittingBlock.number block)
          ((committing_blocks s1 ++ later) :: snapshots) at_timeout
        = Return tt)
  /\ (waits_for <> [] ->
      waitForCommittingInsertsAndMutations (CommittingBlock.number block)
        [] (committing_blocks s1 ++ later)
      = Throw ErrorCodes.TIMEOUT_EXCEEDED).
Proof.
  apply (update_waits_for_earlier_blocks example_inserting
           [CommittingBlock.mk CommittingBlock.NewPart 7]).
  - exact example_inserting_covered.
  - reflexivity.
  - repeat constructor.
Defined.

Example update_waits_for_the_insert :
  blocking 6
    (committing_blocks
       (allocateBlockNumber CommittingBlock.Update example_inserting).2
     ++ [CommittingBlock.mk CommittingBlock.NewPart 7])
  = [CommittingBlock.mk CommittingBlock.NewPart 5].
Proof. reflexivity. Qed.

Lemma startMutation_appends_witness :
  let version := increment example_storage + 1 in
  let entry := example_committed_entry [example_update] PrehistoricTID version in
  let s' :=
    emit NotifyCommittingBlocks
      (emit TriggerBackgroundOperations
         (emit (IncrementMutationsCounters (commands entry))
            (with_mutations
               (current_mutations_by_version example_storage ++ [(version, entry)])
               (with_increment version example_storage)))) in
  startMutation example_committed_entry [example_update] None example_storage
  = (Return version, addMutation (file_name entry) <$> None, s')
  /\ allocator_covers s'
  /\ last_key (current_mutations_by_version s') = Some version
  /\ getNextMutationVersion (increment example_storage) s' = version.
Proof.
  apply (startMutation_appends example_committed_entry [example_update] None
           example_storage).
  - exact example_storage_covered.
  - reflexivity.
Defined.

(** The fourth mutation of the example table gets version 5 and the file
    [mutation_5.txt]. *)
Example startMutation_fifth_block :
  (startMutation example_committed_entry [example_update] None example_storage).1
  = (Return 5, None)
  /\ keys (current_mutations_by_version
             (startMutation example_committed_entry [example_update] None
                example_storage).2)
     = [2; 3; 4; 5].
Proof. vm_compute. done. Qed.

Lemma fillNewPartName_above_mutations_witness :
  let getNewName := fun _ : MergeTreePartInfo.t => "all_5_5_0" in
  let part := mkPart "tmp_insert" (MergeTreePartInfo.mk "all" 0 0 3 2) Temporary 10 0 in
  let filled := fillNewPartName getNewName part example_storage in
  let reset := fillNewPartNameAndResetLevel getNewName true part example_storage in
  let number := increment example_storage + 1 in
  filled.1.2 = CommittingBlock.mk CommittingBlock.NewPart number
  /\ reset.1.2 = CommittingBlock.mk CommittingBlock.NewPart number
  /\ filled.2 = reset.2
  /\ filled.1.2 ∈ committing_blocks filled.2
  /\ info filled.1.1
     = MergeTreePartInfo.mk (MergeTreePartInfo.partition_id (info part))
         number number (MergeTreePartInfo.level (info part))
         (MergeTreePartInfo.mutation (info part))
  /\ info reset.1.1
     = MergeTreePartInfo.mk (MergeTreePartInfo.partition_id (info part))
         number number
         (if true && (0 <? MergeTreePartInfo.level (info part)) then 1 else 0) 0
  /\ name filled.1.1 = getNewName (info filled.1.1)
  /\ name reset.1.1 = getNewName (info reset.1.1)
  /\ MergeTreePartInfo.getDataVersion (info reset.1.1) = number
  /\ pending (MergeTreePartInfo.getDataVersion (info filled.1.1))
       (current_mutations_by_version filled.2) = []
  /\ pending (MergeTreePartInfo.getDataVersion (info reset.1.1))
       (current_mutations_by_version reset.2) = [].
Proof.
  apply (fillNewPartName_above_mutations (fun _ => "all_5_5_0") true
           (mkPart "tmp_insert" (MergeTreePartInfo.mk "all" 0 0 3 2) Temporary 10 0)
           example_storage).
  - exact example_storage_covered.
  - reflexivity.
Defined.

(** A merge of both parts of the two-part table marks them busy; a second
    merge of them is a logical error until the first tagger is gone. *)
Lemma CurrentlyMergingPartsTagger_scoped_witness :
  exists s1,
    CurrentlyMergingPartsTagger.construct example_merge true example_two_parts
    = Return s1
    /\ currently_merging_mutating_parts s1 = {["all_1_1_0"; "all_2_6_5"]}
    /\ CurrentlyMergingPartsTagger.construct example_merge true s1
       = Throw ErrorCodes.LOGICAL_ERROR
    /\ CurrentlyMergingPartsTagger.destroy example_merge s1
       = Some example_two_parts.
Proof.
  pose proof (CurrentlyMergingPartsTagger_scoped example_merge example_two_parts)
    as H.
  cbv zeta in H.
  destruct (CurrentlyMergingPartsTagger.construct example_merge true
              example_two_parts) as [s1|c] eqn:Hc; [|by vm_compute in Hc].
  destruct H as (_ & Hbusy & Hagain & Hdestroy & _).
  exists s1. split; [done|]. split.
  - rewrite Hbusy. simpl. set_solver.
  - split; [by apply Hagain|]. apply Hdestroy.
    simpl. repeat constructor; set_solver.
Defined.

(** With one Active part at data version 1, every mutation of the example
    table still has that part to do. *)
Lemma getMutationsStatus_rows_witness :
  MutationStatusRow.id <$> getMutationsStatus example_std_sort example_format
                             example_storage
  = concat ((fun kv => replicate (length (commands kv.2)) (file_name kv.2))
              <$> current_mutations_by_version example_storage)
  /\ MutationStatusRow.command
       <$> getMutationsStatus example_std_sort example_format example_storage
     = example_format
         <$> batch_commands (current_mutations_by_version example_storage)
  /\ Forall
       (fun row =>
          exists version entry,
            (version, entry) ∈ current_mutations_by_version example_storage
            /\ MutationStatusRow.id row = file_name entry
            /\ MutationStatusRow.create_time row = create_time entry
            /\ MutationStatusRow.block_numbers row = [("", block_number entry)]
            /\ MutationStatusRow.parts_to_do_names row
               ≡ₚ name <$> lagging version example_storage
            /\ (MutationStatusRow.is_done row = true
                <-> forall p, p ∈ getDataPartsVectorForInternalUsage example_storage ->
                      to_Int64 version
                      <= MergeTreePartInfo.getDataVersion (info p))
            /\ MutationStatusRow.latest_failed_part row = latest_failed_part entry
            /\ MutationStatusRow.latest_fail_time row = latest_fail_time entry
            /\ MutationStatusRow.latest_fail_reason row = latest_fail_reason entry
            /\ MutationStatusRow.latest_fail_error_code_name row
               = latest_fail_error_code_name entry)
       (getMutationsStatus example_std_sort example_format example_storage).
Proof.
  apply (getMutationsStatus_rows example_std_sort example_format
           example_std_sort_sorts example_storage).
Defined.

Example getMutationsStatus_of_the_example :
  (fun row => (MutationStatusRow.id row, MutationStatusRow.command row,
               MutationStatusRow.parts_to_do_names row,
               MutationStatusRow.is_done row))
    <$> getMutationsStatus example_std_sort example_format example_storage
  = [("mutation_2.txt", "UPDATE", ["all_1_1_0"], false);
     ("mutation_3.txt", "UPDATE", ["all_1_1_0"], false);
     ("mutation_4.txt", "DROP COLUMN", ["all_1_1_0"], false)]
  /\ MutationStatusRow.is_done
       <$> getMutationsStatus example_std_sort example_format example_finished
     = [true].
Proof. vm_compute. done. Qed.

Lemma getUnfinishedMutationCommands_lagging_witness :
  getUnfinishedMutationCommands example_std_sort example_storage !! "mutation_3.txt"
  = (fun kv => commands kv.2)
      <$> List.find
            (fun kv => bool_decide (file_name kv.2 = "mutation_3.txt")
                       && negb (is_empty (lagging kv.1 example_storage)))
            (current_mutations_by_version example_storage).
Proof.
  apply (getUnfinishedMutationCommands_lagging example_std_sort
           example_std_sort_sorts example_storage "mutation_3.txt").
Defined.

Example getUnfinishedMutationCommands_of_the_example :
  getUnfinishedMutationCommands example_std_sort example_storage !! "mutation_3.txt"
  = Some [example_update]
  /\ getUnfinishedMutationCommands example_std_sort example_finished = ∅.
Proof. vm_compute. done. Qed.

Lemma getIncompleteMutationsStatusUnlocked_reports_witness :
  reported example_running example_visible (fun _ => 0) 60 3 true false
    example_failed
    (Some (MergeTreeMutationStatus.mk false "all_1_1_0" 50 "Cannot parse"
             "CANNOT_PARSE_TEXT",
           ["mutation_3.txt"])).
Proof.
  assert (sorted_keys (current_mutations_by_version example_failed))
    as Hsorted by (simpl; repeat constructor).
  pose proof (getIncompleteMutationsStatusUnlocked_reports example_running
                example_visible (fun _ => 0) 60 3 true false example_failed
                Hsorted) as Hreported.
  assert (getIncompleteMutationsStatusUnlocked example_running example_visible
            (fun _ => 0) 60 3 true false example_failed
          = Some (MergeTreeMutationStatus.mk false "all_1_1_0" 50
                    "Cannot parse" "CANNOT_PARSE_TEXT",
                  ["mutation_3.txt"])) as Hrun
    by (vm_compute; reflexivity).
  rewrite Hrun in Hreported. exact Hreported.
Defined.

(** The part is visible to the running transaction only: once the
    transaction is gone from the log no part is looked at, and the mutation
    is reported done. A query with the [Int64] -1 looks up the largest
    key. *)
Example getIncompleteMutationsStatusUnlocked_without_transaction :
  getIncompleteMutationsStatusUnlocked (fun _ => false) example_visible
    (fun _ => 0) 60 3 true false example_failed
  = Some (MergeTreeMutationStatus.mk true "" 0 "" "", [])
  /\ getIncompleteMutationsStatusUnlocked example_running example_visible
       (fun _ => 0) 60 (-1) true false
       (with_mutations
          [(2 ^ 64 - 1, example_entry (2 ^ 64 - 1) "mutation_x.txt" [])]
          example_failed)
     = Some (MergeTreeMutationStatus.mk true "" 0 "" "", []).
Proof. vm_compute. done. Qed.

(** The mutation of [all_1_1_0] up to version 3 fails: whoever waits for
    mutation 2 or 3 is woken up and finds the failure. *)
Lemma updateMutationEntriesErrors_wakes_waiters_witness :
  exists s',
    updateMutationEntriesErrors 1000 50 60000 example_future_part false
      "Cannot parse" "CANNOT_PARSE_TEXT" example_storage
    = Completed s'
    /\ effects s' = NotifyMutationWait :: effects example_storage
    /\ check (fun _ => false) (fun _ => [example_part]) (fun _ => 0) 60
         false 2 false s' = true.
Proof.
  apply (updateMutationEntriesErrors_wakes_waiters 1000 50 60000 (fun _ => false)
           (fun _ => [example_part]) (fun _ => 0) 60 example_future_part
           example_part [] "Cannot parse" "CANNOT_PARSE_TEXT" example_storage 2
           false false).
  - simpl. repeat constructor.
  - reflexivity.
  - vm_compute. discriminate.
  - discriminate.
  - reflexivity.
Defined.

Lemma updateMutationEntriesErrors_success_after_failure_witness :
  let src := MergeTreePartInfo.getDataVersion (info example_part) in
  let res := MergeTreePartInfo.getDataVersion (part_info example_future_part) in
  let mv := to_UInt64 (MergeTreePartInfo.mutation (part_info example_future_part)) in
  exists s1 s2,
    updateMutationEntriesErrors 1000 50 60000 example_future_part false
      "Cannot parse" "CANNOT_PARSE_TEXT" example_storage
    = Completed s1
    /\ updateMutationEntriesErrors 1000 50 60000 example_future_part true "" "" s1
       = Completed s2
    /\ current_mutations_by_version s2
       = (fun kv => if in_versions src res kv.1
                    then (kv.1, clear_latest_fail kv.2) else kv)
           <$> current_mutations_by_version example_storage
    /\ mutation_backoff_policy s2
       = if bool_decide (mv ∈ keys (current_mutations_by_version example_storage))
            && in_versions src res mv
         then delete (name example_part) (mutation_backoff_policy example_storage)
         else mutation_backoff_policy example_storage.
Proof.
  apply (updateMutationEntriesErrors_success_after_failure 1000 50 60000
           example_future_part example_part [] "Cannot parse" "CANNOT_PARSE_TEXT"
           example_storage).
  - simpl. repeat constructor.
  - reflexivity.
  - vm_compute. discriminate.
  - discriminate.
  - reflexivity.
Defined.

Lemma clearOldMutations_twice_witness :
  let first := clearOldMutations (fun _ => 0) 0 true example_finished in
  (exists n : nat, first.1 = Return (Z.of_nat n))
  /\ clearOldMutations (fun _ => 0) 0 true first.2 = (Return 0, first.2).
Proof.
  apply (clearOldMutations_twice (fun _ => 0) 0 true example_finished).
  reflexivity.
Defined.

Lemma loadMutations_keys_witness :
  sorted_keys (current_mutations_by_version example_loaded)
  /\ keys (current_mutations_by_version example_loaded)
     ≡ₚ keys (current_mutations_by_version example_unloaded)
        ++ ((fun it => to_UInt64 (block_number (parsed it)))
              <$> List.filter (is_loaded (fun _ => 0)) (concat [example_disk]))
  /\ NoDup (keys (current_mutations_by_version example_unloaded)
            ++ ((fun it => to_UInt64 (block_number (parsed it)))
                  <$> List.filter (is_loaded (fun _ => 0)) (concat [example_disk])))
  /\ removed_files (effects example_loaded)
     = rev (file <$> List.filter (is_removed (fun _ => 0)) (concat [example_disk]))
         ++ removed_files (effects example_unloaded)
  /\ increment example_loaded
     = match last_key (current_mutations_by_version example_loaded) with
       | Some version => Z.max (increment example_unloaded) version
       | None => increment example_unloaded
       end.
Proof.
  apply (loadMutations_keys (fun _ => 0) (fun _ => Return tt) [example_disk]
           example_unloaded example_loaded).
  - exact I.
  - reflexivity.
Defined.

Lemma selectPartsToMerge_decides_at_once_witness :
  let select :=
    selectPartsToMerge (fun _ => true) 1000
      (inl SelectMergeFailure.NOTHING_TO_MERGE)
      (fun _ => inl SelectMergeFailure.NOTHING_TO_MERGE) (fun _ => None)
      5000 (fun _ => true) (fun _ => false) in
  let st := mkSelection 0 0 [] in
  let r := select 3%nat "all" false st in
  is_Some r.1
  /\ r = select 1%nat "all" false st
  /\ waits r.2 = waits st
  /\ background_waits (events r.2) = background_waits (events st).
Proof.
  apply (selectPartsToMerge_decides_at_once (fun _ => true) 1000
           (inl SelectMergeFailure.NOTHING_TO_MERGE)
           (fun _ => inl SelectMergeFailure.NOTHING_TO_MERGE) (fun _ => None)
           5000 (fun _ => true) (fun _ => false) 2 "all" false
           (mkSelection 0 0 [])).
  left. reflexivity.
Defined.

(** The part selected on the example table is busy afterwards: nothing is
    left to select. *)
Example selectPartsToMutate_selects_once :
  currently_merging_mutating_parts (example_select example_storage).2
  = {["all_1_1_0"]}
  /\ (example_select (example_select example_storage).2).1 = Return None.
Proof. vm_compute. done. Qed.

(** Dropping the only part of the example table, twice. *)
Example dropPartNoWaitNoThrow_on_the_example :
  let dropped := dropPartNoWaitNoThrow "all_1_1_0" (Some []) example_storage in
  dropped.1 = Some [MergeTreePartInfo.mk "all" 1 1 0 0]
  /\ state <$> data_parts_by_info dropped.2 = [Outdated]
  /\ effects dropped.2 = [ClearOldPartsFromFilesystem]
  /\ dropPartNoWaitNoThrow "all_1_1_0" dropped.1 dropped.2 = dropped.
Proof. vm_compute. done. Qed.

(** [OPTIMIZE] of partition [all] does not wait for a merge in partition
    [other]; a stop of all merges does. *)
Example stopMergesAndWaitForPartition_other_partition :
  let s := with_busy {["other_1_1_0"]} example_storage in
  stopMergesAndWaitForPartition "all" [] s = Some (Return tt, {["other_1_1_0"]})
  /\ stopMergesAndWait [] s = None
  /\ stopMergesAndWait [TimedOut] s
     = Some (Throw ErrorCodes.TIMEOUT_EXCEEDED, {["other_1_1_0"]})
  /\ stopMergesAndWait [Notified ∅] s = Some (Return tt, ∅).
Proof. vm_compute. done. Qed.

Lemma GrantedRoles_admin_is_granted_kept_witness :
  GrantedRoles.admin_is_granted (GrantedRoles.grant 3%N example_granted)
  /\ GrantedRoles.admin_is_granted
       (GrantedRoles.grant_vector [3%N; 4%N] example_granted)
  /\ GrantedRoles.admin_is_granted
       (GrantedRoles.grantWithAdminOption 3%N example_granted)
  /\ GrantedRoles.admin_is_granted
       (GrantedRoles.grantWithAdminOption_vector [3%N; 4%N] example_granted)
  /\ GrantedRoles.admin_is_granted (GrantedRoles.revoke 3%N example_granted)
  /\ GrantedRoles.admin_is_granted
       (GrantedRoles.revoke_vector [3%N; 4%N] example_granted)
  /\ GrantedRoles.admin_is_granted
       (GrantedRoles.revokeAdminOption 3%N example_granted)
  /\ GrantedRoles.admin_is_granted
       (GrantedRoles.revokeAdminOption_vector [3%N; 4%N] example_granted)
  /\ GrantedRoles.admin_is_granted
       (GrantedRoles.makeUnion example_granted example_granted)
  /\ GrantedRoles.admin_is_granted
       (GrantedRoles.makeIntersection example_granted example_granted).
Proof.
  apply (GrantedRoles_admin_is_granted_kept example_granted example_granted
           3%N [3%N; 4%N]);
    exact example_granted_admin_is_granted.
Defined.

Lemma GrantedRoles_revoke_after_grant_witness :
  GrantedRoles.revoke_vector [3%N; 4%N]
    (GrantedRoles.grant_vector [3%N; 4%N] example_granted) = example_granted
  /\ GrantedRoles.revoke_vector [3%N; 4%N]
       (GrantedRoles.grantWithAdminOption_vector [3%N; 4%N] example_granted)
     = example_granted
  /\ GrantedRoles.revokeAdminOption_vector [3%N; 4%N]
       (GrantedRoles.grantWithAdminOption_vector [3%N; 4%N] example_granted)
     = GrantedRoles.grant_vector [3%N; 4%N] example_granted.
Proof.
  apply (GrantedRoles_revoke_after_grant example_granted [3%N; 4%N]).
  - exact example_granted_admin_is_granted.
  - intros r Hr. apply elem_of_cons in Hr as [->|Hr]; [reflexivity|].
    apply list_elem_of_singleton in Hr as ->. reflexivity.
Defined.

(** Revoking a role that was granted before the grant does not give back
    the roles one started from. *)
Example GrantedRoles_revoke_after_regrant :
  GrantedRoles.revoke 1%N (GrantedRoles.grant 1%N example_granted)
  <> example_granted.
Proof.
  intros H. apply (f_equal (GrantedRoles.isGranted 1%N)) in H.
  vm_compute in H. discriminate.
Qed.

Example GrantedRoles_getElements_of_the_example :
  GrantedRoles.getElements example_granted
  = [GrantedRoles.mkElement [1%N] false; GrantedRoles.mkElement [2%N] true]
  /\ GrantedRoles.getElements (GrantedRoles.mk ∅ ∅) = []
  /\ GrantedRoles.findGranted_vector [2%N; 5%N; 2%N] example_granted = [2%N; 2%N]
  /\ GrantedRoles.findGranted_flat_set {[2%N; 5%N]} example_granted = [2%N].
Proof. vm_compute. done. Qed.

(** Role 1 replaced by role 5, role 2 by role 6: the admin option follows
    role 2. *)
Lemma GrantedRoles_replaceDependencies_renames_witness :
  let old_to_new_ids : gmap UUID UUID := {[1%N := 5%N; 2%N := 6%N]} in
  let g' := GrantedRoles.replaceDependencies old_to_new_ids example_granted in
  (forall id, GrantedRoles.isGranted id g' = true
     <-> (GrantedRoles.isGranted id example_granted = true
          /\ old_to_new_ids !! id = None)
         \/ exists old, GrantedRoles.isGranted old example_granted = true
                        /\ old_to_new_ids !! old = Some id)
  /\ (forall id, GrantedRoles.isGrantedWithAdminOption id g' = true
     <-> (GrantedRoles.isGrantedWithAdminOption id example_granted = true
          /\ old_to_new_ids !! id = None)
         \/ exists old, GrantedRoles.isGrantedWithAdminOption old example_granted = true
                        /\ old_to_new_ids !! old = Some id)
  /\ GrantedRoles.admin_is_granted g'.
Proof.
  apply (GrantedRoles_replaceDependencies_renames {[1%N := 5%N; 2%N := 6%N]}
           example_granted).
  exact example_granted_admin_is_granted.
Defined.

Example GrantedRoles_replaceDependencies_of_the_example :
  GrantedRoles.getElements
    (GrantedRoles.replaceDependencies {[1%N := 5%N; 2%N := 6%N]} example_granted)
  = [GrantedRoles.mkElement [5%N] false; GrantedRoles.mkElement [6%N] true].
Proof. vm_compute. done. Qed.

Lemma GrantedRoles_removeDependencies_removes_witness :
  let ids_ : gset UUID := {[2%N; 7%N]} in
  let src := GrantedRoles.mk {[7%N]} {[7%N]} in
  let g' := GrantedRoles.removeDependencies ids_ example_granted in
  (forall id, GrantedRoles.isGranted id g'
              = GrantedRoles.isGranted id example_granted
                && negb (bool_decide (id ∈ ids_)))
  /\ (forall id, GrantedRoles.isGrantedWithAdminOption id g'
                 = GrantedRoles.isGrantedWithAdminOption id example_granted
                   && negb (bool_decide (id ∈ ids_)))
  /\ GrantedRoles.hasDependencies ids_ g' = false
  /\ GrantedRoles.admin_is_granted g'
  /\ (GrantedRoles.hasDependencies ids_ example_granted = false ->
      GrantedRoles.removeDependencies ids_
        (GrantedRoles.copyDependenciesFrom src ids_ example_granted)
      = example_granted).
Proof.
  apply (GrantedRoles_removeDependencies_removes
           (GrantedRoles.mk {[7%N]} {[7%N]}) {[2%N; 7%N]} example_granted).
  - exact example_granted_admin_is_granted.
  - unfold GrantedRoles.admin_is_granted. simpl. set_solver.
Defined.

Lemma GrantedRoles_copyDependenciesFrom_copies_witness :
  let ids_ : gset UUID := {[2%N; 7%N]} in
  let g := GrantedRoles.mk {[7%N]} ∅ in
  let g' := GrantedRoles.copyDependenciesFrom example_granted ids_ g in
  (forall id, GrantedRoles.isGranted id g'
              = GrantedRoles.isGranted id g
                || GrantedRoles.isGranted id example_granted
                   && bool_decide (id ∈ ids_))
  /\ (forall id, GrantedRoles.isGrantedWithAdminOption id g'
                 = GrantedRoles.isGrantedWithAdminOption id g
                   || GrantedRoles.isGrantedWithAdminOption id example_granted
                      && bool_decide (id ∈ ids_))
  /\ GrantedRoles.hasDependencies ids_ g'
     = GrantedRoles.hasDependencies ids_ g
       || GrantedRoles.hasDependencies ids_ example_granted
  /\ GrantedRoles.admin_is_granted g'.
Proof.
  apply (GrantedRoles_copyDependenciesFrom_copies example_granted {[2%N; 7%N]}
           (GrantedRoles.mk {[7%N]} ∅)).
  - unfold GrantedRoles.admin_is_granted. simpl. set_solver.
  - exact example_granted_admin_is_granted.
Defined.
